(** * Placement tracker: the bulk fetcher and the client-side aggregator

    A shallow embedding of the dashboard page of the placement tracker
    (the component [Home] with its helpers [calcStats], [fetchAllRows],
    [getBranch], [getCtcRange], [companyStats], [branchStats],
    [monthlyTrends] and [filterAndSort]) and the properties of it that
    the specification states.

    The page is JavaScript.  The part of the language the helpers rely
    on is modelled in [Js]: completions (a value or an exception),
    numbers, truthiness, strings, [Array.prototype.sort], and plain
    objects used as dictionaries: own properties in creation order
    behind [Object.prototype].  The records of the tables and of the
    aggregates follow; then the aggregator and the bulk fetcher, each
    function under the name it has in the page; then the definitions the
    properties are stated with; then the properties.

    What the page takes from its environment enters as a parameter: the
    client of the table service ([BulkFetcher.client]), the label of a
    month in the locale of the browser ([toLocaleString]), the case
    mapping of strings ([toLowerCase]), and the binary64 operations that
    round ([Binary64]); [Ieee754] gives the latter their meaning in the
    language, on the binary64 arithmetic of the standard library. *)

From Stdlib Require Import List String Ascii Bool Arith ZArith QArith Lia Lqa.
From Stdlib Require Import Permutation Sorted.
From Stdlib Require Import Decimal DecimalString DecimalZ DecimalN.
From Stdlib Require SpecFloat Qround Qabs.
Import ListNotations.

Set Implicit Arguments.
Local Close Scope Q_scope.
Local Open Scope string_scope.
Local Open Scope list_scope.

(* ================================================================== *)
(** * The fragment of JavaScript the page uses *)
(* ================================================================== *)

Module Js.

(** ** Completions: a computation returns or throws *)

Inductive completion (E A : Type) : Type :=
| Normal (a : A)
| Throw (e : E).
Arguments Normal {E A} a.
Arguments Throw {E A} e.

Definition bind {E A B} (c : completion E A) (k : A -> completion E B)
  : completion E B :=
  match c with
  | Normal a => k a
  | Throw e => Throw e
  end.

Declare Scope js_scope.
Delimit Scope js_scope with js.
Notation "'let*' x ':=' c 'in' k" := (bind c (fun x => k))
  (at level 61, x pattern, c at next level, right associativity) : js_scope.

(** The one exception the aggregator itself can raise. *)
Inductive error : Type := TypeError.

(** ** Numbers

    A JavaScript number is a binary64 value.  Every finite binary64 value
    is a rational, and the comparisons [<] and [===] on numbers are exact,
    so a number is modelled as a rational or one of the three special
    values.  (The two zeros are identified: nothing below tells them
    apart.)  Arithmetic that rounds is not defined here; where the page
    needs it ([calcStats]) it enters as a parameter. *)

Inductive number : Type :=
| NaN
| PosInf
| NegInf
| Fin (q : Q).

Definition Qltb (x y : Q) : bool := negb (Qle_bool y x).

(** [a < b] *)
Definition lt (a b : number) : bool :=
  match a, b with
  | NaN, _ | _, NaN => false
  | Fin x, Fin y => Qltb x y
  | NegInf, NegInf => false
  | NegInf, _ => true
  | _, NegInf => false
  | PosInf, _ => false
  | Fin _, PosInf => true
  end.

(** [ToBoolean] on a number: [NaN] and zero are falsy. *)
Definition truthy_number (n : number) : bool :=
  match n with
  | NaN => false
  | Fin q => negb (Qeq_bool q 0)
  | PosInf | NegInf => true
  end.

(** [n || 0] *)
Definition or_zero (n : number) : number :=
  if truthy_number n then n else Fin 0.

(** A count: an integer-valued number.  An array holds fewer than 2^32
    elements, so every count the page computes is below 2^53 and [++]
    on it is exact. *)
Definition of_nat (n : nat) : number := Fin (inject_Z (Z.of_nat n)).

(** [a - b], as [Array.prototype.sort] consumes it from a comparator:
    only the sign of the result is looked at.  Binary64 subtraction
    rounds the exact difference, and rounding never moves a non-zero
    difference of two binary64 values to zero or across it, so the exact
    difference stands for the rounded one. *)
Definition sub (a b : number) : number :=
  match a, b with
  | NaN, _ | _, NaN => NaN
  | PosInf, PosInf | NegInf, NegInf => NaN
  | PosInf, _ | _, NegInf => PosInf
  | NegInf, _ | _, PosInf => NegInf
  | Fin x, Fin y => Fin (x - y)
  end.

(** ** Strings

    A string is a sequence of code units; [ascii] stands for one code
    unit.  None of the functions below looks inside a code unit, except
    [toLowerCase], which is a parameter of [filterAndSort]. *)

(** [ToBoolean] on a string: only the empty string is falsy. *)
Definition truthy_string (s : string) : bool :=
  match s with
  | EmptyString => false
  | String _ _ => true
  end.

(** [s.substring(start, end)] for non-negative integer arguments: both
    are clamped to the length and swapped when out of order. *)
Definition substring (s : string) (start end_ : nat) : string :=
  let len := String.length s in
  let a := Nat.min start len in
  let b := Nat.min end_ len in
  String.substring (Nat.min a b) (Nat.max a b - Nat.min a b) s.

(** [s.includes(sub)] *)
Fixpoint includes (s sub : string) : bool :=
  String.prefix sub s ||
  match s with
  | EmptyString => false
  | String _ s' => includes s' sub
  end.


(** [String(n)] on an integer-valued number of moderate size (a year, a
    month number): the decimal digits, with a leading minus sign below
    zero. *)
Definition toString_int (z : Z) : string :=
  NilEmpty.string_of_int (Z.to_int z).

(** ** Sorting

    [l.sort(cmp)].  The language asks for a stable sort.  With a
    consistent comparator the stably sorted order is unique, and an
    insertion sort finds it; the comparators of the page are differences
    of one numeric key of the two elements, which is consistent.  A
    comparator result above zero puts its first argument after the
    second; everything else (negative, zero, [NaN]) leaves the two in
    the order they have. *)

Section Sort.
Variable A : Type.
Variable cmp : A -> A -> number.

Definition after (a b : A) : bool := lt (Fin 0) (cmp a b).

Fixpoint insert (x : A) (l : list A) : list A :=
  match l with
  | [] => [x]
  | y :: l' => if after x y then y :: insert x l' else x :: l
  end.

Definition sort (l : list A) : list A := fold_right insert [] l.
End Sort.

(** ** Plain objects used as dictionaries

    [const stats = {}] makes an object whose prototype is
    [Object.prototype].  [stats[k]] finds an own property first and what
    [Object.prototype] holds under [k] otherwise, so a key that names a
    member of [Object.prototype] is never absent. *)

Definition Object_prototype_methods : list string :=
  [ "constructor"; "hasOwnProperty"; "isPrototypeOf";
    "propertyIsEnumerable"; "toLocaleString"; "toString"; "valueOf";
    "__defineGetter__"; "__defineSetter__"; "__lookupGetter__";
    "__lookupSetter__" ].

(** Every key [Object.prototype] answers from the start: its methods and
    the accessor [__proto__]. *)
Definition Object_prototype_names : list string :=
  "__proto__" :: Object_prototype_methods.

(** A write through [stats["__proto__"]] lands on [Object.prototype]
    itself, where every object of the page then sees it.  The page only
    ever writes the members [total] (always [NaN] there: [undefined]
    incremented), [ctc] and [ctcRange] that way. *)
Record prototype : Type := {
  proto_total : bool;
  proto_ctc : option number;
  proto_ctcRange : option string
}.

Definition pristine : prototype :=
  {| proto_total := false; proto_ctc := None; proto_ctcRange := None |}.

Definition mem (k : string) (l : list string) : bool :=
  existsb (String.eqb k) l.

Section Objects.
(** [R]: the record objects the dictionary stores. *)
Variable R : Type.

(** Own properties, in the order of their creation. *)
Definition properties : Type := list (string * R).

Fixpoint get_own (o : properties) (k : string) : option R :=
  match o with
  | [] => None
  | (k', r) :: o' => if k' =? k then Some r else get_own o' k
  end.

(** An own property keeps its place when written again; a new one goes
    last. *)
Fixpoint set_own (o : properties) (k : string) (r : R) : properties :=
  match o with
  | [] => [(k, r)]
  | (k', r') :: o' =>
      if k' =? k then (k', r) :: o' else (k', r') :: set_own o' k r
  end.

(** What [stats[k]] evaluates to. *)
Inductive property : Type :=
| Own (r : R)
| Method                  (* a function object of [Object.prototype] *)
| ThePrototype            (* [Object.prototype], through [__proto__] *)
| Number_ (n : number)    (* a number written onto [Object.prototype] *)
| String_ (s : string)    (* a string written onto [Object.prototype] *)
| Undefined.

Definition inherited (pr : prototype) (k : string) : property :=
  if k =? "__proto__" then ThePrototype
  else if mem k Object_prototype_methods then Method
  else if k =? "total" then
    if proto_total pr then Number_ NaN else Undefined
  else if k =? "ctc" then
    match proto_ctc pr with Some n => Number_ n | None => Undefined end
  else if k =? "ctcRange" then
    match proto_ctcRange pr with Some s => String_ s | None => Undefined end
  else Undefined.

(** The two objects a dictionary access can touch. *)
Definition state : Type := (prototype * properties)%type.

Definition get (s : state) (k : string) : property :=
  match get_own (snd s) k with
  | Some r => Own r
  | None => inherited (fst s) k
  end.

(** [ToBoolean]: objects are truthy. *)
Definition truthy (p : property) : bool :=
  match p with
  | Own _ | Method | ThePrototype => true
  | Number_ n => truthy_number n
  | String_ s => truthy_string s
  | Undefined => false
  end.

(** [if (!stats[k]) stats[k] = fresh;]  The assignment is reached only
    with a falsy [stats[k]], so never for [__proto__], and it creates
    an own property. *)
Definition ensure (s : state) (k : string) (fresh : R) : state :=
  if truthy (get s k) then s else (fst s, set_own (snd s) k fresh).

(** [stats[k].member = v] (or [stats[k].member++]): the write lands on
    whatever [stats[k]] is.  On a record, [on_record] says what
    changes; on [Object.prototype], [on_prototype]; a method takes the
    member without any effect on the dictionary; a primitive or
    [undefined] refuses it (the page is a module, hence strict). *)
Definition assign (s : state) (k : string)
    (on_record : R -> R) (on_prototype : prototype -> prototype)
  : completion error state :=
  match get s k with
  | Own r => Normal (fst s, set_own (snd s) k (on_record r))
  | Method => Normal s
  | ThePrototype => Normal (on_prototype (fst s), snd s)
  | Number_ _ | String_ _ | Undefined => Throw TypeError
  end.

(** [stats[k].member.push(v)] for a member that only the records
    have: everywhere else the member is [undefined]. *)
Definition modify (s : state) (k : string) (on_record : R -> R)
  : completion error state :=
  match get s k with
  | Own r => Normal (fst s, set_own (snd s) k (on_record r))
  | _ => Throw TypeError
  end.

(** An array index: the canonical decimal spelling of an integer
    below 2^32 - 1. *)
Definition array_index (k : string) : option N :=
  match NilEmpty.uint_of_string k with
  | Some d =>
      let n := N.of_uint d in
      if (NilEmpty.string_of_uint (N.to_uint n) =? k) && (n <? 4294967295)%N
      then Some n else None
  | None => None
  end.

Fixpoint insert_index (x : N * R) (l : list (N * R)) : list (N * R) :=
  match l with
  | [] => [x]
  | y :: l' => if (fst y <? fst x)%N then y :: insert_index x l' else x :: l
  end.

Fixpoint indexed (o : properties) : list (N * R) :=
  match o with
  | [] => []
  | (k, r) :: o' =>
      match array_index k with
      | Some n => insert_index (n, r) (indexed o')
      | None => indexed o'
      end
  end.

Fixpoint named (o : properties) : list R :=
  match o with
  | [] => []
  | (k, r) :: o' =>
      match array_index k with
      | Some _ => named o'
      | None => r :: named o'
      end
  end.

(** [Object.values(stats)]: the values under array-index keys in
    ascending order of index, then the others in creation order. *)
Definition values (o : properties) : list R :=
  map snd (indexed o) ++ named o.
End Objects.

Arguments Own {R} r.
Arguments Method {R}.
Arguments ThePrototype {R}.
Arguments Number_ {R} n.
Arguments String_ {R} s.
Arguments Undefined {R}.

(** [l.forEach(body)] threading the objects the body mutates; an
    exception ends the loop. *)
Fixpoint forEach {S A : Type} (body : S -> A -> completion error S)
    (l : list A) (s : S) : completion error S :=
  match l with
  | [] => Normal s
  | a :: l' => bind (body s a) (forEach body l')
  end.

(** [l.filter(pred)] with a callback that may throw. *)
Fixpoint filter_throwing {A : Type} (pred : A -> completion error bool)
    (l : list A) : completion error (list A) :=
  match l with
  | [] => Normal []
  | a :: l' =>
      bind (pred a) (fun keep =>
      bind (filter_throwing pred l') (fun rest =>
      Normal (if keep then a :: rest else rest)))
  end.

End Js.

(* ================================================================== *)
(** * The data the page works on *)
(* ================================================================== *)

(** [new Date(p.created_at)], as far as the page reads it: an invalid
    date, or the year and the month index (0 for January) of the
    timestamp in local time. *)
Inductive Date : Type :=
| InvalidDate
| LocalDate (fullYear : Z) (month : nat).

(** A row of the table [Offer].  [reg_no] and [company] are strings or
    absent ([None]: [null] or [undefined]); [ctc] holds [Number(p.ctc)],
    which is [NaN] for a missing or non-numeric cell; [created_at] holds
    [new Date(p.created_at)].  The columns [id] and [name] play no role
    in the aggregation. *)
Module Offer.
Record t : Type := {
  reg_no : option string;
  company : option string;
  ctc : Js.number;
  created_at : Date
}.
End Offer.

Module CompanyStat.
Record t : Type := {
  company : string;
  total : nat;
  month : string;
  ctc : Js.number;
  ctcRange : string
}.
End CompanyStat.

(** The record [branchStats] accumulates, and the one it returns. *)
Module BranchAcc.
Record t : Type := {
  branch : string;
  total : nat;
  ctcValues : list Js.number
}.
End BranchAcc.

Module BranchStat.
Record t : Type := {
  branch : string;
  total : nat;
  ctcValues : list Js.number;
  avg : Js.number;
  median : Js.number
}.
End BranchStat.

Module MonthlyTrend.
Record t : Type := {
  month : string;
  total : nat
}.
End MonthlyTrend.

(** The members [filterAndSort] reads off an element of [data];
    [None] is [undefined]. *)
Class Aggregate (A : Type) : Type := {
  member_company : A -> option string;
  member_branch : A -> option string;
  member_ctcRange : A -> option string;
  member_total : A -> nat;
  member_avg : A -> option Js.number;
  member_median : A -> option Js.number
}.

#[export] Instance CompanyStat_Aggregate : Aggregate CompanyStat.t := {|
  member_company := fun d => Some (CompanyStat.company d);
  member_branch := fun _ => None;
  member_ctcRange := fun d => Some (CompanyStat.ctcRange d);
  member_total := CompanyStat.total;
  member_avg := fun _ => None;
  member_median := fun _ => None
|}.

#[export] Instance BranchStat_Aggregate : Aggregate BranchStat.t := {|
  member_company := fun _ => None;
  member_branch := fun d => Some (BranchStat.branch d);
  member_ctcRange := fun _ => None;
  member_total := BranchStat.total;
  member_avg := fun d => Some (BranchStat.avg d);
  member_median := fun d => Some (BranchStat.median d)
|}.

(** The binary64 operations that round, as [calcStats] uses them:
    [a + b], [a / b] and [Number(x.toFixed(2))]. *)
Class Binary64 : Type := {
  add : Js.number -> Js.number -> Js.number;
  div : Js.number -> Js.number -> Js.number;
  toFixed2 : Js.number -> Js.number
}.

(** The view state of the page that [filterAndSort] reads. *)
Record View : Type := {
  search : string;
  sortBy : string;
  selectedRange : string
}.

(* ================================================================== *)
(** * The aggregator *)
(* ================================================================== *)

Module Aggregator.
Import Js.

Record Stats : Type := { avg : number; median : number }.

Section CalcStats.
Context {B : Binary64}.

(** [calcStats]; [None] is an absent argument. *)
Definition calcStats (values : option (list number)) : Stats :=
  match values with
  | None | Some [] => {| avg := Fin 0; median := Fin 0 |}
  | Some values =>
      let avg := div (fold_left add values (Fin 0))
                     (of_nat (List.length values)) in
      let sorted := sort (fun a b => sub a b) values in
      let mid := Nat.div (List.length sorted) 2 in
      let median :=
        if negb (Nat.modulo (List.length sorted) 2 =? 0)%nat
        then nth mid sorted NaN
        else div (add (nth (mid - 1) sorted NaN) (nth mid sorted NaN))
                 (Fin 2) in
      {| avg := toFixed2 avg; median := toFixed2 median |}
  end.
End CalcStats.

(** [getBranch] *)
Definition getBranch (reg : option string) : string :=
  match reg with
  | Some s => if truthy_string s then substring s 2 5 else "UNK"
  | None => "UNK"
  end.

(** [getCtcRange] *)
Definition getCtcRange (ctc : number) : string :=
  if lt ctc (Fin 5) then "<5"
  else if lt ctc (Fin 10) then "5-10"
  else if lt ctc (Fin 15) then "10-15"
  else if lt ctc (Fin 20) then "15-20"
  else if lt ctc (Fin 30) then "20+"
  else "30+".

(** [p.company || "Unknown"] *)
Definition comp (p : Offer.t) : string :=
  match Offer.company p with
  | Some s => if truthy_string s then s else "Unknown"
  | None => "Unknown"
  end.

(** The template literal of [monthlyTrends]; the members of an invalid
    date are [NaN]. *)
Definition month_key (d : Date) : string :=
  match d with
  | InvalidDate => "NaN" ++ "-" ++ "NaN"
  | LocalDate y m => toString_int y ++ "-" ++ toString_int (Z.of_nat m + 1)
  end.

Section Page.
Context {B : Binary64}.

(** [d.toLocaleString("default", {month: "short", year: "numeric"})]:
    the label depends on the locale of the browser. *)
Variable toLocaleString : Date -> string.

(** [s.toLowerCase()]: the case mapping of the Unicode tables. *)
Variable toLowerCase : string -> string.

(** [pr]: [Object.prototype] as the computation finds it. *)

Definition companyStats_body (stats : state CompanyStat.t) (p : Offer.t)
  : completion error (state CompanyStat.t) :=
  let comp := comp p in
  let stats := ensure stats comp
    {| CompanyStat.company := comp;
       CompanyStat.total := 0;
       CompanyStat.month := toLocaleString (Offer.created_at p);
       CompanyStat.ctc := Fin 0;
       CompanyStat.ctcRange := "" |} in
  let ctc := or_zero (Offer.ctc p) in
  bind (assign stats comp
    (fun r => {| CompanyStat.company := CompanyStat.company r;
                 CompanyStat.total := S (CompanyStat.total r);
                 CompanyStat.month := CompanyStat.month r;
                 CompanyStat.ctc := CompanyStat.ctc r;
                 CompanyStat.ctcRange := CompanyStat.ctcRange r |})
    (fun pr => {| proto_total := true;
                  proto_ctc := proto_ctc pr;
                  proto_ctcRange := proto_ctcRange pr |}))
  (fun stats =>
  bind (assign stats comp
    (fun r => {| CompanyStat.company := CompanyStat.company r;
                 CompanyStat.total := CompanyStat.total r;
                 CompanyStat.month := CompanyStat.month r;
                 CompanyStat.ctc := ctc;
                 CompanyStat.ctcRange := CompanyStat.ctcRange r |})
    (fun pr => {| proto_total := proto_total pr;
                  proto_ctc := Some ctc;
                  proto_ctcRange := proto_ctcRange pr |}))
  (fun stats =>
  assign stats comp
    (fun r => {| CompanyStat.company := CompanyStat.company r;
                 CompanyStat.total := CompanyStat.total r;
                 CompanyStat.month := CompanyStat.month r;
                 CompanyStat.ctc := CompanyStat.ctc r;
                 CompanyStat.ctcRange := getCtcRange ctc |})
    (fun pr => {| proto_total := proto_total pr;
                  proto_ctc := proto_ctc pr;
                  proto_ctcRange := Some (getCtcRange ctc) |}))).

(** The dictionary [stats] of [companyStats] after the loop. *)
Definition companyStats_scan (pr : prototype) (placements : list Offer.t)
  : completion error (state CompanyStat.t) :=
  forEach companyStats_body placements (pr, []).

(** [companyStats] *)
Definition companyStats (pr : prototype) (placements : list Offer.t)
  : completion error (list CompanyStat.t) :=
  bind (companyStats_scan pr placements)
       (fun stats => Normal (values (snd stats))).

Definition branchStats_body (stats : state BranchAcc.t) (p : Offer.t)
  : completion error (state BranchAcc.t) :=
  let branch := getBranch (Offer.reg_no p) in
  let stats := ensure stats branch
    {| BranchAcc.branch := branch;
       BranchAcc.total := 0;
       BranchAcc.ctcValues := [] |} in
  bind (assign stats branch
    (fun r => {| BranchAcc.branch := BranchAcc.branch r;
                 BranchAcc.total := S (BranchAcc.total r);
                 BranchAcc.ctcValues := BranchAcc.ctcValues r |})
    (fun pr => {| proto_total := true;
                  proto_ctc := proto_ctc pr;
                  proto_ctcRange := proto_ctcRange pr |}))
  (fun stats =>
  modify stats branch
    (fun r => {| BranchAcc.branch := BranchAcc.branch r;
                 BranchAcc.total := BranchAcc.total r;
                 BranchAcc.ctcValues :=
                   BranchAcc.ctcValues r ++ [or_zero (Offer.ctc p)] |})).

Definition branchStats_scan (pr : prototype) (placements : list Offer.t)
  : completion error (state BranchAcc.t) :=
  forEach branchStats_body placements (pr, []).

(** [{...b, ...calcStats(b.ctcValues)}] *)
Definition with_stats (b : BranchAcc.t) : BranchStat.t :=
  let s := calcStats (Some (BranchAcc.ctcValues b)) in
  {| BranchStat.branch := BranchAcc.branch b;
     BranchStat.total := BranchAcc.total b;
     BranchStat.ctcValues := BranchAcc.ctcValues b;
     BranchStat.avg := avg s;
     BranchStat.median := median s |}.

(** [branchStats] *)
Definition branchStats (pr : prototype) (placements : list Offer.t)
  : completion error (list BranchStat.t) :=
  bind (branchStats_scan pr placements)
       (fun stats => Normal (map with_stats (values (snd stats)))).

Definition monthlyTrends_body (stats : state MonthlyTrend.t) (p : Offer.t)
  : completion error (state MonthlyTrend.t) :=
  let d := Offer.created_at p in
  let key := month_key d in
  let label := toLocaleString d in
  let stats := ensure stats key
    {| MonthlyTrend.month := label; MonthlyTrend.total := 0 |} in
  assign stats key
    (fun r => {| MonthlyTrend.month := MonthlyTrend.month r;
                 MonthlyTrend.total := S (MonthlyTrend.total r) |})
    (fun pr => {| proto_total := true;
                  proto_ctc := proto_ctc pr;
                  proto_ctcRange := proto_ctcRange pr |}).

Definition monthlyTrends_scan (pr : prototype) (placements : list Offer.t)
  : completion error (state MonthlyTrend.t) :=
  forEach monthlyTrends_body placements (pr, []).

(** [monthlyTrends] *)
Definition monthlyTrends (pr : prototype) (placements : list Offer.t)
  : completion error (list MonthlyTrend.t) :=
  bind (monthlyTrends_scan pr placements)
       (fun stats => Normal (values (snd stats))).

(** [x || 0] on a member that may be [undefined]. *)
Definition member_or_zero (x : option number) : number :=
  match x with
  | Some n => or_zero n
  | None => Fin 0
  end.

(** [d.ctcRange === selectedRange] *)
Definition strict_equal (x : option string) (s : string) : bool :=
  match x with
  | Some x => x =? s
  | None => false
  end.

Section FilterAndSort.
Context {A : Type} {Agg : Aggregate A}.
Variable view : View.

(** The callback of the search filter: [toLowerCase] on a member
    that is [undefined] throws. *)
Definition matches_search (type : string) (d : A)
  : completion error bool :=
  match (if type =? "company" then member_company d
         else member_branch d) with
  | Some key =>
      Normal (includes (toLowerCase key) (toLowerCase (search view)))
  | None => Throw TypeError
  end.

(** [filterAndSort] *)
Definition filterAndSort (data : list A) (type : string)
  : completion error (list A) :=
  bind (if truthy_string (search view)
        then filter_throwing (matches_search type) data
        else Normal data)
  (fun filtered =>
  let filtered :=
    if (type =? "company") && negb (selectedRange view =? "all")
    then filter (fun d => strict_equal (member_ctcRange d)
                                       (selectedRange view)) filtered
    else filtered in
  if sortBy view =? "students" then
    Normal (sort (fun a b => sub (of_nat (member_total b))
                                 (of_nat (member_total a))) filtered)
  else if sortBy view =? "avg" then
    Normal (sort (fun a b => sub (member_or_zero (member_avg b))
                                 (member_or_zero (member_avg a)))
                 filtered)
  else if sortBy view =? "median" then
    Normal (sort (fun a b => sub (member_or_zero (member_median b))
                                 (member_or_zero (member_median a)))
                 filtered)
  else Normal filtered).
End FilterAndSort.
End Page.

End Aggregator.

(* ================================================================== *)
(** * The bulk fetcher *)
(* ================================================================== *)

Module BulkFetcher.
Import Js.
Local Open Scope Z_scope.

Section Fetch.
(** The rows of a table and the error objects of the client. *)
Variables Row Err : Type.

(** What a request resolves to, [{ data, error }]; [None] is [null]. *)
Record response : Type := {
  data : option (list Row);
  error : option Err
}.

(** [supabase.from(tableName).select("*").range(from, to)] *)
Definition client : Type := string -> Z -> Z -> response.

(** A request the loop has issued. *)
Record request : Type := {
  range_table : string;
  range_from : Z;
  range_to : Z
}.

(** What a run of [fetchAllRows] comes to within a number of requests:
    [None] when the loop is still running after them. *)
Definition outcome : Type := option (completion Err (list Row)).

(** The loop [while (true) { ... }] from the state [allRows], [from],
    for at most [fuel] requests; the requests issued come with the
    outcome. *)
Fixpoint fetch_loop (fuel : nat) (supabase : client) (tableName : string)
    (chunkSize : Z) (allRows : list Row) (from : Z)
  : list request * outcome :=
  match fuel with
  | O => ([], None)
  | S fuel' =>
      let rq := {| range_table := tableName;
                   range_from := from;
                   range_to := from + chunkSize - 1 |} in
      let r := supabase tableName from (from + chunkSize - 1) in
      match error r with
      | Some e => ([rq], Some (Throw e))
      | None =>
          match data r with
          | None => ([rq], Some (Normal allRows))
          | Some d =>
              if (List.length d =? 0)%nat then ([rq], Some (Normal allRows))
              else
                let allRows := allRows ++ d in
                if Z.of_nat (List.length d) <? chunkSize
                then ([rq], Some (Normal allRows))
                else
                  let (rqs, res) :=
                    fetch_loop fuel' supabase tableName chunkSize allRows
                               (from + chunkSize) in
                  (rq :: rqs, res)
          end
      end
  end.

(** [fetchAllRows(tableName, chunkSize = 1000)] *)
Definition fetchAllRows (fuel : nat) (supabase : client)
    (tableName : string) (chunkSize : option Z)
  : list request * outcome :=
  let chunkSize := match chunkSize with Some c => c | None => 1000 end in
  fetch_loop fuel supabase tableName chunkSize [] 0.

(** Modelled from the spec: the rows of a resource at the offsets from
    [from] to [to], both ends included, as far as they exist. *)
Definition rows_in_range (rows : list Row) (from to : Z) : list Row :=
  if to <? from then []
  else firstn (Z.to_nat (to - from + 1)) (skipn (Z.to_nat from) rows).

(** Modelled from the spec: the resource behind the client, which the
    repository does not contain.  It serves range-based pagination over
    the rows of each table in their order: a request for a range answers
    with the rows of the range, at most [max_rows] of them (the cap the
    service puts on one request), and no error. *)
Definition table_service (tables : string -> list Row) (max_rows : Z)
  : client :=
  fun tableName from to =>
    {| data := Some (firstn (Z.to_nat max_rows)
                            (rows_in_range (tables tableName) from to));
       error := None |}.

(** The requests of a run over [n] rows: one per offset 0, [chunkSize],
    2 [chunkSize], ... up to the first offset at which fewer than
    [chunkSize] rows remain. *)
Definition nth_request (tableName : string) (chunkSize : Z) (k : nat)
  : request :=
  {| range_table := tableName;
     range_from := Z.of_nat k * chunkSize;
     range_to := Z.of_nat k * chunkSize + chunkSize - 1 |}.

Definition expected_requests (tableName : string) (chunkSize : Z)
    (n : nat) : list request :=
  map (nth_request tableName chunkSize)
      (seq 0 (S (Z.to_nat (Z.of_nat n / chunkSize)))).

(** The answer a request got. *)
Definition answer (supabase : client) (rq : request) : response :=
  supabase (range_table rq) (range_from rq) (range_to rq).
End Fetch.

Arguments Build_response {Row Err} data error.
Arguments data {Row Err} r.
Arguments error {Row Err} r.

End BulkFetcher.

(* ================================================================== *)
(** * What the aggregates are compared with *)
(* ================================================================== *)

Module Reference.
Import Js Aggregator.

(** ** Dictionaries *)

(** Every record of the dictionary sits under its own name, and no key
    occurs twice. *)
Definition well_keyed {R : Type} (name : R -> string) (o : properties R)
  : Prop :=
  NoDup (map fst o) /\ forall k r, In (k, r) o -> name r = k.

(** [stats[k]] is a record of the dictionary, or falsy: the key is not
    taken by a truthy member of [Object.prototype]. *)
Definition usable {R : Type} (s : state R) (k : string) : Prop :=
  get_own (snd s) k <> None \/ truthy (@inherited R (fst s) k) = false.

Definition or_fresh {R : Type} (x : option R) (fresh : R) : R :=
  match x with Some r => r | None => fresh end.

(** The keys that [Object.prototype] answers, or may come to answer
    once the page has written onto it. *)
Definition reserved : list string :=
  Object_prototype_names ++ ["total"; "ctc"; "ctcRange"].

(** ** Offers and their groups *)

(** The offers that [companyStats] files under the key [k], in input
    order. *)
Definition offers_of (k : string) (placements : list Offer.t)
  : list Offer.t :=
  filter (fun p => comp p =? k) placements.

Definition count (k : string) (placements : list Offer.t) : nat :=
  List.length (offers_of k placements).

Definition first_offer (k : string) (placements : list Offer.t)
  : option Offer.t :=
  hd_error (offers_of k placements).

Definition last_offer (k : string) (placements : list Offer.t)
  : option Offer.t :=
  hd_error (List.rev (offers_of k placements)).

Definition Date_eq_dec (d d' : Date) : {d = d'} + {d <> d'}.
Proof. repeat decide equality. Defined.

(** The number of offers dated in the year and month [d]. *)
Definition count_date (d : Date) (placements : list Offer.t) : nat :=
  count_occ Date_eq_dec (map Offer.created_at placements) d.

(** [s] contains [sub]. *)
Definition contains (s sub : string) : Prop :=
  exists pre post, s = (pre ++ sub ++ post)%string.

(** [a >= b] *)
Definition ge (a b : number) : bool :=
  match a, b with
  | NaN, _ | _, NaN => false
  | _, _ => negb (lt a b)
  end.

(** Grouping, one key at a time: what a dictionary holds under [k]
    after a loop that, for every element [p] with key [k], lets [upd p]
    act on the record under [k], a fresh one at the first such
    element. *)
Section GroupBy.
Variables (P R : Type).
Variable key : P -> string.
Variable fresh : P -> R.
Variable upd : P -> R -> R.

Definition touch (p : P) (acc : option R) : option R :=
  Some (upd p (match acc with Some r => r | None => fresh p end)).

Definition group_step (k : string) (acc : option R) (p : P) : option R :=
  if key p =? k then touch p acc else acc.

Definition group_fold (k : string) (ps : list P) (acc : option R)
  : option R :=
  fold_left (group_step k) ps acc.
End GroupBy.

(** [companyStats], record by record. *)
Section Company.
Variable toLocaleString : Date -> string.

(** The record the body creates at a key it has not seen. *)
Definition fresh_company (p : Offer.t) : CompanyStat.t :=
  {| CompanyStat.company := comp p;
     CompanyStat.total := 0;
     CompanyStat.month := toLocaleString (Offer.created_at p);
     CompanyStat.ctc := Fin 0;
     CompanyStat.ctcRange := "" |}.

(** The three writes of the body on a record. *)
Definition upd_company (p : Offer.t) (r : CompanyStat.t) : CompanyStat.t :=
  {| CompanyStat.company := CompanyStat.company r;
     CompanyStat.total := S (CompanyStat.total r);
     CompanyStat.month := CompanyStat.month r;
     CompanyStat.ctc := or_zero (Offer.ctc p);
     CompanyStat.ctcRange := getCtcRange (or_zero (Offer.ctc p)) |}.

(** The record of the key [k]: the number of its offers, the month of
    the first of them, the compensation of the last. *)
Definition summary (k : string) (placements : list Offer.t)
  : option CompanyStat.t :=
  match first_offer k placements, last_offer k placements with
  | Some first, Some last =>
      Some {| CompanyStat.company := k;
              CompanyStat.total := count k placements;
              CompanyStat.month := toLocaleString (Offer.created_at first);
              CompanyStat.ctc := or_zero (Offer.ctc last);
              CompanyStat.ctcRange := getCtcRange (or_zero (Offer.ctc last)) |}
  | _, _ => None
  end.
End Company.

(** [branchStats], record by record. *)
Definition fresh_branch (p : Offer.t) : BranchAcc.t :=
  {| BranchAcc.branch := getBranch (Offer.reg_no p);
     BranchAcc.total := 0;
     BranchAcc.ctcValues := [] |}.

Definition upd_branch (p : Offer.t) (r : BranchAcc.t) : BranchAcc.t :=
  {| BranchAcc.branch := BranchAcc.branch r;
     BranchAcc.total := S (BranchAcc.total r);
     BranchAcc.ctcValues := BranchAcc.ctcValues r ++ [or_zero (Offer.ctc p)] |}.

(** [monthlyTrends], record by record. *)
Section Monthly.
Variable toLocaleString : Date -> string.

Definition fresh_month (p : Offer.t) : MonthlyTrend.t :=
  {| MonthlyTrend.month := toLocaleString (Offer.created_at p);
     MonthlyTrend.total := 0 |}.

Definition upd_month (p : Offer.t) (r : MonthlyTrend.t) : MonthlyTrend.t :=
  {| MonthlyTrend.month := MonthlyTrend.month r;
     MonthlyTrend.total := S (MonthlyTrend.total r) |}.

(** The entry of the year and month [d]. *)
Definition trend (placements : list Offer.t) (d : Date) : MonthlyTrend.t :=
  {| MonthlyTrend.month := toLocaleString d;
     MonthlyTrend.total := count_date d placements |}.
End Monthly.

(** The key of the month of an offer. *)
Definition key_of (p : Offer.t) : string := month_key (Offer.created_at p).

(** The date of the first offer filed under the month key [k]. *)
Definition first_dated (placements : list Offer.t) (k : string) : Date :=
  match find (fun p => key_of p =? k) placements with
  | Some p => Offer.created_at p
  | None => InvalidDate
  end.

(** The string has a minus sign in it. *)
Fixpoint has_dash (s : string) : bool :=
  match s with
  | EmptyString => false
  | String c s' => Ascii.eqb c "-" || has_dash s'
  end.

(** [filterAndSort], condition by condition. *)
Section Filter.
Context {A : Type} {Agg : Aggregate A}.
Variable toLowerCase : string -> string.
Variable view : View.

(** The member the search looks at. *)
Definition grouping_key (type : string) (d : A) : option string :=
  if type =? "company" then member_company d else member_branch d.

Definition search_ok (type : string) (d : A) : bool :=
  negb (truthy_string (search view))
  || match grouping_key type d with
     | Some key => includes (toLowerCase key) (toLowerCase (search view))
     | None => false
     end.

Definition range_ok (type : string) (d : A) : bool :=
  negb ((type =? "company") && negb (selectedRange view =? "all"))
  || strict_equal (member_ctcRange d) (selectedRange view).

(** The records [filterAndSort] keeps. *)
Definition kept (type : string) (d : A) : bool :=
  search_ok type d && range_ok type d.

(** The number the sort mode orders by. *)
Definition sort_key (d : A) : number :=
  if sortBy view =? "students" then of_nat (member_total d)
  else if sortBy view =? "avg" then member_or_zero (member_avg d)
  else member_or_zero (member_median d).

(** The order [filterAndSort] puts the kept records in. *)
Definition ordered (l : list A) : list A :=
  if sortBy view =? "students" then
    sort (fun a b => sub (of_nat (member_total b)) (of_nat (member_total a))) l
  else if sortBy view =? "avg" then
    sort (fun a b => sub (member_or_zero (member_avg b))
                         (member_or_zero (member_avg a))) l
  else if sortBy view =? "median" then
    sort (fun a b => sub (member_or_zero (member_median b))
                         (member_or_zero (member_median a))) l
  else l.
End Filter.

End Reference.

(* ================================================================== *)
(** * Concrete inputs *)
(* ================================================================== *)

Module Examples.
Import Js Aggregator BulkFetcher.

Definition month_names : list string :=
  ["Jan"; "Feb"; "Mar"; "Apr"; "May"; "Jun";
   "Jul"; "Aug"; "Sep"; "Oct"; "Nov"; "Dec"].

(** The labels of a browser in the locale en-US, for the years of the
    common era. *)
Definition en_US (d : Date) : string :=
  match d with
  | InvalidDate => "Invalid Date"
  | LocalDate y m => nth m month_names "" ++ " " ++ toString_int y
  end.

(** [toLowerCase] on strings of ASCII code units. *)
Definition ascii_toLowerCase_unit (c : ascii) : ascii :=
  let n := nat_of_ascii c in
  if (65 <=? n)%nat && (n <=? 90)%nat then ascii_of_nat (n + 32) else c.

Fixpoint ascii_toLowerCase (s : string) : string :=
  match s with
  | EmptyString => EmptyString
  | String c s' => String (ascii_toLowerCase_unit c) (ascii_toLowerCase s')
  end.

(** [{company: "A", ctc: 3}] and [{company: "A", ctc: 7}] *)
Definition offer_A (ctc : Q) (created_at : Date) : Offer.t :=
  {| Offer.reg_no := None;
     Offer.company := Some "A";
     Offer.ctc := Fin ctc;
     Offer.created_at := created_at |}.

Definition two_offers_of_A : list Offer.t :=
  [offer_A 3 InvalidDate; offer_A 7 InvalidDate].

(** The same two offers, made in January and in February 2025. *)
Definition two_months_of_A : list Offer.t :=
  [offer_A 3 (LocalDate 2025 0); offer_A 7 (LocalDate 2025 1)].

(** A client whose second page fails. *)
Definition failing_second_page : client nat string :=
  fun _ from _ =>
    if (from =? 0)%Z
    then {| data := Some [1%nat; 2%nat]; error := None |}
    else {| data := None; error := Some "timeout" |}.

(** The object literals [{branch: "ENG", total: 5}] and
    [{branch: "SCI", total: 9}]: aggregates with no other member. *)
Record BranchTotal : Type := { branch : string; total : nat }.

#[export] Instance BranchTotal_Aggregate : Aggregate BranchTotal := {|
  member_company := fun _ => None;
  member_branch := fun d => Some (branch d);
  member_ctcRange := fun _ => None;
  member_total := total;
  member_avg := fun _ => None;
  member_median := fun _ => None
|}.

Definition ENG : BranchTotal := {| branch := "ENG"; total := 5 |}.
Definition SCI : BranchTotal := {| branch := "SCI"; total := 9 |}.

Definition searching (term : string) : View :=
  {| search := term; sortBy := "students"; selectedRange := "all" |}.

(** Three company records and a view that sorts them by average. *)
Definition company_record (name : string) (n : nat) (range : string)
  : CompanyStat.t :=
  {| CompanyStat.company := name;
     CompanyStat.total := n;
     CompanyStat.month := "Jan 2025";
     CompanyStat.ctc := Fin 0;
     CompanyStat.ctcRange := range |}.

Definition three_companies : list CompanyStat.t :=
  [company_record "Acme" 1 "5-10"; company_record "Zeta" 7 "<5";
   company_record "Apex" 3 "5-10"].

Definition by_average : View :=
  {| search := "a"; sortBy := "avg"; selectedRange := "5-10" |}.

End Examples.

(* ================================================================== *)
(** * The rest of the page *)
(* ================================================================== *)

(** A row of the table [Campus_Data], as far as the page reads it; a
    [null] cell is [None]. *)
Module CampusRow.
Record t : Type := {
  Campus : option string;
  Students : option Z
}.
End CampusRow.

Module CampusStat.
Record t : Type := {
  campus : option string;
  students : option Z
}.
End CampusStat.

Module Home.
Import Js Aggregator BulkFetcher.

(** ** The effect that loads the data *)

Section FetchData.
(** The rows the client hands out, and what the page reads of a row of
    [Campus_Data]. *)
Variables Row Err : Type.
Variable as_campus : Row -> CampusRow.t.

(** The state the effect writes: [placements], [campusStats] and
    [loading]. *)
Record Loaded : Type := {
  placements : list Row;
  campusStats : list CampusStat.t;
  loading : bool
}.

(** [useState([])], [useState([])], [useState(true)] *)
Definition initial : Loaded :=
  {| placements := []; campusStats := []; loading := true |}.

(** [campuses.map((row) => ({ campus: row.Campus, students: row.Students }))] *)
Definition stats_of (campuses : list Row) : list CampusStat.t :=
  map (fun row => {| CampusStat.campus := CampusRow.Campus (as_campus row);
                     CampusStat.students := CampusRow.Students (as_campus row) |})
      campuses.

(** [fetchData], once each of the two fetches has been allowed [fuel]
    requests.  [Promise.all] is fulfilled when both fetches have
    returned and rejected as soon as one has thrown; [catch] only logs
    the error; [finally] ends the loading.  While neither has happened
    the state is the initial one. *)
Definition fetchData (fuel : nat) (supabase : client Row Err) : Loaded :=
  match snd (fetchAllRows fuel supabase "Offer" None),
        snd (fetchAllRows fuel supabase "Campus_Data" None) with
  | Some (Normal offers), Some (Normal campuses) =>
      {| placements := offers;
         campusStats := stats_of campuses;
         loading := false |}
  | Some (Throw _), _ | _, Some (Throw _) =>
      {| placements := []; campusStats := []; loading := false |}
  | _, _ => initial
  end.
End FetchData.

(** ** What the views compute from the aggregates *)

(** [placements.map((p) => Number(p.ctc) || 0)], the values of the
    overall statistics. *)
Definition overall_values (placements : list Offer.t) : list number :=
  map (fun p => or_zero (Offer.ctc p)) placements.

(** [calcStats(ctcValues)] of the overall view. *)
Definition overall_stats {B : Binary64} (placements : list Offer.t) : Stats :=
  calcStats (Some (overall_values placements)).

(** [placements.filter((p) => p.company === c.company)] of a company
    card. *)
Definition companyPlacements (placements : list Offer.t) (c : CompanyStat.t)
  : list Offer.t :=
  filter (fun p => strict_equal (Offer.company p) (CompanyStat.company c))
         placements.

(** [placements.filter((p) => getBranch(p.reg_no) === b.branch)] of a
    branch card. *)
Definition branchPlacements (placements : list Offer.t) (b : BranchStat.t)
  : list Offer.t :=
  filter (fun p => getBranch (Offer.reg_no p) =? BranchStat.branch b)
         placements.

(** [value.slice(0, 10)]: the first ten code units, or all of them. *)
Definition slice_0_10 (value : string) : string :=
  String.substring 0 (Nat.min 10 (String.length value)) value.

(** The [tickFormatter] of the company chart; [ellipsis] is the code
    unit U+2026. *)
Definition tickFormatter (ellipsis : ascii) (value : string) : string :=
  if (10 <? String.length value)%nat
  then (slice_0_10 value ++ String ellipsis EmptyString)%string
  else value.

End Home.

(* ================================================================== *)
(** * Binary64 arithmetic *)
(* ================================================================== *)

(** The operations of [Binary64] as the language defines them: IEEE 754
    binary64 with round to nearest, ties to even, taken from the
    standard library ([SpecFloat], precision 53, [emax] 1024). *)
Module Ieee754.
Import Js.

Definition prec : Z := 53.
Definition emax : Z := 1024.

(** The number a binary64 value stands for. *)
Definition to_number (f : SpecFloat.spec_float) : number :=
  match f with
  | SpecFloat.S754_zero _ => Fin 0
  | SpecFloat.S754_infinity false => PosInf
  | SpecFloat.S754_infinity true => NegInf
  | SpecFloat.S754_nan => NaN
  | SpecFloat.S754_finite s m e =>
      let z := if s then Zneg m else Zpos m in
      match e with
      | Zneg k => Fin (z # (2 ^ k)%positive)
      | _ => Fin (inject_Z (z * 2 ^ e))
      end
  end.

(** An integer, exactly. *)
Definition of_Z (z : Z) : SpecFloat.spec_float :=
  match z with
  | Z0 => SpecFloat.S754_zero false
  | Zpos m => SpecFloat.S754_finite false m 0
  | Zneg m => SpecFloat.S754_finite true m 0
  end.

(** The binary64 value nearest to a rational: the correctly rounded
    quotient of its numerator by its denominator.  On a rational that
    is a binary64 value this is the value itself. *)
Definition nearest (q : Q) : SpecFloat.spec_float :=
  SpecFloat.SFdiv prec emax (of_Z (Qnum q)) (of_Z (Zpos (Qden q))).

Definition of_number (n : number) : SpecFloat.spec_float :=
  match n with
  | NaN => SpecFloat.S754_nan
  | PosInf => SpecFloat.S754_infinity false
  | NegInf => SpecFloat.S754_infinity true
  | Fin q => nearest q
  end.

(** [Number("...")] on a decimal literal: the binary64 number nearest
    to it. *)
Definition literal (q : Q) : number := to_number (nearest q).

(** [x.toFixed(2)] picks the integer [n] for which [n / 100] is
    nearest to the magnitude of [x], the larger one of two, and keeps
    the sign of [x]. *)
Definition hundredths (q : Q) : Z :=
  let n := Qround.Qfloor (Qabs.Qabs q * 100 + (1 # 2))%Q in
  if Qle_bool 0 q then n else - n.

(** [Number(x.toFixed(2))]: from 10^21 on [toFixed] prints the number
    as [String] does, which reads back as the number itself; [NaN] and
    the infinities print as their names. *)
Definition toFixed2_binary64 (n : number) : number :=
  match n with
  | Fin q =>
      if Qle_bool (inject_Z (10 ^ 21)) (Qabs.Qabs q) then literal q
      else literal (hundredths q # 100)
  | _ => n
  end.

(** The arithmetic of the language. *)
Definition ieee754 : Binary64 :=
  {| add := fun a b =>
       to_number (SpecFloat.SFadd prec emax (of_number a) (of_number b));
     div := fun a b =>
       to_number (SpecFloat.SFdiv prec emax (of_number a) (of_number b));
     toFixed2 := toFixed2_binary64 |}.

End Ieee754.

(* ================================================================== *)
(** * What the rest is compared with *)
(* ================================================================== *)

Module Measures.
Import Js Aggregator BulkFetcher Reference.
Local Open Scope Z_scope.

(** The rows a request was answered with; none for [null]. *)
Definition page {Row Err : Type} (supabase : client Row Err) (rq : request)
  : list Row :=
  match data (answer supabase rq) with
  | Some d => d
  | None => []
  end.

(** The answer to a request lets the loop go on: no error, and a page
    that is not empty and not shorter than the page size. *)
Definition goes_on {Row Err : Type} (supabase : client Row Err) (cs : Z)
    (rq : request) : Prop :=
  error (answer supabase rq) = None
  /\ exists d, data (answer supabase rq) = Some d
       /\ d <> [] /\ cs <= Z.of_nat (List.length d).

(** The answer to a request ends the loop without an error: the page is
    [null], empty or shorter than the page size. *)
Definition ends_on {Row Err : Type} (supabase : client Row Err) (cs : Z)
    (rq : request) : Prop :=
  error (answer supabase rq) = None
  /\ (data (answer supabase rq) = None
      \/ exists d, data (answer supabase rq) = Some d
           /\ (d = [] \/ Z.of_nat (List.length d) < cs)).

(** The [i]-th request of a loop entered at the offset [from]. *)
Definition request_at (t : string) (cs from : Z) (i : nat) : request :=
  {| range_table := t;
     range_from := from + Z.of_nat i * cs;
     range_to := from + Z.of_nat i * cs + cs - 1 |}.

(** The elements of a list in the order of their first occurrence. *)
Fixpoint distinct {A : Type} (eq_dec : forall x y : A, {x = y} + {x <> y})
    (l : list A) : list A :=
  match l with
  | [] => []
  | a :: l' => a :: remove eq_dec a (distinct eq_dec l')
  end.

(** The branch code an offer is filed under. *)
Definition branch_of (p : Offer.t) : string := getBranch (Offer.reg_no p).

(** The offers of a branch, in input order. *)
Definition offers_in (k : string) (placements : list Offer.t)
  : list Offer.t :=
  filter (fun p => (branch_of p =? k)%string) placements.

(** The offer is named after a method of [Object.prototype]. *)
Definition is_method (p : Offer.t) : bool :=
  mem (comp p) Object_prototype_methods.

(** No method name is a key of the dictionary. *)
Definition no_method_key (s : state CompanyStat.t) : Prop :=
  forall k, mem k Object_prototype_methods = true -> get_own (snd s) k = None.

(** The offer has no company, or an empty one. *)
Definition missing_company (p : Offer.t) : bool :=
  match Offer.company p with
  | None => true
  | Some s => negb (truthy_string s)
  end.

(** The place of a bucket in the ladder. *)
Definition bucket_rank (label : string) : nat :=
  if (label =? "<5")%string then 0
  else if (label =? "5-10")%string then 1
  else if (label =? "10-15")%string then 2
  else if (label =? "15-20")%string then 3
  else if (label =? "20+")%string then 4
  else 5.

(** How many of the values are at most, respectively at least, [x]. *)
Definition count_le (x : number) (l : list number) : nat :=
  List.length (filter (fun v => ge x v) l).

Definition count_ge (x : number) (l : list number) : nat :=
  List.length (filter (fun v => ge v x) l).

(** [a] has the same sort key as [x]. *)
Definition tied {A : Type} (key : A -> number) (x a : A) : bool :=
  ge (key a) (key x) && ge (key x) (key a).

(** Offers to run the properties on. *)
Definition offer_of (company reg_no : option string) (ctc : Q)
    (created_at : Date) : Offer.t :=
  {| Offer.reg_no := reg_no;
     Offer.company := company;
     Offer.ctc := Fin ctc;
     Offer.created_at := created_at |}.

Definition mixed_offers : list Offer.t :=
  [ offer_of (Some "Acme") (Some "21BCE1001") 12 (LocalDate 2025 6);
    offer_of (Some "constructor") (Some "21BEC1002") 7 (LocalDate 2025 6);
    offer_of None (Some "21BCE1003") 4 (LocalDate 2025 7);
    offer_of (Some "Acme") None 30 (LocalDate 2024 6);
    offer_of (Some "Unknown") (Some "21") 0 InvalidDate ].

Definition named_offers : list Offer.t :=
  [ offer_of (Some "Acme") (Some "21BCE1001") 12 (LocalDate 2025 6);
    offer_of None (Some "21BCE1003") 4 (LocalDate 2025 7);
    offer_of (Some "Acme") None 30 (LocalDate 2024 6);
    offer_of (Some "Unknown") (Some "21") 0 InvalidDate ].

(** The middle element of a sequence in ascending order, or the mean
    of the two middle elements when their number is even. *)
Definition middle_value {B : Binary64} (sorted : list number) : number :=
  let n := List.length sorted in
  if (n mod 2 =? 0)%nat
  then div (add (nth (n / 2 - 1) sorted NaN) (nth (n / 2) sorted NaN))
           (Fin 2)
  else nth (n / 2)%nat sorted NaN.

(** The arithmetic mean of rationals, and a rational rounded to two
    decimal digits (a half rounding up). *)
Definition exact_mean (l : list Q) : Q :=
  (fold_right Qplus 0 l / inject_Z (Z.of_nat (List.length l)))%Q.

Definition to_2_digits (q : Q) : Q :=
  Qround.Qfloor (q * 100 + (1 # 2))%Q # 100.

(** The binary64 numbers that the literals [0.01] and [0.02] denote. *)
Definition q001 : Q := 5764607523034235 # 576460752303423488.
Definition q002 : Q := 5764607523034235 # 288230376151711744.

(** An average or a median as the sort counts it: one that is absent
    or [NaN] counts as 0. *)
Definition number_or_zero (x : option number) : number :=
  match x with
  | Some (Fin q) => Fin q
  | Some PosInf => PosInf
  | Some NegInf => NegInf
  | Some NaN | None => Fin 0
  end.

(** What the sort modes name: the count, the average, the median. *)
Definition rank {A : Type} {Agg : Aggregate A} (view : View) (d : A)
  : number :=
  if (sortBy view =? "students")%string then of_nat (member_total d)
  else if (sortBy view =? "avg")%string then number_or_zero (member_avg d)
  else number_or_zero (member_median d).

(** Two numbers of the same value. *)
Definition same_value (a b : number) : Prop :=
  match a, b with
  | Fin p, Fin q => (p == q)%Q
  | NaN, NaN | PosInf, PosInf | NegInf, NegInf => True
  | _, _ => False
  end.

(** Four branch aggregates, one of them without a readable average,
    and the views that sort them. *)
Definition branch_stat (name : string) (n : nat) (avg median : number)
  : BranchStat.t :=
  {| BranchStat.branch := name;
     BranchStat.total := n;
     BranchStat.ctcValues := [];
     BranchStat.avg := avg;
     BranchStat.median := median |}.

Definition four_stats : list BranchStat.t :=
  [ branch_stat "CIV" 4 NaN (Fin 0);
    branch_stat "CSE" 2 (Fin 3) (Fin 30);
    branch_stat "ECE" 5 (Fin 40) (Fin 10);
    branch_stat "MEC" 1 (Fin 12) (Fin 20) ].

Definition sorting (mode : string) : View :=
  {| search := ""; sortBy := mode; selectedRange := "all" |}.

(** Two branch aggregates of five students and one of nine. *)
Definition three_branches : list Examples.BranchTotal :=
  [ Examples.ENG; Examples.SCI;
    {| Examples.branch := "MEC"; Examples.total := 5 |} ].

(** A client that serves a full first page of every table and fails
    on every later request. *)
Definition failing_later_page : client nat string :=
  fun _ from _ =>
    if from =? 0
    then {| data := Some (seq 0 1000); error := None |}
    else {| data := None; error := Some "timeout" |}.

(** A client that answers every request with the same two rows. *)
Definition endless : client nat string :=
  fun _ _ _ => {| data := Some [1%nat; 2%nat]; error := None |}.

End Measures.

(* ================================================================== *)
(** * Properties of the language fragment *)
(* ================================================================== *)

Module JsFacts.
Import Js Reference.

(** ** Loops *)

Lemma bind_Normal {E A B : Type} (c : completion E A)
    (k : A -> completion E B) (b : B) :
  bind c k = Normal b -> exists a, c = Normal a /\ k a = Normal b.
Proof.
  destruct c as [a|e]; simpl; [|discriminate]. intros H. now exists a.
Qed.

Lemma forEach_app {S A : Type} (body : S -> A -> completion error S)
    (l1 l2 : list A) (s : S) :
  forEach body (l1 ++ l2) s = bind (forEach body l1 s) (forEach body l2).
Proof.
  revert s. induction l1 as [|a l1 IH]; intros s; simpl.
  - reflexivity.
  - destruct (body s a); simpl; auto.
Qed.

(** A loop whose body preserves an invariant preserves it. *)
Lemma forEach_invariant {S A : Type} (body : S -> A -> completion error S)
    (Inv : S -> Prop) :
  (forall s a s', Inv s -> body s a = Normal s' -> Inv s') ->
  forall l s s', Inv s -> forEach body l s = Normal s' -> Inv s'.
Proof.
  intros Hbody. induction l as [|a l IH]; intros s s' Hs Hrun; simpl in Hrun.
  - now injection Hrun as <-.
  - destruct (body s a) as [s1|e] eqn:Hstep; simpl in Hrun; [|discriminate].
    eapply IH; [|exact Hrun]. eapply Hbody; eauto.
Qed.

Lemma filter_throwing_total {A : Type} (pred : A -> completion error bool)
    (f : A -> bool) (l : list A) :
  (forall a, In a l -> pred a = Normal (f a)) ->
  filter_throwing pred l = Normal (filter f l).
Proof.
  induction l as [|a l IH]; intros H; simpl.
  - reflexivity.
  - rewrite (H a) by now left. simpl.
    rewrite IH by (intros; apply H; now right). reflexivity.
Qed.

(** ** Numbers and sorting *)

Lemma Qltb_true (x y : Q) : Qltb x y = true <-> (x < y)%Q.
Proof.
  unfold Qltb. rewrite negb_true_iff. split; intro H.
  - apply Qnot_le_lt. intro Hle. apply Qle_bool_iff in Hle. congruence.
  - destruct (Qle_bool y x) eqn:E; [|reflexivity].
    apply Qle_bool_iff in E. exfalso. apply (Qlt_not_le _ _ H E).
Qed.

Lemma Qltb_false (x y : Q) : Qltb x y = false <-> (y <= x)%Q.
Proof. unfold Qltb. rewrite negb_false_iff. apply Qle_bool_iff. Qed.

(** The sign of a difference is the comparison of its operands. *)
Lemma lt_zero_sub (x y : number) :
  lt (Fin 0) (sub y x) = lt x y.
Proof.
  destruct x as [| | |x], y as [| | |y]; try reflexivity.
  simpl. destruct (Qltb x y) eqn:E.
  - apply Qltb_true in E. apply Qltb_true. lra.
  - apply Qltb_false in E. apply Qltb_false. lra.
Qed.

Lemma ge_trans (a b c : number) :
  ge a b = true -> ge b c = true ->
  ge a c = true.
Proof.
  destruct a as [| | |a], b as [| | |b], c as [| | |c];
    simpl; try discriminate; try reflexivity.
  rewrite !negb_true_iff, !Qltb_false. intros; lra.
Qed.

Lemma not_lt_ge (a b : number) :
  a <> NaN -> b <> NaN -> lt a b = false -> ge a b = true.
Proof.
  destruct a, b; simpl; try congruence; intros _ _ ->; reflexivity.
Qed.

Lemma lt_ge (a b : number) : lt a b = true -> ge b a = true.
Proof.
  destruct a as [| | |a], b as [| | |b]; simpl; try discriminate;
    try reflexivity.
  rewrite negb_true_iff, Qltb_true, Qltb_false. intros; lra.
Qed.

Section Sorting.
Variable A : Type.

Lemma insert_Permutation (cmp : A -> A -> number) (x : A) (l : list A) :
  Permutation (insert cmp x l) (x :: l).
Proof.
  induction l as [|y l IH]; simpl.
  - reflexivity.
  - destruct (after cmp x y).
    + rewrite IH. apply perm_swap.
    + reflexivity.
Qed.

Lemma sort_Permutation (cmp : A -> A -> number) (l : list A) :
  Permutation (sort cmp l) l.
Proof.
  induction l as [|x l IH]; simpl.
  - reflexivity.
  - rewrite insert_Permutation. now constructor.
Qed.

(** Under a comparator that never puts an element after another, the
    stable sort leaves the list as it is. *)
Lemma sort_all_ties (cmp : A -> A -> number) (l : list A) :
  (forall a b, after cmp a b = false) -> sort cmp l = l.
Proof.
  intros Hties. induction l as [|x l IH]; simpl.
  - reflexivity.
  - rewrite IH. destruct l as [|y l]; simpl; [reflexivity|].
    now rewrite Hties.
Qed.

(** Sorting by the difference of a numeric key, larger keys first. *)
Section Descending.
Variable key : A -> number.
Hypothesis key_number : forall a, key a <> NaN.

Lemma after_descending (a b : A) :
  after (fun a b => sub (key b) (key a)) a b = lt (key a) (key b).
Proof. unfold after. apply lt_zero_sub. Qed.

Lemma insert_descending (x : A) (l : list A) :
  StronglySorted (fun a b => ge (key a) (key b) = true) l ->
  StronglySorted (fun a b => ge (key a) (key b) = true)
                 (insert (fun a b => sub (key b) (key a)) x l).
Proof.
  induction 1 as [|y l Hl IH Hy]; simpl.
  - repeat constructor.
  - rewrite after_descending. destruct (lt (key x) (key y)) eqn:E.
    + constructor; [exact IH|].
      apply (Permutation_Forall
               (Permutation_sym (insert_Permutation _ x l))).
      constructor; [|exact Hy]. now apply lt_ge.
    + assert (Hxy : ge (key x) (key y) = true) by (apply not_lt_ge; auto).
      constructor; [now constructor|].
      constructor; [exact Hxy|].
      eapply Forall_impl; [|exact Hy].
      intros z Hz. now apply (ge_trans _ (key y)).
Qed.

Lemma sort_descending (l : list A) :
  StronglySorted (fun a b => ge (key a) (key b) = true)
                 (sort (fun a b => sub (key b) (key a)) l).
Proof.
  induction l as [|x l IH]; simpl.
  - constructor.
  - now apply insert_descending.
Qed.
End Descending.
End Sorting.

(** ** Strings *)

Lemma prefix_append (sub s : string) :
  String.prefix sub s = true <-> exists post, s = (sub ++ post)%string.
Proof.
  revert s. induction sub as [|c sub IH]; intros s; simpl.
  - destruct s; split; eauto.
  - destruct s as [|c' s]; simpl.
    + split; [discriminate|]. intros [post H]. discriminate.
    + destruct (ascii_dec c c') as [->|Hne].
      * rewrite IH. split; intros [post H]; exists post.
        -- now rewrite H.
        -- now injection H.
      * split; [discriminate|]. intros [post H]. injection H as Hc _.
        congruence.
Qed.

Lemma includes_contains (s sub : string) :
  includes s sub = true <-> contains s sub.
Proof.
  unfold contains. induction s as [|c s IH]; cbn [includes].
  - rewrite orb_false_r, prefix_append. split.
    + intros [post H]. now exists "", post.
    + intros (pre & post & H). destruct pre; simpl in H; [|discriminate].
      now exists post.
  - rewrite orb_true_iff, prefix_append, IH. split.
    + intros [[post H]|(pre & post & H)].
      * now exists "", post.
      * exists (String c pre), post. simpl. now rewrite H.
    + intros (pre & post & H). destruct pre as [|c' pre]; simpl in H.
      * left. now exists post.
      * right. injection H as _ H. now exists pre, post.
Qed.

(** ** Dictionaries *)

Section Objects.
Variable R : Type.
Implicit Types (o : properties R) (k : string) (r : R).

Lemma get_own_set_own_same o k r : get_own (set_own o k r) k = Some r.
Proof.
  induction o as [|[k' r'] o IH]; simpl.
  - now rewrite String.eqb_refl.
  - destruct (k' =? k) eqn:E; simpl; rewrite E; auto.
Qed.

Lemma get_own_set_own_other o k k' r :
  k <> k' -> get_own (set_own o k r) k' = get_own o k'.
Proof.
  intros Hne. induction o as [|[k0 r0] o IH]; simpl.
  - destruct (String.eqb_spec k k'); congruence.
  - destruct (String.eqb_spec k0 k) as [->|Hk]; simpl.
    + destruct (String.eqb_spec k k'); congruence.
    + now rewrite IH.
Qed.

Lemma get_own_set_own o k k' r :
  get_own (set_own o k r) k' = if k =? k' then Some r else get_own o k'.
Proof.
  destruct (String.eqb_spec k k') as [<-|Hne].
  - apply get_own_set_own_same.
  - now apply get_own_set_own_other.
Qed.

Lemma get_own_In o k r : get_own o k = Some r -> In (k, r) o.
Proof.
  induction o as [|[k' r'] o IH]; simpl; [discriminate|].
  destruct (String.eqb_spec k' k) as [->|Hne].
  - intros [= ->]. now left.
  - intros H. right. auto.
Qed.

Lemma get_own_None o k : get_own o k = None <-> ~ In k (map fst o).
Proof.
  induction o as [|[k' r'] o IH]; simpl.
  - tauto.
  - destruct (String.eqb_spec k' k) as [->|Hne].
    + split; [discriminate|]. intros H. exfalso. apply H. now left.
    + rewrite IH. tauto.
Qed.

Lemma In_get_own o k r :
  NoDup (map fst o) -> In (k, r) o -> get_own o k = Some r.
Proof.
  induction o as [|[k' r'] o IH]; simpl; intros Hnd Hin; [easy|].
  apply NoDup_cons_iff in Hnd as [Hnotin Hnd].
  destruct Hin as [[= -> ->]|Hin].
  - now rewrite String.eqb_refl.
  - destruct (String.eqb_spec k' k) as [->|Hne]; [|auto].
    exfalso. apply Hnotin. apply (in_map fst) in Hin. exact Hin.
Qed.

Lemma keys_set_own o k r :
  map fst (set_own o k r)
  = match get_own o k with
    | Some _ => map fst o
    | None => map fst o ++ [k]
    end.
Proof.
  induction o as [|[k' r'] o IH]; simpl.
  - reflexivity.
  - destruct (String.eqb_spec k' k) as [->|Hne]; simpl.
    + reflexivity.
    + rewrite IH. now destruct (get_own o k).
Qed.

Lemma NoDup_set_own o k r :
  NoDup (map fst o) -> NoDup (map fst (set_own o k r)).
Proof.
  intros Hnd. rewrite keys_set_own.
  destruct (get_own o k) eqn:E; [assumption|].
  apply get_own_None in E.
  apply NoDup_rev in Hnd. rewrite <- (rev_involutive (map fst o ++ [k])).
  apply NoDup_rev. rewrite rev_app_distr. simpl.
  constructor; [now rewrite <- in_rev|assumption].
Qed.

Lemma In_set_own o k r k' r' :
  In (k', r') (set_own o k r) -> (k' = k /\ r' = r) \/ In (k', r') o.
Proof.
  induction o as [|[k0 r0] o IH]; simpl.
  - intros [[= <- <-]|[]]. now left.
  - destruct (String.eqb_spec k0 k) as [->|Hne]; simpl.
    + intros [[= <- <-]|Hin]; [now left|right; now right].
    + intros [Heq|Hin]; [right; now left|].
      destruct (IH Hin); [now left|right; now right].
Qed.

Lemma set_own_set_own o k r r' :
  set_own (set_own o k r) k r' = set_own o k r'.
Proof.
  induction o as [|[k0 r0] o IH]; simpl.
  - now rewrite String.eqb_refl.
  - destruct (String.eqb_spec k0 k) as [->|Hne]; simpl.
    + now rewrite String.eqb_refl.
    + destruct (String.eqb_spec k0 k); [contradiction|]. now rewrite IH.
Qed.

(** Every record of a dictionary sits under its own name. *)
Section Keyed.
Variable name : R -> string.

Lemma well_keyed_nil : well_keyed name [].
Proof. split; [constructor|intros ? ? []]. Qed.

Lemma well_keyed_set_own o k r :
  well_keyed name o -> name r = k -> well_keyed name (set_own o k r).
Proof.
  intros [Hnd Hname] Hr. split.
  - now apply NoDup_set_own.
  - intros k' r' Hin. apply In_set_own in Hin as [[-> ->]|Hin]; auto.
Qed.

Lemma well_keyed_names o :
  well_keyed name o -> map name (map snd o) = map fst o.
Proof.
  intros [_ Hname]. induction o as [|[k r] o IH]; simpl.
  - reflexivity.
  - rewrite (Hname k r) by now left.
    rewrite IH; [reflexivity|]. intros k' r' Hin. apply Hname. now right.
Qed.
End Keyed.

(** [Object.values] lists every own value once. *)
Lemma insert_index_Permutation (x : N * R) (l : list (N * R)) :
  Permutation (insert_index x l) (x :: l).
Proof.
  induction l as [|y l IH]; simpl.
  - reflexivity.
  - destruct (fst y <? fst x)%N.
    + rewrite IH. apply perm_swap.
    + reflexivity.
Qed.

Lemma values_Permutation o : Permutation (values o) (map snd o).
Proof.
  unfold values. induction o as [|[k r] o IH]; simpl.
  - reflexivity.
  - destruct (array_index k).
    + rewrite insert_index_Permutation. simpl. now constructor.
    + rewrite <- Permutation_middle. now constructor.
Qed.

Lemma In_values o r : In r (values o) <-> exists k, In (k, r) o.
Proof.
  split.
  - intros Hin. apply (Permutation_in _ (values_Permutation o)) in Hin.
    apply in_map_iff in Hin as [[k r'] [<- Hin]]. now exists k.
  - intros [k Hin].
    apply (Permutation_in _ (Permutation_sym (values_Permutation o))).
    apply in_map_iff. now exists (k, r).
Qed.

Lemma values_names (name : R -> string) o :
  well_keyed name o -> Permutation (map name (values o)) (map fst o).
Proof.
  intros Hk. rewrite <- (well_keyed_names Hk).
  apply Permutation_map, values_Permutation.
Qed.

Lemma values_named_only o :
  (forall k, In k (map fst o) -> array_index k = None) ->
  values o = map snd o.
Proof.
  unfold values. induction o as [|[k r] o IH]; simpl; intros H.
  - reflexivity.
  - rewrite (H k) by now left.
    assert (Hrest : forall k', In k' (map fst o) -> array_index k' = None)
      by (intros; apply H; now right).
    specialize (IH Hrest).
    destruct (indexed o) eqn:E; simpl in *; [now rewrite IH|].
    exfalso. clear - E Hrest.
    induction o as [|[k' r'] o IH]; simpl in *; [discriminate|].
    rewrite (Hrest k') in E by now left. apply IH; auto.
Qed.
End Objects.

(** ** Reading and writing through [stats[k]] *)

Section Access.
Variable R : Type.
Implicit Types (s : state R) (k : string) (r : R).

Lemma assign_own s k r f g :
  get_own (snd s) k = Some r ->
  assign s k f g = Normal (fst s, set_own (snd s) k (f r)).
Proof. intros H. unfold assign, get. now rewrite H. Qed.

Lemma modify_own s k r f :
  get_own (snd s) k = Some r ->
  modify s k f = Normal (fst s, set_own (snd s) k (f r)).
Proof. intros H. unfold modify, get. now rewrite H. Qed.

Lemma ensure_usable s k fresh :
  usable s k ->
  fst (ensure s k fresh) = fst s /\
  get_own (snd (ensure s k fresh)) k
  = Some (or_fresh (get_own (snd s) k) fresh) /\
  forall r', set_own (snd (ensure s k fresh)) k r' = set_own (snd s) k r'.
Proof.
  intros Hu. unfold ensure, get.
  destruct (get_own (snd s) k) as [r|] eqn:E; simpl.
  - now rewrite E.
  - destruct Hu as [Hu|Hu]; [congruence|]. rewrite Hu. simpl.
    repeat split.
    + apply get_own_set_own_same.
    + intros r'. now rewrite set_own_set_own.
Qed.

(** The statement pair [if (!stats[k]) stats[k] = fresh;
    stats[k].member = v] on a usable key. *)
Lemma ensure_assign s k fresh f g :
  usable s k ->
  assign (ensure s k fresh) k f g
  = Normal (fst s,
            set_own (snd s) k (f (or_fresh (get_own (snd s) k) fresh))).
Proof.
  intros Hu. destruct (ensure_usable fresh Hu) as (Hp & Hget & Hset).
  erewrite assign_own by exact Hget. now rewrite Hp, Hset.
Qed.

Lemma ensure_other s k k' fresh :
  k <> k' ->
  get_own (snd (ensure s k fresh)) k' = get_own (snd s) k'.
Proof.
  intros Hne. unfold ensure. destruct (truthy (get s k)); simpl; auto.
  now apply get_own_set_own_other.
Qed.

Lemma assign_other s s' k k' f g :
  assign s k f g = Normal s' -> k <> k' ->
  get_own (snd s') k' = get_own (snd s) k'.
Proof.
  unfold assign. intros H Hne.
  destruct (get s k); try discriminate; injection H as <-; simpl; auto.
  now apply get_own_set_own_other.
Qed.

Lemma modify_other s s' k k' f :
  modify s k f = Normal s' -> k <> k' ->
  get_own (snd s') k' = get_own (snd s) k'.
Proof.
  unfold modify. intros H Hne.
  destruct (get s k); try discriminate; injection H as <-; simpl.
  now apply get_own_set_own_other.
Qed.

Lemma inherited_not_Own pr k r : @inherited R pr k <> Own r.
Proof.
  unfold inherited.
  repeat match goal with
         | |- context [if ?b then _ else _] => destruct b
         | |- context [match ?x with Some _ => _ | None => _ end] =>
             destruct x
         end; discriminate.
Qed.

Section Keyed.
Variable name : R -> string.

Lemma ensure_keyed s k fresh :
  well_keyed name (snd s) -> name fresh = k ->
  well_keyed name (snd (ensure s k fresh)).
Proof.
  intros Hk Hname. unfold ensure. destruct (truthy (get s k)); simpl; auto.
  now apply well_keyed_set_own.
Qed.

Lemma assign_keyed s s' k f g :
  well_keyed name (snd s) -> (forall r, name (f r) = name r) ->
  assign s k f g = Normal s' -> well_keyed name (snd s').
Proof.
  intros Hk Hf. unfold assign, get.
  destruct (get_own (snd s) k) as [r|] eqn:E.
  - intros [= <-]. simpl. apply well_keyed_set_own; [assumption|].
    rewrite Hf. apply (proj2 Hk). now apply get_own_In.
  - destruct (inherited R (fst s) k) eqn:Hi; try discriminate;
      intros [= <-]; simpl; try assumption.
    now apply inherited_not_Own in Hi.
Qed.

Lemma modify_keyed s s' k f :
  well_keyed name (snd s) -> (forall r, name (f r) = name r) ->
  modify s k f = Normal s' -> well_keyed name (snd s').
Proof.
  intros Hk Hf. unfold modify, get.
  destruct (get_own (snd s) k) as [r|] eqn:E.
  - intros [= <-]. simpl. apply well_keyed_set_own; [assumption|].
    rewrite Hf. apply (proj2 Hk). now apply get_own_In.
  - destruct (inherited R (fst s) k) eqn:Hi; try discriminate.
    now apply inherited_not_Own in Hi.
Qed.
End Keyed.

Lemma inherited_Undefined pr k :
  ~ In k reserved -> @inherited R pr k = Undefined.
Proof.
  intros Hk. unfold inherited.
  assert (Hne : forall x, In x reserved -> (k =? x) = false).
  { intros x Hx. apply String.eqb_neq. intros ->. contradiction. }
  rewrite (Hne "__proto__") by (simpl; auto).
  assert (Hm : mem k Object_prototype_methods = false).
  { unfold mem. apply not_true_is_false. intros Hin.
    apply existsb_exists in Hin as [x [Hx Heq]].
    rewrite Hne in Heq; [discriminate|].
    unfold reserved, Object_prototype_names. apply in_or_app. left.
    now right. }
  rewrite Hm.
  rewrite (Hne "total"), (Hne "ctc"), (Hne "ctcRange")
    by (unfold reserved; apply in_or_app; right; simpl; auto).
  reflexivity.
Qed.

Lemma inherited_pristine k :
  ~ In k Object_prototype_names -> @inherited R pristine k = Undefined.
Proof.
  intros Hk. unfold inherited.
  destruct (String.eqb_spec k "__proto__") as [->|_].
  { exfalso. apply Hk. now left. }
  destruct (mem k Object_prototype_methods) eqn:Hm.
  { exfalso. apply Hk. right. unfold mem in Hm.
    apply existsb_exists in Hm as [x [Hx Heq]].
    apply String.eqb_eq in Heq. now subst. }
  simpl. now repeat destruct (k =? _).
Qed.
End Access.

End JsFacts.

(* ================================================================== *)
(** * Properties of the scalar helpers *)
(* ================================================================== *)

Module HelpersFacts.
Import Js JsFacts Aggregator.

(** The ladder on a finite value, one rung at a time. *)
Lemma getCtcRange_Fin (c : Q) :
  getCtcRange (Fin c) =
  if Qltb c 5 then "<5"
  else if Qltb c 10 then "5-10"
  else if Qltb c 15 then "10-15"
  else if Qltb c 20 then "15-20"
  else if Qltb c 30 then "20+"
  else "30+".
Proof. reflexivity. Qed.

Ltac rung c k :=
  let E := fresh "E" in
  destruct (Qltb c k) eqn:E;
  [apply Qltb_true in E | apply Qltb_false in E].

(** C3.  [getCtcRange] is total on finite numbers, its value is one of
    the six bucket labels, and the buckets are the first-match ladder:
    below 5 (every negative value included) "<5"; [5,10) "5-10";
    [10,15) "10-15"; [15,20) "15-20"; [20,30) "20+"; from 30 on "30+".
    The label "20+" is produced exactly on [20,30). *)
Theorem getCtcRange_ladder (c : Q) :
  In (getCtcRange (Fin c)) ["<5"; "5-10"; "10-15"; "15-20"; "20+"; "30+"] /\
  ((c < 5)%Q -> getCtcRange (Fin c) = "<5") /\
  ((c < 0)%Q -> getCtcRange (Fin c) = "<5") /\
  ((5 <= c)%Q /\ (c < 10)%Q -> getCtcRange (Fin c) = "5-10") /\
  ((10 <= c)%Q /\ (c < 15)%Q -> getCtcRange (Fin c) = "10-15") /\
  ((15 <= c)%Q /\ (c < 20)%Q -> getCtcRange (Fin c) = "15-20") /\
  ((20 <= c)%Q /\ (c < 30)%Q -> getCtcRange (Fin c) = "20+") /\
  ((30 <= c)%Q -> getCtcRange (Fin c) = "30+") /\
  (getCtcRange (Fin c) = "20+" <-> (20 <= c)%Q /\ (c < 30)%Q).
Proof.
  rewrite getCtcRange_Fin.
  rung c 5%Q; [|rung c 10%Q; [|rung c 15%Q; [|rung c 20%Q; [|rung c 30%Q]]]];
    repeat split; intros; simpl; auto 10;
    try discriminate; try lra.
Qed.

(** ** [calcStats] *)

(** Without values there is nothing to divide: both statistics are 0. *)
Lemma calcStats_empty {B : Binary64} :
  calcStats None = {| avg := Fin 0; median := Fin 0 |}
  /\ calcStats (Some []) = {| avg := Fin 0; median := Fin 0 |}.
Proof. split; reflexivity. Qed.

(** ** [getBranch] *)

Lemma get_beyond (s : string) (n : nat) :
  String.length s <= n -> String.get n s = None.
Proof.
  revert n. induction s as [|c s IH]; intros n Hn; simpl in *.
  - reflexivity.
  - destruct n as [|n]; [lia|]. apply IH. lia.
Qed.

Lemma length_substring (n m : nat) (s : string) :
  String.length (String.substring n m s) = Nat.min m (String.length s - n).
Proof.
  revert n m. induction s as [|c s IH]; intros n m.
  - destruct n, m; reflexivity.
  - destruct n as [|n]; simpl.
    + destruct m as [|m]; simpl; [reflexivity|].
      rewrite IH. now rewrite Nat.sub_0_r.
    + apply IH.
Qed.

(** The code units of [reg.substring(2, 5)]: those of [reg] at the
    positions 2, 3 and 4, as far as they exist. *)
Lemma substring_2_5 (reg : string) (i : nat) :
  String.get i (substring reg 2 5)
  = if (i <? 3)%nat then String.get (2 + i) reg else None.
Proof.
  unfold substring.
  set (len := String.length reg).
  destruct (Nat.ltb_spec i 3) as [Hi|Hi].
  - destruct (Nat.le_gt_cases len (2 + i)) as [Hshort|Hlong].
    + rewrite (get_beyond reg) by exact Hshort.
      apply substring_correct2. lia.
    + replace (Nat.min (Nat.min 2 len) (Nat.min 5 len)) with 2 by lia.
      rewrite substring_correct1 by lia. f_equal. lia.
  - apply substring_correct2. lia.
Qed.

Lemma length_substring_2_5 (reg : string) :
  String.length (substring reg 2 5) = Nat.min 3 (String.length reg - 2).
Proof. unfold substring. rewrite length_substring. lia. Qed.

(** C6, as the code has it.  On a non-empty [reg_no], [getBranch]
    returns the code units at the positions 2, 3 and 4, without looking
    at the length: a shorter [reg_no] gives a shorter or empty code.  On
    a falsy [reg_no], which is [null], [undefined] or the empty string,
    it returns the sentinel "UNK". *)
Theorem getBranch_code :
  (forall (c : ascii) (rest : string) (i : nat),
     String.get i (getBranch (Some (String c rest)))
     = if (i <? 3)%nat then String.get (2 + i) (String c rest) else None)
  /\ (forall (c : ascii) (rest : string),
        String.length (getBranch (Some (String c rest)))
        = Nat.min 3 (String.length (String c rest) - 2))
  /\ getBranch None = "UNK"
  /\ getBranch (Some "") = "UNK"
  /\ getBranch (Some "AB123CDE") = "123"
  /\ getBranch (Some "AB1") = "1"
  /\ getBranch (Some "AB") = "".
Proof.
  repeat split; intros; try reflexivity.
  - apply substring_2_5.
  - apply length_substring_2_5.
Qed.

(** The claim C6 has every [reg_no] string mapped to its code units 2
    to 4.  The empty string is a string, its code units 2 to 4 are the
    empty string, and [getBranch] maps it to "UNK". *)
Lemma getBranch_empty_counterexample :
  getBranch (Some "") = "UNK" /\ substring "" 2 5 = "".
Proof. split; reflexivity. Qed.

End HelpersFacts.

(* ================================================================== *)
(** * Properties of the month keys *)
(* ================================================================== *)

Module KeyFacts.
Import Js Aggregator Reference.

Lemma has_dash_app (a b : string) :
  has_dash (a ++ b) = has_dash a || has_dash b.
Proof.
  induction a as [|c a IH]; simpl.
  - reflexivity.
  - rewrite IH. now rewrite orb_assoc.
Qed.

Lemma string_of_uint_no_dash (d : uint) :
  has_dash (NilEmpty.string_of_uint d) = false.
Proof. induction d; simpl; auto. Qed.

Lemma toString_int_no_dash (z : Z) :
  (0 <= z)%Z -> has_dash (toString_int z) = false.
Proof.
  unfold toString_int. destruct z as [|p|p]; intros Hz; simpl.
  - reflexivity.
  - apply string_of_uint_no_dash.
  - lia.
Qed.

Lemma toString_int_inj (z z' : Z) :
  toString_int z = toString_int z' -> z = z'.
Proof.
  unfold toString_int. intros H.
  apply (f_equal NilEmpty.int_of_string) in H.
  rewrite !NilEmpty.isi in H. injection H as H.
  apply (f_equal Z.of_int) in H. now rewrite !DecimalZ.of_to in H.
Qed.

(** A key is cut at its last minus sign. *)
Lemma append_dash_inj (s1 s2 t1 t2 : string) :
  has_dash t1 = false -> has_dash t2 = false ->
  (s1 ++ "-" ++ t1 = s2 ++ "-" ++ t2)%string ->
  s1 = s2 /\ t1 = t2.
Proof.
  intros H1 H2. revert s2.
  induction s1 as [|c s1 IH]; intros [|c' s2] H; simpl in H.
  - injection H as H. now split.
  - injection H as Hc Ht. subst t1.
    rewrite has_dash_app in H1. simpl in H1.
    now rewrite orb_true_r in H1.
  - injection H as Hc Ht. subst t2.
    rewrite has_dash_app in H2. simpl in H2.
    now rewrite orb_true_r in H2.
  - injection H as Hc Ht. destruct (IH _ Ht) as [-> ->]. now subst.
Qed.

Lemma month_number_no_dash (m : nat) :
  has_dash (toString_int (Z.of_nat m + 1)) = false.
Proof. apply toString_int_no_dash. lia. Qed.

Lemma toString_int_not_NaN (z : Z) : toString_int z <> "NaN".
Proof.
  unfold toString_int. intros H.
  apply (f_equal NilEmpty.int_of_string) in H.
  rewrite NilEmpty.isi in H. discriminate.
Qed.

(** Two dates have the same key only when they have the same year and
    the same month. *)
Lemma month_key_inj (d d' : Date) : month_key d = month_key d' -> d = d'.
Proof.
  destruct d as [|y m], d' as [|y' m']; cbn [month_key]; intros H.
  - reflexivity.
  - apply append_dash_inj in H as [_ H];
      [|reflexivity|apply month_number_no_dash].
    symmetry in H. now apply toString_int_not_NaN in H.
  - apply append_dash_inj in H as [_ H];
      [|apply month_number_no_dash|reflexivity].
    now apply toString_int_not_NaN in H.
  - apply append_dash_inj in H as [Hy Hm];
      [|apply month_number_no_dash|apply month_number_no_dash].
    apply toString_int_inj in Hy, Hm. f_equal; lia.
Qed.

Lemma month_key_has_dash (d : Date) : has_dash (month_key d) = true.
Proof.
  destruct d as [|y m]; cbn [month_key]; [reflexivity|].
  rewrite has_dash_app. simpl. now rewrite orb_true_r.
Qed.

(** A key with a minus sign is no array index, and no member of
    [Object.prototype]. *)
Lemma has_dash_no_digits (k : string) :
  has_dash k = true -> NilEmpty.uint_of_string k = None.
Proof.
  induction k as [|c k IH]; simpl; [discriminate|].
  intros H. apply orb_true_iff in H as [H|H].
  - apply Ascii.eqb_eq in H. subst c.
    now destruct (NilEmpty.uint_of_string k).
  - now rewrite IH.
Qed.

Lemma has_dash_not_index (k : string) :
  has_dash k = true -> array_index k = None.
Proof.
  intros H. unfold array_index. now rewrite has_dash_no_digits.
Qed.

Lemma has_dash_not_reserved (k : string) :
  has_dash k = true -> ~ In k reserved.
Proof.
  intros H Hin. vm_compute in Hin.
  repeat (destruct Hin as [<-|Hin]; [discriminate H|]). exact Hin.
Qed.

End KeyFacts.

(* ================================================================== *)
(** * Properties of the grouping loops *)
(* ================================================================== *)

Module GroupingFacts.
Import Js JsFacts Aggregator Reference.

(** ** One key through a loop *)

Section Tracking.
Variables (P R : Type).
Variable key : P -> string.
Variable fresh : P -> R.
Variable upd : P -> R -> R.
Variable body : state R -> P -> completion error (state R).
Variable Inv : state R -> Prop.
Variable Q : P -> Prop.

Lemma forEach_total :
  (forall s p, Inv s -> Q p -> exists s', body s p = Normal s' /\ Inv s') ->
  forall ps s, Inv s -> Forall Q ps ->
    exists s', forEach body ps s = Normal s' /\ Inv s'.
Proof.
  intros Hbody. induction ps as [|p ps IH]; intros s Hs HQ; simpl.
  - now exists s.
  - inversion HQ as [|? ? Hp HQ']; subst.
    destruct (Hbody s p Hs Hp) as [s1 [-> Hs1]]. simpl. now apply IH.
Qed.

Lemma forEach_tracks (k : string) :
  (forall s p s', Inv s -> Q p -> body s p = Normal s' ->
     Inv s' /\
     get_own (snd s') k = group_step key fresh upd k (get_own (snd s) k) p) ->
  forall ps s s', Inv s -> Forall Q ps -> forEach body ps s = Normal s' ->
    Inv s' /\
    get_own (snd s') k = group_fold key fresh upd k ps (get_own (snd s) k).
Proof.
  intros Hbody. induction ps as [|p ps IH]; intros s s' Hs HQ Hrun;
    simpl in Hrun.
  - injection Hrun as <-. now split.
  - inversion HQ as [|? ? Hp HQ']; subst.
    destruct (body s p) as [s1|e] eqn:Hstep; simpl in Hrun; [|discriminate].
    destruct (Hbody s p s1 Hs Hp Hstep) as [Hs1 Hget].
    destruct (IH s1 s' Hs1 HQ' Hrun) as [Hs' Hget'].
    split; [assumption|]. rewrite Hget', Hget. reflexivity.
Qed.

Lemma fold_touch_Some (g : list P) (r : R) :
  fold_left (fun acc p => touch fresh upd p acc) g (Some r)
  = Some (fold_left (fun r p => upd p r) g r).
Proof.
  revert r. induction g as [|p g IH]; intros r; simpl.
  - reflexivity.
  - apply IH.
Qed.

Lemma group_fold_filter (k : string) (ps : list P) (acc : option R) :
  group_fold key fresh upd k ps acc
  = fold_left (fun acc p => touch fresh upd p acc)
              (filter (fun p => key p =? k) ps) acc.
Proof.
  unfold group_fold. revert acc.
  induction ps as [|p ps IH]; intros acc; simpl.
  - reflexivity.
  - unfold group_step at 2. destruct (key p =? k); simpl; apply IH.
Qed.

(** What the dictionary holds under [k] after a loop from the empty
    dictionary: nothing when no element has the key, and otherwise a
    fresh record of the first such element with every such element
    applied to it in turn. *)
Lemma group_fold_None (k : string) (ps : list P) :
  group_fold key fresh upd k ps None
  = match filter (fun p => key p =? k) ps with
    | [] => None
    | p0 :: g => Some (fold_left (fun r p => upd p r) (p0 :: g) (fresh p0))
    end.
Proof.
  rewrite group_fold_filter.
  destruct (filter (fun p => key p =? k) ps) as [|p0 g]; simpl.
  - reflexivity.
  - unfold touch at 2. apply fold_touch_Some.
Qed.
End Tracking.

(** ** [companyStats] *)

Section Company.
Variable toLocaleString : Date -> string.

(** On a usable key the body updates the record under the key, a
    fresh one at first, and leaves [Object.prototype] alone. *)
Lemma companyStats_body_usable (s : state CompanyStat.t) (p : Offer.t) :
  usable s (comp p) ->
  companyStats_body toLocaleString s p
  = Normal (fst s,
            set_own (snd s) (comp p)
              (upd_company p (or_fresh (get_own (snd s) (comp p))
                                       (fresh_company toLocaleString p)))).
Proof.
  intros Hu. unfold companyStats_body.
  rewrite (ensure_assign _ _ _ Hu). cbn [bind].
  erewrite assign_own by (cbn [snd]; apply get_own_set_own_same).
  cbn [bind fst snd].
  erewrite assign_own by (cbn [snd]; apply get_own_set_own_same).
  cbn [fst snd]. rewrite !set_own_set_own. reflexivity.
Qed.

(** The statements of the body, one after the other. *)
Lemma companyStats_body_steps (s s' : state CompanyStat.t) (p : Offer.t) :
  companyStats_body toLocaleString s p = Normal s' ->
  exists f1 g1 f2 g2 f3 g3 s1 s2,
    (forall r, CompanyStat.company (f1 r) = CompanyStat.company r) /\
    (forall r, CompanyStat.company (f2 r) = CompanyStat.company r) /\
    (forall r, CompanyStat.company (f3 r) = CompanyStat.company r) /\
    assign (ensure s (comp p) (fresh_company toLocaleString p)) (comp p)
           f1 g1 = Normal s1 /\
    assign s1 (comp p) f2 g2 = Normal s2 /\
    assign s2 (comp p) f3 g3 = Normal s'.
Proof.
  unfold companyStats_body. intros Hrun.
  apply bind_Normal in Hrun as (s1 & H1 & Hrun).
  apply bind_Normal in Hrun as (s2 & H2 & H3).
  do 6 eexists. exists s1, s2.
  split; [|split; [|split; [|split; [exact H1|split; [exact H2|exact H3]]]]];
    reflexivity.
Qed.

(** Whatever the key of [p] is, the body leaves the other keys of the
    dictionary as they are. *)
Lemma companyStats_body_other (s s' : state CompanyStat.t) (p : Offer.t)
    (k : string) :
  companyStats_body toLocaleString s p = Normal s' ->
  comp p <> k ->
  get_own (snd s') k = get_own (snd s) k.
Proof.
  intros Hrun Hne.
  apply companyStats_body_steps in Hrun
    as (f1 & g1 & f2 & g2 & f3 & g3 & s1 & s2 & _ & _ & _ & H1 & H2 & H3).
  rewrite (@assign_other _ _ _ _ _ _ _ H3 Hne),
    (@assign_other _ _ _ _ _ _ _ H2 Hne),
    (@assign_other _ _ _ _ _ _ _ H1 Hne).
  now apply ensure_other.
Qed.

(** The body keeps every record under its own company name, once. *)
Lemma companyStats_body_keyed (s s' : state CompanyStat.t) (p : Offer.t) :
  well_keyed CompanyStat.company (snd s) ->
  companyStats_body toLocaleString s p = Normal s' ->
  well_keyed CompanyStat.company (snd s').
Proof.
  intros Hk Hrun.
  apply companyStats_body_steps in Hrun
    as (f1 & g1 & f2 & g2 & f3 & g3 & s1 & s2 & Hf1 & Hf2 & Hf3
        & H1 & H2 & H3).
  eapply assign_keyed; [|exact Hf3|exact H3].
  eapply assign_keyed; [|exact Hf2|exact H2].
  eapply assign_keyed; [|exact Hf1|exact H1].
  now apply ensure_keyed.
Qed.

Lemma companyStats_scan_keyed (pr : prototype) (ps : list Offer.t)
    (s : state CompanyStat.t) :
  companyStats_scan toLocaleString pr ps = Normal s ->
  well_keyed CompanyStat.company (snd s).
Proof.
  unfold companyStats_scan.
  apply (forEach_invariant (companyStats_body toLocaleString)
           (fun s => well_keyed CompanyStat.company (snd s))).
  - intros s0 p s1. apply companyStats_body_keyed.
  - apply well_keyed_nil.
Qed.

Lemma hd_error_rev_last {A : Type} (l : list A) (d : A) :
  l <> [] -> hd_error (List.rev l) = Some (last l d).
Proof.
  intros Hl. destruct (exists_last Hl) as (l' & a & ->).
  now rewrite rev_app_distr, last_last.
Qed.

Lemma fold_upd_company (g : list Offer.t) (r : CompanyStat.t)
    (d : Offer.t) :
  g <> [] ->
  fold_left (fun r p => upd_company p r) g r
  = {| CompanyStat.company := CompanyStat.company r;
       CompanyStat.total := CompanyStat.total r + List.length g;
       CompanyStat.month := CompanyStat.month r;
       CompanyStat.ctc := or_zero (Offer.ctc (last g d));
       CompanyStat.ctcRange :=
         getCtcRange (or_zero (Offer.ctc (last g d))) |}.
Proof.
  revert r. induction g as [|p g IH]; intros r Hg; [congruence|].
  destruct g as [|p' g].
  - simpl. unfold upd_company. f_equal. lia.
  - change (fold_left (fun r p => upd_company p r) (p :: p' :: g) r)
      with (fold_left (fun r p => upd_company p r) (p' :: g)
                      (upd_company p r)).
    rewrite IH by discriminate.
    change (last (p :: p' :: g) d) with (last (p' :: g) d).
    cbn [upd_company CompanyStat.company CompanyStat.total
         CompanyStat.month List.length].
    f_equal. lia.
Qed.

(** The loop, seen at one key, computes the record of the key. *)
Lemma group_fold_company (k : string) (ps : list Offer.t) :
  group_fold comp (fresh_company toLocaleString) upd_company k ps None
  = summary toLocaleString k ps.
Proof.
  rewrite group_fold_None. unfold summary, first_offer, last_offer, count.
  fold (offers_of k ps).
  destruct (offers_of k ps) as [|p0 g] eqn:E; [reflexivity|].
  rewrite (hd_error_rev_last p0) by discriminate.
  rewrite (fold_upd_company _ p0) by discriminate.
  assert (Hk : comp p0 = k).
  { assert (Hin : In p0 (offers_of k ps)) by (rewrite E; now left).
    apply filter_In in Hin as [_ Hin]. now apply String.eqb_eq. }
  cbn [hd_error fresh_company CompanyStat.company CompanyStat.total
       CompanyStat.month]. now rewrite Hk.
Qed.

(** A key outside [reserved] is usable in every state, so the body
    treats it as the grouping asks, whatever else the offers name. *)
Lemma companyStats_body_tracks (k : string) :
  ~ In k reserved ->
  forall (s : state CompanyStat.t) (p : Offer.t) s',
    True -> True -> companyStats_body toLocaleString s p = Normal s' ->
    True /\
    get_own (snd s') k
    = group_step comp (fresh_company toLocaleString) upd_company k
                 (get_own (snd s) k) p.
Proof.
  intros Hk s p s' _ _ Hrun. split; [exact I|]. unfold group_step.
  destruct (String.eqb_spec (comp p) k) as [Heq|Hne].
  - assert (Hu : usable s (comp p)).
    { right. rewrite Heq, inherited_Undefined by assumption. reflexivity. }
    rewrite (@companyStats_body_usable s p Hu) in Hrun.
    injection Hrun as <-. cbn [snd]. rewrite Heq.
    now rewrite get_own_set_own_same.
  - now apply (@companyStats_body_other s s' p k Hrun).
Qed.

(** With [Object.prototype] untouched and no offer named after one of
    its members, every key is usable, and stays so. *)
Lemma companyStats_body_pristine (k : string)
    (s : state CompanyStat.t) (p : Offer.t) :
  fst s = pristine -> ~ In (comp p) Object_prototype_names ->
  exists s', companyStats_body toLocaleString s p = Normal s'
    /\ fst s' = pristine
    /\ get_own (snd s') k
       = group_step comp (fresh_company toLocaleString) upd_company k
                    (get_own (snd s) k) p.
Proof.
  intros Hpr Hp.
  assert (Hu : usable s (comp p)).
  { right. rewrite Hpr, inherited_pristine by assumption. reflexivity. }
  rewrite (@companyStats_body_usable s p Hu). eexists. split; [reflexivity|].
  split; [assumption|]. cbn [snd]. unfold group_step, touch.
  rewrite get_own_set_own.
  destruct (String.eqb_spec (comp p) k) as [<-|Hne]; reflexivity.
Qed.

Lemma companyStats_scan_pristine (ps : list Offer.t) :
  (forall p, In p ps -> ~ In (comp p) Object_prototype_names) ->
  exists s, companyStats_scan toLocaleString pristine ps = Normal s
    /\ forall k, get_own (snd s) k = summary toLocaleString k ps.
Proof.
  intros Hps. apply Forall_forall in Hps.
  destruct (@forEach_total _ _ (companyStats_body toLocaleString)
              (fun s => fst s = pristine)
              (fun p => ~ In (comp p) Object_prototype_names))
    with (ps := ps) (s := (pristine, @nil (string * CompanyStat.t)))
    as [s [Hrun Hs]]; auto.
  { intros s p Hs Hp.
    destruct (companyStats_body_pristine "" s p Hs Hp) as (s' & H1 & H2 & _).
    now exists s'. }
  exists s. split; [exact Hrun|]. intros k.
  rewrite <- group_fold_company.
  apply (@forEach_tracks _ _ comp (fresh_company toLocaleString) upd_company
           (companyStats_body toLocaleString)
           (fun s => fst s = pristine)
           (fun p => ~ In (comp p) Object_prototype_names) k)
    with (ps := ps) (s := (pristine, @nil (string * CompanyStat.t)));
    auto.
  intros s0 p s1 Hs0 Hp Hstep.
  destruct (companyStats_body_pristine k s0 p Hs0 Hp) as (s' & H1 & H2 & H3).
  rewrite H1 in Hstep. injection Hstep as <-. now split.
Qed.

Lemma summary_Some_iff (k : string) (ps : list Offer.t) :
  summary toLocaleString k ps <> None <-> In k (map comp ps).
Proof.
  unfold summary, first_offer, last_offer.
  split.
  - intros H. destruct (offers_of k ps) as [|p0 g] eqn:E;
      [now contradiction H|].
    assert (Hin : In p0 (offers_of k ps)) by (rewrite E; now left).
    apply filter_In in Hin as [Hin Hk]. apply String.eqb_eq in Hk.
    apply in_map_iff. now exists p0.
  - intros Hin. apply in_map_iff in Hin as (p & Hk & Hin).
    assert (Hp : In p (offers_of k ps)).
    { apply filter_In. split; [assumption|]. now apply String.eqb_eq. }
    destruct (offers_of k ps) as [|p0 g] eqn:E; [destruct Hp|].
    rewrite (hd_error_rev_last p0) by discriminate. discriminate.
Qed.
End Company.

Lemma Unknown_not_reserved : ~ In "Unknown" (reserved).
Proof. vm_compute. intuition discriminate. Qed.

Lemma comp_Unknown_iff (p : Offer.t) :
  comp p = "Unknown" <->
  Offer.company p = None \/ Offer.company p = Some "" \/
  Offer.company p = Some "Unknown".
Proof.
  unfold comp. destruct (Offer.company p) as [[|c s]|]; simpl.
  - intuition congruence.
  - split.
    + intros ->. auto.
    + intros [H|[H|H]]; congruence.
  - intuition congruence.
Qed.

(** C2, as the code has it.  With [Object.prototype] untouched and no
    offer named after one of its members, [companyStats] returns one
    record for each distinct company key of the offers, holding the
    number of offers with that key in [total], the compensation of the
    last of them in [ctc] with its bucket in [ctcRange], and the label
    of the first of them in [month]: [month] is written when the record
    is created and never again.  On the two offers of "A" with
    compensations 3 and 7 it yields [total] 2, [ctc] 7 and [ctcRange]
    "5-10". *)
Theorem companyStats_last_write_wins (toLocaleString : Date -> string)
    (placements : list Offer.t) :
  (forall p, In p placements -> ~ In (comp p) Object_prototype_names) ->
  (exists l,
     companyStats toLocaleString pristine placements = Normal l
     /\ NoDup (map CompanyStat.company l)
     /\ (forall k, In k (map CompanyStat.company l)
                   <-> In k (map comp placements))
     /\ forall r, In r l ->
          exists first last,
            first_offer (CompanyStat.company r) placements = Some first
            /\ last_offer (CompanyStat.company r) placements = Some last
            /\ CompanyStat.total r = count (CompanyStat.company r) placements
            /\ CompanyStat.month r = toLocaleString (Offer.created_at first)
            /\ CompanyStat.ctc r = or_zero (Offer.ctc last)
            /\ CompanyStat.ctcRange r = getCtcRange (or_zero (Offer.ctc last)))
  /\ companyStats toLocaleString pristine Examples.two_offers_of_A
     = Normal [ {| CompanyStat.company := "A";
                   CompanyStat.total := 2;
                   CompanyStat.month := toLocaleString InvalidDate;
                   CompanyStat.ctc := Fin 7;
                   CompanyStat.ctcRange := "5-10" |} ].
Proof.
  intros Hps. split; [|reflexivity].
  destruct (companyStats_scan_pristine toLocaleString placements Hps)
    as (s & Hrun & Hget).
  pose proof (companyStats_scan_keyed _ _ _ Hrun) as Hk.
  exists (values (snd s)). unfold companyStats. rewrite Hrun.
  split; [reflexivity|].
  pose proof (values_names Hk) as Hperm.
  split; [|split].
  - apply (Permutation_NoDup (Permutation_sym Hperm)), (proj1 Hk).
  - intros k. rewrite <- summary_Some_iff with (toLocaleString := toLocaleString).
    rewrite <- Hget. split.
    + intros Hin. apply (Permutation_in _ Hperm) in Hin.
      intros Hnone. now apply get_own_None in Hnone.
    + intros Hsome. apply (Permutation_in _ (Permutation_sym Hperm)).
      destruct (in_dec string_dec k (map fst (snd s))) as [Hin|Hnin];
        [assumption|].
      now apply get_own_None in Hnin.
  - intros r Hr. apply In_values in Hr as [k Hin].
    pose proof (proj2 Hk k r Hin) as Hname.
    apply In_get_own in Hin; [|exact (proj1 Hk)].
    rewrite Hget, <- Hname in Hin. unfold summary in Hin.
    destruct (first_offer (CompanyStat.company r) placements) as [first|];
      [|discriminate].
    destruct (last_offer (CompanyStat.company r) placements) as [last|];
      [|discriminate].
    injection Hin as <-. exists first, last. cbn. now repeat split.
Qed.

Lemma companyStats_last_write_wins_witness :
  (exists l,
     companyStats Examples.en_US pristine Examples.two_months_of_A = Normal l
     /\ NoDup (map CompanyStat.company l)
     /\ (forall k, In k (map CompanyStat.company l)
                   <-> In k (map comp Examples.two_months_of_A))
     /\ forall r, In r l ->
          exists first last,
            first_offer (CompanyStat.company r) Examples.two_months_of_A
            = Some first
            /\ last_offer (CompanyStat.company r) Examples.two_months_of_A
               = Some last
            /\ CompanyStat.total r
               = count (CompanyStat.company r) Examples.two_months_of_A
            /\ CompanyStat.month r
               = Examples.en_US (Offer.created_at first)
            /\ CompanyStat.ctc r = or_zero (Offer.ctc last)
            /\ CompanyStat.ctcRange r
               = getCtcRange (or_zero (Offer.ctc last))).
Proof.
  apply (companyStats_last_write_wins Examples.en_US
           Examples.two_months_of_A).
  intros p [<-|[<-|[]]]; vm_compute; intuition discriminate.
Defined.

(** The claim C2 has [month] follow the last offer of the company.  On
    two offers of "A", of January and of February 2025, the record keeps
    the label of January, while the last offer is of February. *)
Lemma companyStats_month_counterexample :
  companyStats Examples.en_US pristine Examples.two_months_of_A
  = Normal [ {| CompanyStat.company := "A";
                CompanyStat.total := 2;
                CompanyStat.month := "Jan 2025";
                CompanyStat.ctc := Fin 7;
                CompanyStat.ctcRange := "5-10" |} ]
  /\ option_map (fun p => Examples.en_US (Offer.created_at p))
                (last_offer "A" Examples.two_months_of_A)
     = Some "Feb 2025".
Proof. split; reflexivity. Qed.

(** C9.  An offer whose company is missing, or empty, is filed under the
    key "Unknown".  Processing it never throws, in whatever state the
    dictionary and [Object.prototype] are, and raises the [total] of the
    record under "Unknown" by one (from zero when there was no such
    record).  When [companyStats] returns, the record of "Unknown" counts
    every offer filed under that key. *)
Theorem missing_company_is_Unknown (toLocaleString : Date -> string) :
  (forall p, Offer.company p = None \/ Offer.company p = Some "" ->
             comp p = "Unknown")
  /\ (forall (s : state CompanyStat.t) p,
        comp p = "Unknown" ->
        exists s' r',
          companyStats_body toLocaleString s p = Normal s'
          /\ get_own (snd s') "Unknown" = Some r'
          /\ CompanyStat.total r'
             = S (match get_own (snd s) "Unknown" with
                  | Some r => CompanyStat.total r
                  | None => 0
                  end))
  /\ (forall pr placements l,
        companyStats toLocaleString pr placements = Normal l ->
        In "Unknown" (map comp placements) ->
        exists r, In r l
          /\ CompanyStat.company r = "Unknown"
          /\ CompanyStat.total r = count "Unknown" placements)
  /\ (forall placements,
        (forall p, In p placements -> ~ In (comp p) Object_prototype_names) ->
        exists l, companyStats toLocaleString pristine placements = Normal l).
Proof.
  split; [|split; [|split]].
  - intros p Hp. apply comp_Unknown_iff. tauto.
  - intros s p Hp.
    assert (Hu : usable s (comp p)).
    { right. rewrite Hp, (inherited_Undefined _ _ Unknown_not_reserved).
      reflexivity. }
    rewrite (companyStats_body_usable toLocaleString p Hu), Hp.
    do 2 eexists. split; [reflexivity|]. cbn [snd].
    split; [apply get_own_set_own_same|].
    now destruct (get_own (snd s) "Unknown").
  - intros pr placements l Hrun Hin. unfold companyStats in Hrun.
    apply bind_Normal in Hrun as (s & Hscan & [= <-]).
    pose proof (companyStats_scan_keyed _ _ _ Hscan) as Hk.
    destruct (@forEach_tracks _ _ comp (fresh_company toLocaleString)
                upd_company (companyStats_body toLocaleString)
                (fun _ => True) (fun _ => True) "Unknown"
                (companyStats_body_tracks toLocaleString Unknown_not_reserved)
                placements _ _ I
                (proj2 (Forall_forall _ _) (fun _ _ => I)) Hscan)
      as [_ Hget].
    cbn [snd get_own] in Hget. rewrite group_fold_company in Hget.
    apply (summary_Some_iff toLocaleString) in Hin.
    destruct (summary toLocaleString "Unknown" placements) as [r|] eqn:Hsum;
      [|congruence].
    exists r. split; [|split].
    + apply In_values. exists "Unknown". now apply get_own_In.
    + unfold summary in Hsum.
      destruct (first_offer "Unknown" placements); [|discriminate].
      destruct (last_offer "Unknown" placements); [|discriminate].
      now injection Hsum as <-.
    + unfold summary in Hsum.
      destruct (first_offer "Unknown" placements); [|discriminate].
      destruct (last_offer "Unknown" placements); [|discriminate].
      now injection Hsum as <-.
  - intros placements Hps.
    destruct (companyStats_scan_pristine toLocaleString placements Hps)
      as (s & Hrun & _).
    exists (values (snd s)). unfold companyStats. now rewrite Hrun.
Qed.

(** ** [branchStats] *)

Lemma branchStats_body_steps (s s' : state BranchAcc.t) (p : Offer.t) :
  branchStats_body s p = Normal s' ->
  exists f1 g1 f2 s1,
    (forall r, BranchAcc.branch (f1 r) = BranchAcc.branch r) /\
    (forall r, BranchAcc.branch (f2 r) = BranchAcc.branch r) /\
    assign (ensure s (getBranch (Offer.reg_no p)) (fresh_branch p))
           (getBranch (Offer.reg_no p)) f1 g1 = Normal s1 /\
    modify s1 (getBranch (Offer.reg_no p)) f2 = Normal s'.
Proof.
  unfold branchStats_body. intros Hrun.
  apply bind_Normal in Hrun as (s1 & H1 & H2).
  do 3 eexists. exists s1.
  split; [|split; [|split; [exact H1|exact H2]]]; reflexivity.
Qed.

Lemma branchStats_body_keyed (s s' : state BranchAcc.t) (p : Offer.t) :
  well_keyed BranchAcc.branch (snd s) ->
  branchStats_body s p = Normal s' ->
  well_keyed BranchAcc.branch (snd s').
Proof.
  intros Hk Hrun.
  apply branchStats_body_steps in Hrun
    as (f1 & g1 & f2 & s1 & Hf1 & Hf2 & H1 & H2).
  eapply modify_keyed; [|exact Hf2|exact H2].
  eapply assign_keyed; [|exact Hf1|exact H1].
  now apply ensure_keyed.
Qed.

Lemma branchStats_scan_keyed (pr : prototype) (ps : list Offer.t)
    (s : state BranchAcc.t) :
  branchStats_scan pr ps = Normal s -> well_keyed BranchAcc.branch (snd s).
Proof.
  unfold branchStats_scan.
  apply (forEach_invariant branchStats_body
           (fun s => well_keyed BranchAcc.branch (snd s))).
  - intros s0 p s1. apply branchStats_body_keyed.
  - apply well_keyed_nil.
Qed.

Lemma branchStats_body_usable (s : state BranchAcc.t) (p : Offer.t) :
  usable s (getBranch (Offer.reg_no p)) ->
  branchStats_body s p
  = Normal (fst s,
            set_own (snd s) (getBranch (Offer.reg_no p))
              (upd_branch p
                 (or_fresh (get_own (snd s) (getBranch (Offer.reg_no p)))
                           (fresh_branch p)))).
Proof.
  intros Hu. unfold branchStats_body.
  rewrite (ensure_assign _ _ _ Hu). cbn [bind].
  erewrite modify_own by (cbn [snd]; apply get_own_set_own_same).
  cbn [fst snd]. rewrite set_own_set_own. reflexivity.
Qed.

(** A branch code has at most three code units; the members of
    [Object.prototype] have longer names. *)
Lemma getBranch_short (reg : option string) :
  String.length (getBranch reg) <= 3.
Proof.
  unfold getBranch. destruct reg as [s|]; [|simpl; lia].
  destruct (truthy_string s); [|simpl; lia].
  rewrite HelpersFacts.length_substring_2_5. lia.
Qed.

Lemma prototype_names_long (k : string) :
  In k Object_prototype_names -> 7 <= String.length k.
Proof.
  intros Hin. vm_compute in Hin.
  repeat (destruct Hin as [<-|Hin]; [simpl; lia|]). destruct Hin.
Qed.

Lemma branchStats_scan_total (ps : list Offer.t) :
  exists s, branchStats_scan pristine ps = Normal s.
Proof.
  destruct (@forEach_total _ _ branchStats_body
              (fun s => fst s = pristine) (fun _ => True))
    with (ps := ps) (s := (pristine, @nil (string * BranchAcc.t)))
    as [s [Hrun _]].
  - intros s p Hs _.
    assert (Hu : usable s (getBranch (Offer.reg_no p))).
    { right. rewrite Hs, inherited_pristine; [reflexivity|].
      intros Hin. apply prototype_names_long in Hin.
      pose proof (getBranch_short (Offer.reg_no p)). lia. }
    rewrite (branchStats_body_usable _ Hu). eexists. split; [reflexivity|].
    exact Hs.
  - reflexivity.
  - apply Forall_forall. intros; exact I.
  - now exists s.
Qed.

(** ** [monthlyTrends] *)

Section Monthly.
Variable toLocaleString : Date -> string.

(** A month key is usable whatever [Object.prototype] holds. *)
Lemma monthlyTrends_body_usable (s : state MonthlyTrend.t) (p : Offer.t) :
  monthlyTrends_body toLocaleString s p
  = Normal (fst s,
            set_own (snd s) (key_of p)
              (upd_month p (or_fresh (get_own (snd s) (key_of p))
                                     (fresh_month toLocaleString p)))).
Proof.
  unfold monthlyTrends_body. apply ensure_assign. right.
  rewrite inherited_Undefined; [reflexivity|].
  apply KeyFacts.has_dash_not_reserved, KeyFacts.month_key_has_dash.
Qed.

Lemma fold_upd_month (g : list Offer.t) (r : MonthlyTrend.t) :
  fold_left (fun r p => upd_month p r) g r
  = {| MonthlyTrend.month := MonthlyTrend.month r;
       MonthlyTrend.total := MonthlyTrend.total r + List.length g |}.
Proof.
  revert r. induction g as [|p g IH]; intros r; simpl.
  - destruct r. simpl. f_equal. lia.
  - rewrite IH. simpl. f_equal. lia.
Qed.

Lemma find_filter {A : Type} (f : A -> bool) (l : list A) :
  find f l = hd_error (filter f l).
Proof.
  induction l as [|a l IH]; simpl; [reflexivity|].
  now destruct (f a).
Qed.

Lemma count_date_key (d : Date) (ps : list Offer.t) :
  count_date d ps
  = List.length (filter (fun p => key_of p =? month_key d) ps).
Proof.
  unfold count_date. induction ps as [|p ps IH]; simpl; [reflexivity|].
  unfold key_of at 1.
  destruct (Date_eq_dec (Offer.created_at p) d) as [->|Hne].
  - rewrite String.eqb_refl. simpl. now rewrite IH.
  - destruct (String.eqb_spec (month_key (Offer.created_at p)) (month_key d))
      as [Heq|_]; [|exact IH].
    now apply KeyFacts.month_key_inj in Heq.
Qed.

(** What the dictionary holds under a month key after the loop. *)
Lemma group_fold_month (k : string) (ps : list Offer.t) :
  group_fold key_of (fresh_month toLocaleString) upd_month k ps None
  = match find (fun p => key_of p =? k) ps with
    | Some p => Some (trend toLocaleString ps (Offer.created_at p))
    | None => None
    end.
Proof.
  rewrite group_fold_None, find_filter.
  destruct (filter (fun p => key_of p =? k) ps) as [|p0 g] eqn:E;
    [reflexivity|].
  cbn [hd_error]. rewrite fold_upd_month. unfold trend. cbn.
  rewrite count_date_key.
  assert (Hk : key_of p0 = k).
  { assert (Hin : In p0 (filter (fun p => key_of p =? k) ps))
      by (rewrite E; now left).
    apply filter_In in Hin as [_ Hin]. now apply String.eqb_eq. }
  unfold key_of in Hk at 1. rewrite Hk, E. reflexivity.
Qed.

Lemma monthlyTrends_scan_spec (pr : prototype) (ps : list Offer.t) :
  exists s, monthlyTrends_scan toLocaleString pr ps = Normal s
    /\ NoDup (map fst (snd s))
    /\ forall k, get_own (snd s) k
         = group_fold key_of (fresh_month toLocaleString) upd_month k ps None.
Proof.
  destruct (@forEach_total _ _ (monthlyTrends_body toLocaleString)
              (fun s => NoDup (map fst (snd s))) (fun _ => True))
    with (ps := ps) (s := (pr, @nil (string * MonthlyTrend.t)))
    as [s [Hrun Hnd]].
  - intros s p Hs _. rewrite monthlyTrends_body_usable.
    eexists. split; [reflexivity|]. cbn [snd]. now apply NoDup_set_own.
  - constructor.
  - apply Forall_forall. intros; exact I.
  - exists s. split; [exact Hrun|]. split; [exact Hnd|]. intros k.
    apply (@forEach_tracks _ _ key_of (fresh_month toLocaleString) upd_month
             (monthlyTrends_body toLocaleString)
             (fun _ => True) (fun _ => True) k)
      with (ps := ps) (s := (pr, @nil (string * MonthlyTrend.t)));
      auto.
    + intros s0 p s1 _ _ Hstep. split; [exact I|].
      rewrite monthlyTrends_body_usable in Hstep. injection Hstep as <-.
      cbn [snd]. unfold group_step, touch. rewrite get_own_set_own.
      destruct (String.eqb_spec (key_of p) k) as [<-|Hne]; reflexivity.
    + apply Forall_forall. intros; exact I.
Qed.

(** The entries of [monthlyTrends]: one for each year and month that an
    offer is dated in. *)
Lemma monthlyTrends_spec (pr : prototype) (ps : list Offer.t) :
  exists ds,
    monthlyTrends toLocaleString pr ps
    = Normal (map (trend toLocaleString ps) ds)
    /\ NoDup ds
    /\ forall d, In d ds <-> In d (map Offer.created_at ps).
Proof.
  destruct (monthlyTrends_scan_spec pr ps) as (s & Hrun & Hnd & Hget).
  assert (Hfound : forall k, In k (map fst (snd s)) ->
            exists p, find (fun p => key_of p =? k) ps = Some p
                      /\ In p ps /\ key_of p = k).
  { intros k Hin.
    destruct (find (fun p => key_of p =? k) ps) as [p|] eqn:E.
    - exists p. apply find_some in E as [Hp Hk]. apply String.eqb_eq in Hk.
      auto.
    - exfalso. specialize (Hget k). rewrite group_fold_month, E in Hget.
      now apply get_own_None in Hget. }
  assert (Hkey : forall k, In k (map fst (snd s)) ->
            month_key (first_dated ps k) = k).
  { intros k Hin. destruct (Hfound k Hin) as (p & E & _ & Hk).
    unfold first_dated. now rewrite E. }
  exists (map (first_dated ps) (map fst (snd s))).
  split; [|split].
  - unfold monthlyTrends. rewrite Hrun. cbn [bind]. f_equal.
    rewrite values_named_only.
    2:{ intros k Hin. apply KeyFacts.has_dash_not_index.
        rewrite <- (Hkey k Hin). apply KeyFacts.month_key_has_dash. }
    rewrite !map_map. apply map_ext_in. intros [k r] Hin. cbn [fst snd].
    pose proof (in_map fst _ _ Hin) as Hk. cbn [fst] in Hk.
    apply In_get_own in Hin; [|exact Hnd].
    rewrite Hget, group_fold_month in Hin.
    destruct (Hfound k Hk) as (p & E & _ & _).
    rewrite E in Hin. injection Hin as <-.
    unfold first_dated. now rewrite E.
  - apply NoDup_map_NoDup_ForallPairs; [|exact Hnd].
    intros k1 k2 H1 H2 Heq.
    rewrite <- (Hkey k1 H1), <- (Hkey k2 H2). now rewrite Heq.
  - intros d. split.
    + intros Hin. apply in_map_iff in Hin as (k & <- & Hk).
      destruct (Hfound k Hk) as (p & E & Hp & _).
      unfold first_dated. rewrite E. now apply in_map.
    + intros Hin. apply in_map_iff in Hin as (p & <- & Hp).
      assert (Hk : In (key_of p) (map fst (snd s))).
      { destruct (in_dec string_dec (key_of p) (map fst (snd s)))
          as [Hin|Hnin]; [assumption|].
        exfalso. apply get_own_None in Hnin.
        rewrite Hget, group_fold_month in Hnin.
        destruct (find (fun p0 => key_of p0 =? key_of p) ps) eqn:E;
          [discriminate|].
        apply (find_none _ _ E) in Hp. now rewrite String.eqb_refl in Hp. }
      apply in_map_iff. exists (key_of p). split; [|assumption].
      apply KeyFacts.month_key_inj. now rewrite (Hkey _ Hk).
Qed.
End Monthly.

(** C8.  The grouping keys of each aggregate are unique.  Whenever
    [companyStats] returns, no two of its records have the same company;
    whenever [branchStats] returns, no two of its records have the same
    branch code; and [monthlyTrends] always returns, with exactly one
    entry for each pair of a year and a month that an offer is dated in,
    holding the number of the offers of that year and month: the key it
    files an offer under determines the year and the month, so the same
    month of two years makes two entries.  (On a fresh page
    [branchStats] always returns, and [companyStats] does when no offer
    is named after a member of [Object.prototype].) *)
Theorem grouping_keys_unique {B : Binary64} (toLocaleString : Date -> string)
    (pr : prototype) (placements : list Offer.t) :
  (forall l, companyStats toLocaleString pr placements = Normal l ->
             NoDup (map CompanyStat.company l))
  /\ (forall l, branchStats pr placements = Normal l ->
                NoDup (map BranchStat.branch l))
  /\ (exists ds,
        monthlyTrends toLocaleString pr placements
        = Normal (map (trend toLocaleString placements) ds)
        /\ NoDup ds
        /\ forall d, In d ds <-> In d (map Offer.created_at placements))
  /\ (forall d d', month_key d = month_key d' -> d = d')
  /\ (exists l, branchStats pristine placements = Normal l)
  /\ ((forall p, In p placements -> ~ In (comp p) Object_prototype_names) ->
      exists l, companyStats toLocaleString pristine placements = Normal l).
Proof.
  split; [|split; [|split; [|split; [|split]]]].
  - intros l Hrun. unfold companyStats in Hrun.
    apply bind_Normal in Hrun as (s & Hscan & [= <-]).
    pose proof (companyStats_scan_keyed _ _ _ Hscan) as Hk.
    apply (Permutation_NoDup (Permutation_sym (values_names Hk))), (proj1 Hk).
  - intros l Hrun. unfold branchStats in Hrun.
    apply bind_Normal in Hrun as (s & Hscan & [= <-]).
    pose proof (branchStats_scan_keyed _ _ Hscan) as Hk.
    rewrite map_map. cbn [with_stats BranchStat.branch].
    apply (Permutation_NoDup (Permutation_sym (values_names Hk))), (proj1 Hk).
  - apply monthlyTrends_spec.
  - apply KeyFacts.month_key_inj.
  - destruct (branchStats_scan_total placements) as [s Hs].
    unfold branchStats. rewrite Hs. cbn [bind]. eauto.
  - intros Hps.
    destruct (companyStats_scan_pristine toLocaleString placements Hps)
      as (s & Hrun & _).
    unfold companyStats. rewrite Hrun. cbn [bind]. eauto.
Qed.

End GroupingFacts.

(* ================================================================== *)
(** * Properties of [filterAndSort] *)
(* ================================================================== *)

Module FilterFacts.
Import Js JsFacts Aggregator Reference Examples.

Lemma filter_filter {A : Type} (f g : A -> bool) (l : list A) :
  filter g (filter f l) = filter (fun x => f x && g x) l.
Proof.
  induction l as [|x l IH]; simpl; [reflexivity|].
  destruct (f x); simpl; [|exact IH].
  destruct (g x); now rewrite IH.
Qed.

Lemma or_zero_number (n : number) : or_zero n <> NaN.
Proof. unfold or_zero. destruct n; simpl; try discriminate.
  destruct (negb (Qeq_bool q 0)); discriminate.
Qed.

Lemma member_or_zero_number (x : option number) : member_or_zero x <> NaN.
Proof. destruct x; simpl; [apply or_zero_number|discriminate]. Qed.

Section Facts.
Context {A : Type} {Agg : Aggregate A}.
Variable toLowerCase : string -> string.
Variable view : View.

Lemma sort_key_number (d : A) : sort_key view d <> NaN.
Proof.
  unfold sort_key. destruct (sortBy view =? "students"); [discriminate|].
  destruct (sortBy view =? "avg"); apply member_or_zero_number.
Qed.

(** On records that have the member searched, [filterAndSort] returns,
    and returns the kept records in order. *)
Lemma filterAndSort_kept (data : list A) (type : string) :
  (forall d, In d data -> grouping_key type d <> None) ->
  filterAndSort toLowerCase view data type
  = Normal (ordered view (filter (kept toLowerCase view type) data)).
Proof.
  intros Hkey. unfold filterAndSort.
  assert (Hsearch :
    (if truthy_string (search view)
     then filter_throwing (matches_search toLowerCase view type) data
     else Normal data)
    = Normal (filter (search_ok toLowerCase view type) data)).
  { destruct (truthy_string (search view)) eqn:Hs.
    - apply filter_throwing_total. intros d Hd.
      unfold matches_search, search_ok, grouping_key. rewrite Hs. simpl.
      specialize (Hkey d Hd). unfold grouping_key in Hkey.
      destruct (if type =? "company" then member_company d
                else member_branch d); [reflexivity|congruence].
    - f_equal. symmetry.
      rewrite <- (filter_ext (fun _ => true)).
      + clear. induction data as [|x l IH]; simpl; congruence.
      + intros d. unfold search_ok. now rewrite Hs. }
  rewrite Hsearch. cbn [bind].
  assert (Hrange :
    (if (type =? "company") && negb (selectedRange view =? "all")
     then filter (fun d => strict_equal (member_ctcRange d)
                                        (selectedRange view))
                 (filter (search_ok toLowerCase view type) data)
     else filter (search_ok toLowerCase view type) data)
    = filter (kept toLowerCase view type) data).
  { unfold kept, range_ok.
    destruct ((type =? "company") && negb (selectedRange view =? "all")).
    - now rewrite filter_filter.
    - apply filter_ext. intros d. simpl. now rewrite andb_true_r. }
  rewrite Hrange. unfold ordered.
  destruct (sortBy view =? "students"); [reflexivity|].
  destruct (sortBy view =? "avg"); [reflexivity|].
  destruct (sortBy view =? "median"); reflexivity.
Qed.

Lemma ordered_Permutation (l : list A) : Permutation (ordered view l) l.
Proof.
  unfold ordered.
  destruct (sortBy view =? "students"); [apply sort_Permutation|].
  destruct (sortBy view =? "avg"); [apply sort_Permutation|].
  destruct (sortBy view =? "median"); [apply sort_Permutation|reflexivity].
Qed.

Lemma ordered_descending (l : list A) :
  In (sortBy view) ["students"; "avg"; "median"] ->
  StronglySorted
    (fun a b => ge (sort_key view a) (sort_key view b) = true)
  (ordered view l).
Proof.
  intros Hmode.
  pose proof (sort_descending (sort_key view) sort_key_number l) as H.
  unfold ordered. unfold sort_key in H at 3 4.
  destruct (sortBy view =? "students") eqn:E1; [exact H|].
  destruct (sortBy view =? "avg") eqn:E2; [exact H|].
  destruct (sortBy view =? "median") eqn:E3; [exact H|].
  apply String.eqb_neq in E1, E2, E3.
  simpl in Hmode. intuition congruence.
Qed.

Lemma search_ok_iff (type : string) (d : A) :
  search_ok toLowerCase view type d = true <->
  search view = "" \/
  exists key, grouping_key type d = Some key
              /\ contains (toLowerCase key) (toLowerCase (search view)).
Proof.
  unfold search_ok. rewrite orb_true_iff, negb_true_iff. split.
  - intros [Hs|Hk].
    + left. now destruct (search view).
    + right. destruct (grouping_key type d) as [key|]; [|discriminate].
      exists key. split; [reflexivity|]. now apply includes_contains.
  - intros [Hs|(key & Hk & Hc)].
    + left. now rewrite Hs.
    + right. rewrite Hk. now apply includes_contains.
Qed.

Lemma range_ok_iff (type : string) (d : A) :
  range_ok view type d = true <->
  (type = "company" -> selectedRange view <> "all" ->
   member_ctcRange d = Some (selectedRange view)).
Proof.
  unfold range_ok, strict_equal.
  destruct (String.eqb_spec type "company") as [Ht|Ht];
    destruct (String.eqb_spec (selectedRange view) "all") as [Hr|Hr];
    simpl; try (split; [intros; congruence|reflexivity]).
  destruct (member_ctcRange d) as [x|].
  - destruct (String.eqb_spec x (selectedRange view)) as [->|Hx].
    + split; auto.
    + split; [discriminate|]. intros H. specialize (H Ht Hr). congruence.
  - split; [discriminate|]. intros H. specialize (H Ht Hr). discriminate.
Qed.
End Facts.

(** ** The order, by the numbers the sort modes name *)

Lemma Qltb_same (p p' q q' : Q) :
  (p == p')%Q -> (q == q')%Q -> Qltb p q = Qltb p' q'.
Proof.
  intros Hp Hq.
  destruct (Qltb p q) eqn:E, (Qltb p' q') eqn:E'; try reflexivity.
  - apply Qltb_true in E. apply Qltb_false in E'. lra.
  - apply Qltb_false in E. apply Qltb_true in E'. lra.
Qed.

Lemma ge_same_value (a a' b b' : number) :
  Measures.same_value a a' -> Measures.same_value b b' ->
  ge a b = ge a' b'.
Proof.
  destruct a as [| | |p], a' as [| | |p']; simpl; try contradiction;
    destruct b as [| | |q], b' as [| | |q']; simpl; try contradiction;
    try reflexivity.
  intros Hp Hq. f_equal. now apply Qltb_same.
Qed.

Lemma member_or_zero_value (x : option number) :
  Measures.same_value (member_or_zero x) (Measures.number_or_zero x).
Proof.
  destruct x as [[| | |q]|]; simpl; try exact I; try reflexivity.
  unfold or_zero, truthy_number.
  destruct (Qeq_bool q 0) eqn:E; simpl; [|reflexivity].
  apply Qeq_bool_iff in E. now symmetry.
Qed.

Lemma of_nat_value (n : nat) : Measures.same_value (of_nat n) (of_nat n).
Proof. simpl. reflexivity. Qed.

Lemma sort_key_rank {A : Type} {Agg : Aggregate A} (view : View) (a b : A) :
  ge (sort_key view a) (sort_key view b)
  = ge (Measures.rank view a) (Measures.rank view b).
Proof.
  unfold sort_key, Measures.rank.
  destruct (sortBy view =? "students"); [reflexivity|].
  destruct (sortBy view =? "avg");
    apply ge_same_value; apply member_or_zero_value.
Qed.

Lemma StronglySorted_impl {A : Type} (R R' : A -> A -> Prop) (l : list A) :
  (forall a b, R a b -> R' a b) -> StronglySorted R l -> StronglySorted R' l.
Proof.
  intros HR. induction 1 as [|a l Hl IH Ha]; constructor.
  - exact IH.
  - eapply Forall_impl; [|exact Ha]. intros b. apply HR.
Qed.

(** C7.  On a collection whose records have the member searched,
    [filterAndSort] keeps the records whose grouping key ([company] for
    the type "company", [branch] otherwise) contains the search term,
    both taken to lower case (every record when the term is empty); of
    those, for the type "company" and a selected range other than "all",
    the records whose [ctcRange] is the selected range; and returns the
    kept records, each as often as it was kept, in descending order of
    the number the sort mode names: the count, the average or the
    median (an average or median that is absent or [NaN] counting as
    0).  Searching "eng" in the branch aggregates ENG (5) and SCI (9)
    returns ENG alone, and sorting the two by count puts SCI first;
    four branch aggregates with the averages [NaN], 3, 40, 12 and the
    medians 0, 30, 10, 20 come back in the order 40, 12, 3, [NaN] by
    average and 30, 20, 10, 0 by median. *)
Theorem filterAndSort_filters_then_sorts {A : Type} {Agg : Aggregate A}
    (toLowerCase : string -> string) (view : View) (data : list A)
    (type : string) :
  (forall d, In d data -> grouping_key type d <> None) ->
  In (sortBy view) ["students"; "avg"; "median"] ->
  (exists l,
     filterAndSort toLowerCase view data type = Normal l
     /\ (forall d,
           In d l <->
           In d data
           /\ (search view = "" \/
               exists key, grouping_key type d = Some key
                 /\ contains (toLowerCase key) (toLowerCase (search view)))
           /\ (type = "company" -> selectedRange view <> "all" ->
               member_ctcRange d = Some (selectedRange view)))
     /\ Permutation l (filter (kept toLowerCase view type) data)
     /\ StronglySorted
          (fun a b => ge (Measures.rank view a) (Measures.rank view b) = true)
          l)
  /\ filterAndSort Examples.ascii_toLowerCase (Examples.searching "eng")
                   [Examples.ENG; Examples.SCI] "branch"
     = Normal [Examples.ENG]
  /\ filterAndSort Examples.ascii_toLowerCase (Examples.searching "")
                   [Examples.ENG; Examples.SCI] "branch"
     = Normal [Examples.SCI; Examples.ENG]
  /\ filterAndSort Examples.ascii_toLowerCase (Measures.sorting "avg")
                   Measures.four_stats "branch"
     = Normal [Measures.branch_stat "ECE" 5 (Fin 40) (Fin 10);
               Measures.branch_stat "MEC" 1 (Fin 12) (Fin 20);
               Measures.branch_stat "CSE" 2 (Fin 3) (Fin 30);
               Measures.branch_stat "CIV" 4 NaN (Fin 0)]
  /\ filterAndSort Examples.ascii_toLowerCase (Measures.sorting "median")
                   Measures.four_stats "branch"
     = Normal [Measures.branch_stat "CSE" 2 (Fin 3) (Fin 30);
               Measures.branch_stat "MEC" 1 (Fin 12) (Fin 20);
               Measures.branch_stat "ECE" 5 (Fin 40) (Fin 10);
               Measures.branch_stat "CIV" 4 NaN (Fin 0)]
  /\ filterAndSort Examples.ascii_toLowerCase (Measures.sorting "students")
                   Measures.four_stats "branch"
     = Normal [Measures.branch_stat "ECE" 5 (Fin 40) (Fin 10);
               Measures.branch_stat "CIV" 4 NaN (Fin 0);
               Measures.branch_stat "CSE" 2 (Fin 3) (Fin 30);
               Measures.branch_stat "MEC" 1 (Fin 12) (Fin 20)].
Proof.
  intros Hkey Hmode. split; [|repeat split; reflexivity].
  exists (ordered view (filter (kept toLowerCase view type) data)).
  split; [now apply filterAndSort_kept|].
  split; [|split].
  - intros d.
    rewrite <- search_ok_iff, <- range_ok_iff. split.
    + intros Hin. apply (Permutation_in _ (ordered_Permutation view _)) in Hin.
      apply filter_In in Hin as [Hin Hkept].
      unfold kept in Hkept. apply andb_true_iff in Hkept. tauto.
    + intros (Hin & Hs & Hr).
      apply (Permutation_in _ (Permutation_sym (ordered_Permutation view _))).
      apply filter_In. split; [assumption|].
      unfold kept. now rewrite Hs, Hr.
  - apply ordered_Permutation.
  - eapply StronglySorted_impl; [|now apply ordered_descending].
    intros a b H. cbv beta in H. now rewrite <- sort_key_rank.
Qed.

Lemma filterAndSort_filters_then_sorts_witness :
  exists l,
    filterAndSort Examples.ascii_toLowerCase (Measures.sorting "avg")
                  Measures.four_stats "branch" = Normal l
    /\ (forall d,
          In d l <->
          In d Measures.four_stats
          /\ (search (Measures.sorting "avg") = "" \/
              exists key, grouping_key "branch" d = Some key
                /\ contains (Examples.ascii_toLowerCase key)
                            (Examples.ascii_toLowerCase
                               (search (Measures.sorting "avg"))))
          /\ ("branch" = "company" ->
              selectedRange (Measures.sorting "avg") <> "all" ->
              member_ctcRange d
              = Some (selectedRange (Measures.sorting "avg"))))
    /\ Permutation l
         (filter (kept Examples.ascii_toLowerCase (Measures.sorting "avg")
                       "branch")
                 Measures.four_stats)
    /\ StronglySorted
         (fun a b => ge (Measures.rank (Measures.sorting "avg") a)
                        (Measures.rank (Measures.sorting "avg") b) = true) l.
Proof.
  apply (filterAndSort_filters_then_sorts Examples.ascii_toLowerCase
           (Measures.sorting "avg") Measures.four_stats "branch").
  - intros d _. discriminate.
  - simpl. auto.
Defined.

(** C10.  The records of [companyStats] have no [avg] and no [median]:
    in the sort modes "avg" and "median" every comparison is of 0 with
    0, and [filterAndSort] returns the kept company records in the order
    they have in [data]. *)
Theorem company_order_unchanged (toLowerCase : string -> string)
    (view : View) (data : list CompanyStat.t) :
  sortBy view = "avg" \/ sortBy view = "median" ->
  filterAndSort toLowerCase view data "company"
  = Normal (filter (kept toLowerCase view "company") data)
  /\ forall d : CompanyStat.t,
       member_or_zero (member_avg d) = Fin 0
       /\ member_or_zero (member_median d) = Fin 0.
Proof.
  intros Hmode. split; [|intros d; split; reflexivity].
  rewrite filterAndSort_kept by (intros d _; discriminate).
  f_equal. unfold ordered.
  destruct Hmode as [-> | ->]; cbn [String.eqb Ascii.eqb Bool.eqb];
    now apply sort_all_ties.
Qed.

Lemma company_order_unchanged_witness :
  filterAndSort Examples.ascii_toLowerCase Examples.by_average
                Examples.three_companies "company"
  = Normal [Examples.company_record "Acme" 1 "5-10";
            Examples.company_record "Apex" 3 "5-10"].
Proof.
  destruct (company_order_unchanged Examples.ascii_toLowerCase
              Examples.by_average Examples.three_companies) as [H _].
  - left. reflexivity.
  - rewrite H. reflexivity.
Defined.

End FilterFacts.

(* ================================================================== *)
(** * Properties of the bulk fetcher *)
(* ================================================================== *)

Module BulkFetcherFacts.
Import Js BulkFetcher Examples.
Local Open Scope Z_scope.

Section Facts.
Variables Row Err : Type.

Lemma firstn_next (a b : nat) (l : list Row) :
  firstn a l ++ firstn b (skipn a l) = firstn (a + b) l.
Proof.
  revert l. induction a as [|a IH]; intros l; simpl.
  - reflexivity.
  - destruct l as [|x l]; simpl.
    + now rewrite firstn_nil.
    + now rewrite IH.
Qed.

(** A page of the service at a non-negative offset, asked with a page
    size the cap allows. *)
Lemma table_service_page (tables : string -> list Row) (max_rows cs : Z)
    (t : string) (k : nat) :
  0 < cs <= max_rows ->
  @table_service Row Err tables max_rows t (Z.of_nat k) (Z.of_nat k + cs - 1)
  = {| data := Some (firstn (Z.to_nat cs) (skipn k (tables t)));
       error := None |}.
Proof.
  intros Hcs. unfold table_service, rows_in_range.
  destruct (Z.ltb_spec (Z.of_nat k + cs - 1) (Z.of_nat k)) as [Hlt|_];
    [lia|].
  replace (Z.of_nat k + cs - 1 - Z.of_nat k + 1) with cs by lia.
  rewrite Nat2Z.id, firstn_firstn.
  replace (Nat.min (Z.to_nat max_rows) (Z.to_nat cs)) with (Z.to_nat cs)
    by lia.
  reflexivity.
Qed.

(** The quotient of the row count by the page size, in [nat]. *)
Lemma pages_bounds (n : nat) (cs : Z) :
  0 < cs ->
  let q := Z.to_nat (Z.of_nat n / cs) in
  let c := Z.to_nat cs in
  (q * c <= n < q * c + c)%nat.
Proof.
  intros Hcs q c.
  pose proof (Z.div_pos (Z.of_nat n) cs ltac:(lia) Hcs) as Hq.
  pose proof (Z.mul_div_le (Z.of_nat n) cs Hcs) as Hlo.
  pose proof (Z.mul_succ_div_gt (Z.of_nat n) cs Hcs) as Hhi.
  subst q c. split.
  - apply Nat2Z.inj_le. rewrite Nat2Z.inj_mul, !Z2Nat.id by lia. lia.
  - apply Nat2Z.inj_lt.
    rewrite Nat2Z.inj_add, Nat2Z.inj_mul, !Z2Nat.id by lia. lia.
Qed.

(** The loop entered at the [k]-th page with the rows before it
    gathered: it issues the remaining requests and returns every row. *)
Lemma fetch_loop_from_page (tables : string -> list Row) (max_rows cs : Z)
    (t : string) :
  0 < cs <= max_rows ->
  let rows := tables t in
  let q := Z.to_nat (Z.of_nat (List.length rows) / cs) in
  let c := Z.to_nat cs in
  forall (fuel k : nat),
    (k <= q)%nat -> (q - k < fuel)%nat ->
    fetch_loop fuel (@table_service Row Err tables max_rows) t cs
               (firstn (k * c) rows) (Z.of_nat (k * c))
    = (map (nth_request t cs) (seq k (S q - k)), Some (Normal rows)).
Proof.
  intros Hcs rows q c.
  pose proof (pages_bounds (List.length rows) (proj1 Hcs)) as Hq.
  fold q c in Hq. simpl in Hq.
  assert (Hc : Z.of_nat c = cs) by (subst c; lia).
  induction fuel as [|fuel IH]; intros k Hk Hfuel; [lia|].
  cbn [fetch_loop].
  rewrite table_service_page by exact Hcs.
  cbn [data error]. fold rows. fold c.
  set (d := firstn c (skipn (k * c) rows)).
  assert (Hd : List.length d = Nat.min c (List.length rows - k * c)).
  { subst d. now rewrite length_firstn, length_skipn. }
  assert (Hrq : {| range_table := t; range_from := Z.of_nat (k * c);
                   range_to := Z.of_nat (k * c) + cs - 1 |}
                = nth_request t cs k).
  { unfold nth_request. rewrite Nat2Z.inj_mul, Hc. reflexivity. }
  rewrite Hrq.
  destruct (Nat.eq_dec k q) as [->|Hne].
  - (* the last page: fewer rows than a full page *)
    replace (S q - q)%nat with 1%nat by lia. simpl map.
    assert (Hall : firstn (q * c + c) rows = rows)
      by (apply firstn_all2; lia).
    destruct (Nat.eqb_spec (List.length d) 0) as [H0|H0].
    + rewrite firstn_all2 by lia. reflexivity.
    + destruct (Z.ltb_spec (Z.of_nat (List.length d)) cs) as [_|Hge];
        [|lia].
      subst d. now rewrite firstn_next, Hall.
  - (* a full page: the loop goes on *)
    assert (Hfull : List.length d = c) by nia.
    destruct (Nat.eqb_spec (List.length d) 0) as [H0|_]; [lia|].
    destruct (Z.ltb_spec (Z.of_nat (List.length d)) cs) as [Hlt|_];
      [lia|].
    subst d. rewrite firstn_next.
    replace (k * c + c)%nat with (S k * c)%nat by lia.
    replace (Z.of_nat (k * c) + cs) with (Z.of_nat (S k * c)) by lia.
    rewrite IH by lia.
    replace (S q - k)%nat with (S (S q - S k))%nat by lia.
    reflexivity.
Qed.

(** The pages the service hands out: full ones before the last request,
    a short one (possibly empty) at the last. *)
Lemma page_lengths (rows : list Row) (cs : Z) (k : nat) :
  0 < cs ->
  let q := Z.to_nat (Z.of_nat (List.length rows) / cs) in
  (k <= q)%nat ->
  Z.of_nat (List.length
    (rows_in_range rows (Z.of_nat k * cs) (Z.of_nat k * cs + cs - 1)))
  = if (k <? q)%nat then cs else Z.of_nat (List.length rows) mod cs.
Proof.
  intros Hcs q Hk.
  pose proof (pages_bounds (List.length rows) Hcs) as Hq.
  fold q in Hq. simpl in Hq.
  unfold rows_in_range.
  destruct (Z.ltb_spec (Z.of_nat k * cs + cs - 1) (Z.of_nat k * cs));
    [lia|].
  rewrite length_firstn, length_skipn.
  replace (Z.of_nat k * cs + cs - 1 - Z.of_nat k * cs + 1) with cs by lia.
  assert (Hmod : Z.of_nat (List.length rows) mod cs
                 = Z.of_nat (List.length rows) - Z.of_nat q * cs).
  { rewrite Z.mod_eq by lia. subst q.
    rewrite Z2Nat.id by (apply Z.div_pos; lia). lia. }
  destruct (Nat.ltb_spec k q) as [Hlt|Hge].
  - nia.
  - assert (k = q) by lia. subst k. rewrite Hmod. nia.
Qed.
End Facts.

Section Errors.
Variables Row Err : Type.
Variable supabase : client Row Err.

Lemma fetch_loop_error (t : string) (cs : Z) (fuel : nat) :
  forall (allRows : list Row) (from : Z) rqs res,
    fetch_loop fuel supabase t cs allRows from = (rqs, res) ->
    (forall rq e, In rq rqs -> error (answer supabase rq) = Some e ->
                  res = Some (Throw e))
    /\ (forall e, res = Some (Throw e) ->
          exists rq, In rq rqs /\ error (answer supabase rq) = Some e).
Proof.
  induction fuel as [|fuel IH]; intros allRows from rqs res Hrun.
  - injection Hrun as <- <-. split; [intros ? ? []|discriminate].
  - cbn [fetch_loop] in Hrun.
    set (rq := {| range_table := t; range_from := from;
                  range_to := from + cs - 1 |}) in *.
    change (supabase t from (from + cs - 1)) with (answer supabase rq)
      in Hrun.
    assert (Hone : forall res0,
      (rqs, res) = ([rq], Some res0) ->
      (error (answer supabase rq) = None
       \/ exists e, error (answer supabase rq) = Some e /\ res0 = Throw e) ->
      (forall e, res0 = Throw e -> error (answer supabase rq) = Some e) ->
      (forall rq' e, In rq' rqs -> error (answer supabase rq') = Some e ->
                     res = Some (Throw e))
      /\ (forall e, res = Some (Throw e) ->
            exists rq', In rq' rqs /\ error (answer supabase rq') = Some e)).
    { intros res0 [= -> ->] Hcase Hthrow. split.
      - intros rq' e [<-|[]] He.
        destruct Hcase as [Hnone|[e' [He' ->]]]; congruence.
      - intros e [= ->]. exists rq. split; [now left|now apply Hthrow]. }
    destruct (error (answer supabase rq)) as [e|] eqn:Herr.
    { apply (Hone (Throw e)); [now symmetry| |congruence].
      right. now exists e. }
    destruct (data (answer supabase rq)) as [d|].
    2:{ apply (Hone (Normal allRows)); [now symmetry|now left|discriminate]. }
    destruct (List.length d =? 0)%nat.
    { apply (Hone (Normal allRows)); [now symmetry|now left|discriminate]. }
    destruct (Z.of_nat (List.length d) <? cs).
    { apply (Hone (Normal (allRows ++ d)));
        [now symmetry|now left|discriminate]. }
    destruct (fetch_loop fuel supabase t cs (allRows ++ d) (from + cs))
      as [rqs' res'] eqn:Hrec.
    injection Hrun as <- <-.
    apply IH in Hrec as [IH1 IH2]. split.
    + intros rq' e [<-|Hin] He; [congruence|]. now apply (IH1 rq').
    + intros e He. destruct (IH2 e He) as [rq' [Hin Hrq']].
      exists rq'. split; [now right|assumption].
Qed.
End Errors.

(** ** A run, read off the answers of the client *)

Section Runs.
Import Measures.
Variables Row Err : Type.
Variable supabase : client Row Err.
Variable t : string.
Variable cs : Z.

Lemma request_at_0 (from : Z) :
  {| range_table := t; range_from := from; range_to := from + cs - 1 |}
  = request_at t cs from 0.
Proof. unfold request_at. f_equal; simpl; lia. Qed.

Lemma request_at_S (from : Z) (i : nat) :
  request_at t cs (from + cs) i = request_at t cs from (S i).
Proof. unfold request_at. f_equal; lia. Qed.

(** While the answers let the loop go on it goes on, and the first
    answer with an error ends it with that error. *)
Lemma fetch_loop_throws (k : nat) :
  forall (fuel : nat) (allRows : list Row) (from : Z) (e : Err),
    (k < fuel)%nat ->
    (forall i, (i < k)%nat -> goes_on supabase cs (request_at t cs from i)) ->
    error (answer supabase (request_at t cs from k)) = Some e ->
    fetch_loop fuel supabase t cs allRows from
    = (map (request_at t cs from) (seq 0 (S k)), Some (Throw e)).
Proof.
  induction k as [|k IH]; intros fuel allRows from e Hk Hon He;
    (destruct fuel as [|fuel]; [lia|]); cbn [fetch_loop];
    rewrite (request_at_0 from);
    change (supabase t from (from + cs - 1))
      with (answer supabase {| range_table := t; range_from := from;
                               range_to := from + cs - 1 |});
    rewrite (request_at_0 from).
  - rewrite He. reflexivity.
  - destruct (Hon 0%nat ltac:(lia)) as (-> & d & -> & Hd & Hlen).
    destruct (Nat.eqb_spec (List.length d) 0) as [H0|_].
    { destruct d; [congruence|discriminate]. }
    destruct (Z.ltb_spec (Z.of_nat (List.length d)) cs) as [Hlt|_]; [lia|].
    rewrite (IH fuel (allRows ++ d) (from + cs) e).
    + change (seq 0 (S (S k))) with (0%nat :: seq 1 (S k)).
      rewrite <- seq_shift. cbn [map]. rewrite map_map. f_equal. f_equal.
      apply map_ext. intros i. apply request_at_S.
    + lia.
    + intros i Hi. rewrite request_at_S. apply Hon. lia.
    + now rewrite request_at_S.
Qed.

(** Every run that has ended, read backwards: the requests it has
    issued, what their answers were, and what it came to. *)
Lemma fetch_loop_run (fuel : nat) :
  forall (allRows : list Row) (from : Z) rqs res,
    fetch_loop fuel supabase t cs allRows from = (rqs, Some res) ->
    exists k,
      (k < fuel)%nat
      /\ rqs = map (request_at t cs from) (seq 0 (S k))
      /\ (forall i, (i < k)%nat ->
            goes_on supabase cs (request_at t cs from i))
      /\ match res with
         | Throw e =>
             error (answer supabase (request_at t cs from k)) = Some e
         | Normal rows =>
             ends_on supabase cs (request_at t cs from k)
             /\ rows = allRows ++ List.concat (map (page supabase) rqs)
         end.
Proof.
  induction fuel as [|fuel IH]; intros allRows from rqs res Hrun;
    [discriminate|].
  cbn [fetch_loop] in Hrun. rewrite (request_at_0 from) in Hrun.
  change (supabase t from (from + cs - 1))
    with (answer supabase {| range_table := t; range_from := from;
                             range_to := from + cs - 1 |}) in Hrun.
  rewrite (request_at_0 from) in Hrun.
  assert (Hpage : page supabase (request_at t cs from 0)
                  = match data (answer supabase (request_at t cs from 0)) with
                    | Some d => d
                    | None => []
                    end) by reflexivity.
  destruct (error (answer supabase (request_at t cs from 0))) as [e|] eqn:He.
  { injection Hrun as <- <-. exists 0%nat.
    split; [lia|]. split; [reflexivity|]. split; [intros i Hi; lia|].
    exact He. }
  destruct (data (answer supabase (request_at t cs from 0))) as [d|] eqn:Hd.
  2:{ injection Hrun as <- <-. exists 0%nat.
      split; [lia|]. split; [reflexivity|]. split; [intros i Hi; lia|].
      split; [split; [exact He|now left]|].
      cbn [seq map List.concat]. rewrite Hpage. now rewrite !app_nil_r. }
  destruct (Nat.eqb_spec (List.length d) 0) as [H0|H0].
  { injection Hrun as <- <-. exists 0%nat.
    split; [lia|]. split; [reflexivity|]. split; [intros i Hi; lia|].
    destruct d; [|discriminate].
    split; [split; [exact He|right; exists []; auto]|].
    cbn [seq map List.concat]. rewrite Hpage. now rewrite !app_nil_r. }
  destruct (Z.ltb_spec (Z.of_nat (List.length d)) cs) as [Hlt|Hge].
  { injection Hrun as <- <-. exists 0%nat.
    split; [lia|]. split; [reflexivity|]. split; [intros i Hi; lia|].
    split; [split; [exact He|right; exists d; auto]|].
    cbn [seq map List.concat]. rewrite Hpage. now rewrite app_nil_r. }
  destruct (fetch_loop fuel supabase t cs (allRows ++ d) (from + cs))
    as [rqs' res'] eqn:Hrec.
  injection Hrun as <- ->.
  destruct (IH _ _ _ _ Hrec) as (k & Hk & Hrqs & Hon & Hres).
  exists (S k). split; [lia|]. split; [|split].
  - change (seq 0 (S (S k))) with (0%nat :: seq 1 (S k)).
    rewrite <- seq_shift. cbn [map]. rewrite map_map. f_equal. rewrite Hrqs.
    apply map_ext. intros i. apply request_at_S.
  - intros [|i] Hi.
    + split; [exact He|]. exists d. repeat split; [exact Hd| |exact Hge].
      intros ->. now apply H0.
    + rewrite <- request_at_S. apply Hon. lia.
  - destruct res as [rows|e].
    + destruct Hres as [Hend ->]. split.
      * now rewrite <- request_at_S.
      * cbn [map List.concat]. rewrite Hpage. now rewrite app_assoc.
    + now rewrite <- request_at_S.
Qed.
End Runs.

Import Measures.

(** C5.  When a request of a bulk fetch is answered with an error,
    [fetchAllRows] throws that very error and returns no rows.  Read
    off the answers of the client, for a positive page size and
    offsets that binary64 holds exactly: if the requests at the offsets
    0, [chunkSize], ..., up to the [k]-th are answered by pages that
    let the loop go on and the [k]-th by an error [e], the run issues
    exactly these [k + 1] requests and ends with the exception [e],
    whatever rows the earlier pages held; an exception thrown is always
    the error of such a request; and a run that returns rows has had no
    error in any answer.  The same holds of the requests the run has
    issued, whichever they are. *)
Theorem fetchAllRows_throws_request_error (Row Err : Type)
    (supabase : client Row Err) (tableName : string) (chunkSize : option Z)
    (fuel : nat) :
  let cs := match chunkSize with Some c => c | None => 1000 end in
  0 < cs -> Z.of_nat fuel * cs <= 2 ^ 53 ->
  (forall k e,
     (k < fuel)%nat ->
     (forall i, (i < k)%nat ->
        goes_on supabase cs (nth_request tableName cs i)) ->
     error (answer supabase (nth_request tableName cs k)) = Some e ->
     fetchAllRows fuel supabase tableName chunkSize
     = (map (nth_request tableName cs) (seq 0 (S k)), Some (Throw e)))
  /\ (forall e,
        snd (fetchAllRows fuel supabase tableName chunkSize)
        = Some (Throw e) ->
        exists k,
          (k < fuel)%nat
          /\ (forall i, (i < k)%nat ->
                goes_on supabase cs (nth_request tableName cs i))
          /\ error (answer supabase (nth_request tableName cs k)) = Some e)
  /\ (forall rows,
        snd (fetchAllRows fuel supabase tableName chunkSize)
        = Some (Normal rows) ->
        exists k,
          (k < fuel)%nat
          /\ fst (fetchAllRows fuel supabase tableName chunkSize)
             = map (nth_request tableName cs) (seq 0 (S k))
          /\ forall i, (i <= k)%nat ->
               error (answer supabase (nth_request tableName cs i)) = None)
  /\ (forall rqs res,
        fetchAllRows fuel supabase tableName chunkSize = (rqs, res) ->
        (forall rq e, In rq rqs -> error (answer supabase rq) = Some e ->
                      res = Some (Throw e))
        /\ (forall e, res = Some (Throw e) ->
              exists rq, In rq rqs /\ error (answer supabase rq) = Some e)
        /\ (forall rows, res = Some (Normal rows) ->
              forall rq, In rq rqs -> error (answer supabase rq) = None)).
Proof.
  intros cs _ _. unfold fetchAllRows. fold cs.
  assert (Hnth : forall i, request_at tableName cs 0 i
                           = nth_request tableName cs i) by reflexivity.
  split; [|split; [|split]].
  - intros k e Hk Hon He.
    rewrite (@fetch_loop_throws _ _ supabase tableName cs k fuel [] 0 e);
      [reflexivity|exact Hk|exact Hon|exact He].
  - intros e Hrun.
    destruct (fetch_loop fuel supabase tableName cs [] 0) as [rqs res] eqn:E.
    cbn [snd] in Hrun. subst res.
    apply fetch_loop_run in E as (k & Hk & _ & Hon & He).
    exists k. split; [exact Hk|]. split; [exact Hon|exact He].
  - intros rows Hrun.
    destruct (fetch_loop fuel supabase tableName cs [] 0) as [rqs res] eqn:E.
    cbn [snd] in Hrun. subst res.
    apply fetch_loop_run in E as (k & Hk & Hrqs & Hon & Hend & _).
    exists k. split; [exact Hk|]. split; [exact Hrqs|].
    intros i Hi. destruct (Nat.eq_dec i k) as [->|Hne].
    + exact (proj1 Hend).
    + exact (proj1 (Hon i ltac:(lia))).
  - intros rqs res Hrun.
    apply fetch_loop_error in Hrun as [H1 H2].
    split; [exact H1|split; [exact H2|]].
    intros rows -> rq Hin.
    destruct (error (answer supabase rq)) as [e|] eqn:He; [|reflexivity].
    specialize (H1 rq e Hin He). discriminate.
Qed.

Lemma fetchAllRows_throws_request_error_witness :
  fetchAllRows 3 failing_second_page "Offer" (Some 2)
  = ([nth_request "Offer" 2 0; nth_request "Offer" 2 1],
     Some (Throw "timeout")).
Proof.
  apply (proj1 (fetchAllRows_throws_request_error failing_second_page
                  "Offer" (Some 2) 3 ltac:(lia) ltac:(lia)) 1%nat "timeout").
  - lia.
  - intros i Hi. assert (i = 0%nat) as -> by lia.
    split; [reflexivity|]. exists [1%nat; 2%nat].
    split; [reflexivity|]. split; [discriminate|simpl; lia].
  - reflexivity.
Defined.

(** C1.  Over a resource of [n] rows served by range-based pagination,
    [fetchAllRows] with a positive page size that the cap of the service
    allows (1000 by default) terminates, after [n / chunkSize + 1]
    requests, and returns exactly the rows of the resource in the order
    of the service.  The offsets of its requests are 0, [chunkSize],
    2 [chunkSize], ...: every request but the last is answered by a full
    page, after which the offset advances by the page size, and the last
    by a shorter one (empty when [n] is a multiple of the page size),
    at which the loop stops. *)
Theorem fetchAllRows_returns_every_row (Row Err : Type)
    (tables : string -> list Row) (max_rows : Z) (tableName : string)
    (chunkSize : option Z) (fuel : nat) :
  let cs := match chunkSize with Some c => c | None => 1000 end in
  let rows := tables tableName in
  let q := Z.to_nat (Z.of_nat (List.length rows) / cs) in
  0 < cs <= max_rows ->
  (q < fuel)%nat ->
  fetchAllRows fuel (@table_service Row Err tables max_rows) tableName
               chunkSize
  = (expected_requests tableName cs (List.length rows), Some (Normal rows))
  /\ List.length (expected_requests tableName cs (List.length rows)) = S q
  /\ forall k, (k <= q)%nat ->
       Z.of_nat (List.length
         (rows_in_range rows (Z.of_nat k * cs) (Z.of_nat k * cs + cs - 1)))
       = if (k <? q)%nat then cs else Z.of_nat (List.length rows) mod cs.
Proof.
  intros cs rows q Hcs Hfuel. split; [|split].
  - unfold fetchAllRows. fold cs.
    pose proof (@fetch_loop_from_page Row Err tables max_rows cs tableName
                  Hcs fuel 0%nat) as H.
    simpl in H. fold rows q in H.
    rewrite H by lia.
    reflexivity.
  - unfold expected_requests. fold q. now rewrite length_map, length_seq.
  - intros k Hk. now apply page_lengths.
Qed.

(** The resources of 999, 1000 and 1001 rows with the default page
    size. *)
Lemma fetchAllRows_returns_every_row_witness :
  let tables := fun n (_ : string) => seq 0 n in
  (fetchAllRows 2 (@table_service nat unit (tables 999%nat) 1000) "Offer" None
   = (expected_requests "Offer" 1000 999, Some (Normal (seq 0 999))))
  /\ (fetchAllRows 2 (@table_service nat unit (tables 1000%nat) 1000) "Offer"
        None
      = (expected_requests "Offer" 1000 1000, Some (Normal (seq 0 1000))))
  /\ (fetchAllRows 2 (@table_service nat unit (tables 1001%nat) 1000) "Offer"
        None
      = (expected_requests "Offer" 1000 1001, Some (Normal (seq 0 1001)))).
Proof.
  assert (H : forall n : nat, (n < 2000)%nat ->
    fetchAllRows 2 (@table_service nat unit (fun _ => seq 0 n) 1000) "Offer"
                 None
    = (expected_requests "Offer" 1000 n, Some (Normal (seq 0 n)))).
  { intros n Hn.
    pose proof (@fetchAllRows_returns_every_row nat unit (fun _ => seq 0 n)
                  1000 "Offer" None 2) as H.
    cbv beta zeta in H. rewrite length_seq in H.
    apply H; [lia|].
    assert (Z.of_nat n / 1000 < 2) by (apply Z.div_lt_upper_bound; lia).
    pose proof (Z.div_pos (Z.of_nat n) 1000). lia. }
  repeat split; apply H; lia.
Defined.

End BulkFetcherFacts.

(* ================================================================== *)
(** * More properties of the bulk fetcher *)
(* ================================================================== *)

Module FetcherExtras.
Import Js BulkFetcher BulkFetcherFacts Measures.
Local Open Scope Z_scope.

Section Any.
Variables Row Err : Type.
Variable supabase : client Row Err.
Variable t : string.
Variable cs : Z.

Lemma fetch_loop_requests (fuel : nat) :
  forall (allRows : list Row) (from : Z) rqs res,
    fetch_loop fuel supabase t cs allRows from = (rqs, res) ->
    rqs = map (request_at t cs from) (seq 0 (List.length rqs))
    /\ (List.length rqs <= fuel)%nat.
Proof.
  induction fuel as [|fuel IH]; intros allRows from rqs res Hrun.
  - injection Hrun as <- <-. split; [reflexivity|simpl; lia].
  - cbn [fetch_loop] in Hrun.
    assert (H0 : {| range_table := t; range_from := from;
                    range_to := from + cs - 1 |} = request_at t cs from 0).
    { unfold request_at. f_equal; simpl; lia. }
    rewrite H0 in Hrun.
    assert (Hone : (rqs, res) = ([request_at t cs from 0], res) ->
              rqs = map (request_at t cs from) (seq 0 (List.length rqs))
              /\ (List.length rqs <= S fuel)%nat).
    { intros [= ->]. split; [reflexivity|simpl; lia]. }
    destruct (error (supabase t from (from + cs - 1))).
    { injection Hrun as <- <-. now apply Hone. }
    destruct (data (supabase t from (from + cs - 1))) as [d|].
    2:{ injection Hrun as <- <-. now apply Hone. }
    destruct (List.length d =? 0)%nat.
    { injection Hrun as <- <-. now apply Hone. }
    destruct (Z.of_nat (List.length d) <? cs).
    { injection Hrun as <- <-. now apply Hone. }
    destruct (fetch_loop fuel supabase t cs (allRows ++ d) (from + cs))
      as [rqs' res'] eqn:Hrec.
    injection Hrun as <- <-.
    apply IH in Hrec as [Hrqs Hlen]. split; [|simpl; lia].
    cbn [List.length seq map]. f_equal.
    rewrite <- seq_shift, map_map. rewrite Hrqs at 1.
    apply map_ext. intros i. unfold request_at. f_equal; lia.
Qed.

Lemma fetch_loop_pages (fuel : nat) :
  forall (allRows : list Row) (from : Z) rqs rows,
    fetch_loop fuel supabase t cs allRows from = (rqs, Some (Normal rows)) ->
    rows = allRows ++ List.concat (map (page supabase) rqs).
Proof.
  induction fuel as [|fuel IH]; intros allRows from rqs rows Hrun.
  - discriminate.
  - cbn [fetch_loop] in Hrun.
    set (rq := {| range_table := t; range_from := from;
                  range_to := from + cs - 1 |}) in *.
    assert (Hpage : page supabase rq
                    = match data (supabase t from (from + cs - 1)) with
                      | Some d => d
                      | None => []
                      end) by reflexivity.
    destruct (error (supabase t from (from + cs - 1))); [discriminate|].
    destruct (data (supabase t from (from + cs - 1))) as [d|].
    2:{ injection Hrun as <- <-. simpl. rewrite Hpage.
        now rewrite app_nil_r. }
    destruct (Nat.eqb_spec (List.length d) 0) as [Hd|Hd].
    { injection Hrun as <- <-. simpl. rewrite Hpage.
      destruct d; [now rewrite app_nil_r|discriminate]. }
    destruct (Z.of_nat (List.length d) <? cs).
    { injection Hrun as <- <-. simpl. rewrite Hpage.
      now rewrite app_nil_r. }
    destruct (fetch_loop fuel supabase t cs (allRows ++ d) (from + cs))
      as [rqs' res'] eqn:Hrec.
    injection Hrun as <- ->.
    apply IH in Hrec. rewrite Hrec. simpl. rewrite Hpage.
    now rewrite app_assoc.
Qed.

Lemma fetch_loop_endless (fuel : nat) :
  (forall from to, error (supabase t from to) = None
     /\ exists d, data (supabase t from to) = Some d
          /\ d <> [] /\ cs <= Z.of_nat (List.length d)) ->
  forall (allRows : list Row) (from : Z),
    fetch_loop fuel supabase t cs allRows from
    = (map (request_at t cs from) (seq 0 fuel), None).
Proof.
  intros Hfull. induction fuel as [|fuel IH]; intros allRows from.
  - reflexivity.
  - cbn [fetch_loop].
    destruct (Hfull from (from + cs - 1)) as (-> & d & -> & Hd & Hlen).
    destruct (Nat.eqb_spec (List.length d) 0) as [H0|_].
    { destruct d; [congruence|discriminate]. }
    destruct (Z.ltb_spec (Z.of_nat (List.length d)) cs) as [Hlt|_]; [lia|].
    rewrite IH. cbn [seq map]. f_equal. f_equal.
    + unfold request_at. f_equal; simpl; lia.
    + rewrite <- seq_shift, map_map. apply map_ext.
      intros i. unfold request_at. f_equal; lia.
Qed.
End Any.

(** X1.  Whatever the client answers, the requests of [fetchAllRows]
    are the consecutive ranges of [chunkSize] offsets from 0 on: the
    [k]-th request asks for the offsets [k * chunkSize] to
    [k * chunkSize + chunkSize - 1] of the table named, and a run allowed
    [fuel] requests issues at most that many.  This is for a positive
    page size and as long as the offsets stay within the integers that
    binary64 holds exactly, which the ranges requested then do. *)
Theorem fetchAllRows_requests_consecutive_ranges (Row Err : Type)
    (supabase : client Row Err) (tableName : string) (chunkSize : option Z)
    (fuel : nat) :
  let cs := match chunkSize with Some c => c | None => 1000 end in
  let rqs := fst (fetchAllRows fuel supabase tableName chunkSize) in
  0 < cs -> Z.of_nat fuel * cs <= 2 ^ 53 ->
  rqs = map (nth_request tableName cs) (seq 0 (List.length rqs))
  /\ (List.length rqs <= fuel)%nat
  /\ forall rq, In rq rqs ->
       range_table rq = tableName
       /\ 0 <= range_from rq /\ range_to rq = range_from rq + cs - 1
       /\ range_to rq < 2 ^ 53.
Proof.
  intros cs rqs Hcs Hbound. subst rqs. unfold fetchAllRows. fold cs.
  destruct (fetch_loop fuel supabase tableName cs [] 0) as [rqs res] eqn:Hrun.
  apply fetch_loop_requests in Hrun as [Hrqs Hlen]. cbn [fst].
  assert (Heq : rqs = map (nth_request tableName cs)
                          (seq 0 (List.length rqs))).
  { rewrite Hrqs at 1. apply map_ext.
    intros i. unfold request_at, nth_request. f_equal; lia. }
  split; [exact Heq|]. split; [exact Hlen|].
  intros rq Hin. rewrite Heq in Hin.
  apply in_map_iff in Hin as (i & <- & Hi). apply in_seq in Hi.
  cbn [nth_request range_table range_from range_to].
  repeat split; nia.
Qed.

Lemma fetchAllRows_requests_consecutive_ranges_witness :
  fst (fetchAllRows 5 (@table_service nat unit (fun _ => seq 0 5) 1000)
                    "Offer" (Some 2))
  = map (nth_request "Offer" 2)
        (seq 0 (List.length
                  (fst (fetchAllRows 5
                          (@table_service nat unit (fun _ => seq 0 5) 1000)
                          "Offer" (Some 2))))).
Proof.
  apply (@fetchAllRows_requests_consecutive_ranges nat unit
           (@table_service nat unit (fun _ => seq 0 5) 1000)
           "Offer" (Some 2) 5); lia.
Defined.

(** X2.  Whatever the client answers, the rows a run of [fetchAllRows]
    returns are the rows of the answers to its requests, page after
    page in the order of the requests (a [null] page counting as
    empty): nothing is dropped, repeated or reordered on the way. *)
Theorem fetchAllRows_returns_the_pages (Row Err : Type)
    (supabase : client Row Err) (tableName : string) (chunkSize : option Z)
    (fuel : nat) (rows : list Row) :
  snd (fetchAllRows fuel supabase tableName chunkSize) = Some (Normal rows) ->
  rows = List.concat (map (page supabase)
                          (fst (fetchAllRows fuel supabase tableName
                                             chunkSize))).
Proof.
  unfold fetchAllRows.
  destruct (fetch_loop fuel supabase tableName
              match chunkSize with Some c => c | None => 1000 end [] 0)
    as [rqs res] eqn:Hrun.
  cbn [fst snd]. intros ->. now apply fetch_loop_pages in Hrun.
Qed.

Lemma fetchAllRows_returns_the_pages_witness :
  [1; 2; 3; 4; 5]%nat
  = List.concat
      (map (page (@table_service nat unit (fun _ => [1; 2; 3; 4; 5]%nat) 1000))
           (fst (fetchAllRows 5
                   (@table_service nat unit (fun _ => [1; 2; 3; 4; 5]%nat) 1000)
                   "Offer" (Some 2)))).
Proof.
  apply (@fetchAllRows_returns_the_pages nat unit
           (@table_service nat unit (fun _ => [1; 2; 3; 4; 5]%nat) 1000)
           "Offer" (Some 2) 5).
  reflexivity.
Defined.

(** X3.  When the service caps a request below the page size, the first
    page already comes back short, the loop takes it for the last one,
    and [fetchAllRows] returns, after a single request, only the first
    [max_rows] rows of the table: the rows beyond the cap are left out
    without any error. *)
Theorem fetchAllRows_stops_at_a_capped_page (Row Err : Type)
    (tables : string -> list Row) (max_rows : Z) (tableName : string)
    (chunkSize : option Z) (fuel : nat) :
  let cs := match chunkSize with Some c => c | None => 1000 end in
  0 < max_rows < cs ->
  fetchAllRows (S fuel) (@table_service Row Err tables max_rows) tableName
               chunkSize
  = ([nth_request tableName cs 0],
     Some (Normal (firstn (Z.to_nat max_rows) (tables tableName)))).
Proof.
  intros cs Hcap. unfold fetchAllRows. fold cs. cbn [fetch_loop].
  unfold table_service at 1 2. cbn [data error].
  assert (Hpage : firstn (Z.to_nat max_rows)
                         (rows_in_range (tables tableName) 0 (0 + cs - 1))
                  = firstn (Z.to_nat max_rows) (tables tableName)).
  { unfold rows_in_range.
    destruct (Z.ltb_spec (0 + cs - 1) 0) as [Hlt|_]; [lia|].
    cbn [Z.to_nat skipn]. rewrite firstn_firstn. f_equal. lia. }
  rewrite Hpage.
  assert (Hrq : {| range_table := tableName; range_from := 0;
                   range_to := 0 + cs - 1 |} = nth_request tableName cs 0).
  { unfold nth_request. f_equal; simpl; lia. }
  rewrite Hrq.
  set (d := firstn (Z.to_nat max_rows) (tables tableName)).
  assert (Hd : (List.length d <= Z.to_nat max_rows)%nat)
    by (subst d; rewrite length_firstn; lia).
  destruct (Nat.eqb_spec (List.length d) 0) as [H0|_].
  { destruct d; [reflexivity|discriminate]. }
  destruct (Z.ltb_spec (Z.of_nat (List.length d)) cs) as [_|Hge]; [|lia].
  reflexivity.
Qed.

Lemma fetchAllRows_stops_at_a_capped_page_witness :
  fetchAllRows 3 (@table_service nat unit (fun _ => seq 0 1500) 500) "Offer"
               None
  = ([nth_request "Offer" 1000 0], Some (Normal (firstn 500 (seq 0 1500)))).
Proof.
  apply (@fetchAllRows_stops_at_a_capped_page nat unit (fun _ => seq 0 1500)
           500 "Offer" None 2).
  lia.
Defined.

(** X4.  The loop has no bound of its own.  Against a client that
    answers every request without an error and with a page that is not
    empty and not shorter than the page size, [fetchAllRows] never
    returns: however many requests it is allowed, it has issued them all
    and is still running. *)
Theorem fetchAllRows_runs_on_full_pages (Row Err : Type)
    (supabase : client Row Err) (tableName : string) (chunkSize : option Z)
    (fuel : nat) :
  let cs := match chunkSize with Some c => c | None => 1000 end in
  (forall from to,
     error (supabase tableName from to) = None
     /\ exists d, data (supabase tableName from to) = Some d
          /\ d <> [] /\ cs <= Z.of_nat (List.length d)) ->
  fetchAllRows fuel supabase tableName chunkSize
  = (map (nth_request tableName cs) (seq 0 fuel), None).
Proof.
  intros cs Hfull. unfold fetchAllRows. fold cs.
  rewrite (@fetch_loop_endless _ _ supabase tableName cs fuel Hfull).
  reflexivity.
Qed.

Lemma fetchAllRows_runs_on_full_pages_witness :
  fetchAllRows 4 endless "Offer" (Some 2)
  = (map (nth_request "Offer" 2) (seq 0 4), None).
Proof.
  apply (@fetchAllRows_runs_on_full_pages nat string endless "Offer"
           (Some 2) 4).
  intros from to. split; [reflexivity|].
  exists [1%nat; 2%nat]. split; [reflexivity|].
  split; [discriminate|simpl; lia].
Defined.

End FetcherExtras.

(* ================================================================== *)
(** * Properties of the loading effect *)
(* ================================================================== *)

Module LoadingFacts.
Import Js BulkFetcher BulkFetcherFacts Home Measures Examples.
Local Open Scope Z_scope.

Lemma fetchAllRows_table_service (Row Err : Type)
    (tables : string -> list Row) (max_rows : Z) (t : string) (fuel : nat) :
  1000 <= max_rows ->
  (Z.to_nat (Z.of_nat (List.length (tables t)) / 1000) < fuel)%nat ->
  snd (fetchAllRows fuel (@table_service Row Err tables max_rows) t None)
  = Some (Normal (tables t)).
Proof.
  intros Hcap Hfuel. unfold fetchAllRows.
  pose proof (@fetch_loop_from_page Row Err tables max_rows 1000 t
                ltac:(lia) fuel 0%nat) as H.
  cbv zeta in H. cbn [Nat.mul firstn Z.of_nat] in H.
  rewrite H by lia. reflexivity.
Qed.

(** X5.  Against a service whose cap allows the default page size,
    once both fetches have had the requests they need, the effect has
    put every row of the table [Offer] into [placements], in the order
    of the service, the campus and the students of every row of
    [Campus_Data] into [campusStats], and has ended the loading. *)
Theorem fetchData_loads_both_tables (Row Err : Type)
    (as_campus : Row -> CampusRow.t) (tables : string -> list Row)
    (max_rows : Z) (fuel : nat) :
  1000 <= max_rows ->
  (Z.to_nat (Z.of_nat (List.length (tables "Offer")) / 1000) < fuel)%nat ->
  (Z.to_nat (Z.of_nat (List.length (tables "Campus_Data")) / 1000) < fuel)%nat ->
  fetchData as_campus fuel (@table_service Row Err tables max_rows)
  = {| placements := tables "Offer";
       campusStats := stats_of as_campus (tables "Campus_Data");
       loading := false |}.
Proof.
  intros Hcap Ho Hc. unfold fetchData.
  rewrite !fetchAllRows_table_service by assumption. reflexivity.
Qed.

Lemma fetchData_loads_both_tables_witness :
  fetchData (fun n : nat => {| CampusRow.Campus := Some "Vellore";
                               CampusRow.Students := Some (Z.of_nat n) |})
            3 (@table_service nat unit (fun _ => seq 0 1200) 1000)
  = {| placements := seq 0 1200;
       campusStats :=
         stats_of (fun n : nat => {| CampusRow.Campus := Some "Vellore";
                                     CampusRow.Students := Some (Z.of_nat n) |})
                  (seq 0 1200);
       loading := false |}.
Proof.
  apply (@fetchData_loads_both_tables nat unit _ (fun _ => seq 0 1200) 1000 3).
  - lia.
  - rewrite length_seq. vm_compute. lia.
  - rewrite length_seq. vm_compute. lia.
Defined.

(** X6.  The load is all or nothing.  Read off the answers of the
    client: when, for either table, the requests at the offsets 0, 1000,
    ... before the [k]-th are answered by pages that let the loop go on
    and the [k]-th by an error, the effect ends the loading with
    [placements] and [campusStats] both empty, whatever the pages
    before and the other fetch have brought; and whenever one of the
    two is not empty after the effect, both fetches have returned, the
    two hold what they returned, and no request of either fetch was
    answered with an error. *)
Theorem fetchData_all_or_nothing (Row Err : Type)
    (as_campus : Row -> CampusRow.t) (supabase : client Row Err)
    (fuel : nat) :
  (forall tableName k e,
     tableName = "Offer"%string \/ tableName = "Campus_Data"%string ->
     (k < fuel)%nat ->
     (forall i, (i < k)%nat ->
        goes_on supabase 1000 (nth_request tableName 1000 i)) ->
     error (answer supabase (nth_request tableName 1000 k)) = Some e ->
     fetchData as_campus fuel supabase
     = {| placements := []; campusStats := []; loading := false |})
  /\ (placements (fetchData as_campus fuel supabase) <> []
      \/ campusStats (fetchData as_campus fuel supabase) <> [] ->
      exists offers campuses ko kc,
        fetchAllRows fuel supabase "Offer" None
        = (map (nth_request "Offer" 1000) (seq 0 (S ko)),
           Some (Normal offers))
        /\ fetchAllRows fuel supabase "Campus_Data" None
           = (map (nth_request "Campus_Data" 1000) (seq 0 (S kc)),
              Some (Normal campuses))
        /\ (forall i, (i <= ko)%nat ->
              error (answer supabase (nth_request "Offer" 1000 i)) = None)
        /\ (forall i, (i <= kc)%nat ->
              error (answer supabase (nth_request "Campus_Data" 1000 i))
              = None)
        /\ fetchData as_campus fuel supabase
           = {| placements := offers;
                campusStats := stats_of as_campus campuses;
                loading := false |}).
Proof.
  assert (Hnth : forall t i, request_at t 1000 0 i = nth_request t 1000 i)
    by reflexivity.
  assert (Hclean : forall t k,
            (forall i, (i < k)%nat ->
               goes_on supabase 1000 (request_at t 1000 0 i)) ->
            ends_on supabase 1000 (request_at t 1000 0 k) ->
            forall i, (i <= k)%nat ->
              error (answer supabase (nth_request t 1000 i)) = None).
  { intros t k Hon Hend i Hi. destruct (Nat.eq_dec i k) as [->|Hne].
    - exact (proj1 Hend).
    - exact (proj1 (Hon i ltac:(lia))). }
  split.
  - intros tableName k e Ht Hk Hon He. unfold fetchData, fetchAllRows.
    pose proof (@fetch_loop_throws _ _ supabase tableName 1000 k fuel [] 0 e
                  Hk Hon He) as Hrun.
    destruct Ht as [-> | ->]; rewrite Hrun; cbn [snd]; [reflexivity|].
    destruct (snd (fetch_loop fuel supabase "Offer" 1000 [] 0))
      as [[offers|e1]|]; reflexivity.
  - unfold fetchData, fetchAllRows.
    destruct (fetch_loop fuel supabase "Offer" 1000 [] 0)
      as [rqs1 res1] eqn:H1.
    destruct (fetch_loop fuel supabase "Campus_Data" 1000 [] 0)
      as [rqs2 res2] eqn:H2.
    cbn [fst snd]. intros Hne.
    destruct res1 as [[offers|e1]|], res2 as [[campuses|e2]|];
      cbn in Hne; try (destruct Hne as [Hne|Hne]; now contradiction Hne).
    apply fetch_loop_run in H1 as (ko & _ & -> & Hon1 & Hend1 & _).
    apply fetch_loop_run in H2 as (kc & _ & -> & Hon2 & Hend2 & _).
    exists offers, campuses, ko, kc.
    split; [reflexivity|]. split; [reflexivity|].
    split; [now apply Hclean|]. split; [now apply Hclean|reflexivity].
Qed.

Lemma fetchData_all_or_nothing_witness :
  fetchData (fun n : nat => {| CampusRow.Campus := None;
                               CampusRow.Students := Some (Z.of_nat n) |})
            5 failing_later_page
  = {| placements := []; campusStats := []; loading := false |}.
Proof.
  destruct (fetchData_all_or_nothing
              (fun n : nat => {| CampusRow.Campus := None;
                                 CampusRow.Students := Some (Z.of_nat n) |})
              failing_later_page 5) as [H _].
  apply (H "Offer"%string 1%nat "timeout"%string).
  - now left.
  - lia.
  - intros i Hi. assert (i = 0%nat) as -> by lia.
    split; [reflexivity|]. exists (seq 0 1000).
    split; [reflexivity|]. split; [discriminate|].
    rewrite length_seq. lia.
  - reflexivity.
Defined.

End LoadingFacts.

(* ================================================================== *)
(** * More properties of the grouping loops *)
(* ================================================================== *)

Module GroupingExtras.
Import Js JsFacts Aggregator Reference Home Measures GroupingFacts.

(** ** Groups of a list *)

Lemma filter_split_Permutation {A : Type} (f : A -> bool) (l : list A) :
  Permutation (filter f l ++ filter (fun a => negb (f a)) l) l.
Proof.
  induction l as [|a l IH]; simpl; [reflexivity|].
  destruct (f a); simpl.
  - now constructor.
  - rewrite <- Permutation_middle. now constructor.
Qed.

(** The groups of the keys of a list, taken once each, make up the
    list. *)
Lemma groups_partition {P : Type} (key : P -> string) (ks : list string) :
  NoDup ks ->
  forall ps : list P,
    (forall p, In p ps -> In (key p) ks) ->
    Permutation
      (List.concat (map (fun k => filter (fun p => key p =? k) ps) ks)) ps.
Proof.
  induction 1 as [|k ks Hk Hnd IH]; intros ps Hps.
  - destruct ps as [|p ps]; [reflexivity|].
    destruct (Hps p (or_introl eq_refl)).
  - cbn [map List.concat].
    set (rest := filter (fun p => negb (key p =? k)) ps).
    assert (Hrest : map (fun k' => filter (fun p => key p =? k') ps) ks
                    = map (fun k' => filter (fun p => key p =? k') rest) ks).
    { apply map_ext_in. intros k' Hk'. subst rest.
      rewrite FilterFacts.filter_filter. apply filter_ext. intros p.
      destruct (String.eqb_spec (key p) k') as [->|Hne]; simpl.
      - destruct (String.eqb_spec k' k) as [->|_]; [contradiction|reflexivity].
      - now rewrite andb_false_r. }
    rewrite Hrest, IH.
    + apply filter_split_Permutation.
    + intros p Hp. subst rest. apply filter_In in Hp as [Hp Hne].
      destruct (Hps p Hp) as [Heq|Hin]; [|assumption].
      rewrite <- Heq, String.eqb_refl in Hne. discriminate.
Qed.

Lemma list_sum_Permutation (l l' : list nat) :
  Permutation l l' -> list_sum l = list_sum l'.
Proof. induction 1; simpl; lia. Qed.

Lemma groups_sizes {P : Type} (key : P -> string) (ks : list string)
    (ps : list P) :
  NoDup ks -> (forall p, In p ps -> In (key p) ks) ->
  list_sum (map (fun k => List.length (filter (fun p => key p =? k) ps)) ks)
  = List.length ps.
Proof.
  intros Hnd Hps.
  rewrite <- (Permutation_length (groups_partition key Hnd ps Hps)).
  rewrite length_concat, map_map. reflexivity.
Qed.

(** ** The order of the keys *)

Lemma mem_In (k : string) (l : list string) : mem k l = true <-> In k l.
Proof.
  unfold mem. rewrite existsb_exists. split.
  - intros (x & Hx & Heq). apply String.eqb_eq in Heq. now subst.
  - intros Hin. exists k. split; [assumption|apply String.eqb_refl].
Qed.

Lemma mem_app (k : string) (l l' : list string) :
  mem k (l ++ l') = mem k l || mem k l'.
Proof. unfold mem. apply existsb_app. Qed.

Lemma filter_new_remove_seen (K : list string) (k : string)
    (l : list string) :
  mem k K = true ->
  filter (fun x => negb (mem x K)) (remove string_dec k l)
  = filter (fun x => negb (mem x K)) l.
Proof.
  intros Hk. induction l as [|x l IH]; simpl; [reflexivity|].
  destruct (string_dec k x) as [<-|Hne].
  - now rewrite Hk.
  - simpl. now rewrite IH.
Qed.

Lemma filter_new_remove_fresh (K : list string) (k : string)
    (l : list string) :
  filter (fun x => negb (mem x (K ++ [k]))) l
  = filter (fun x => negb (mem x K)) (remove string_dec k l).
Proof.
  induction l as [|x l IH]; simpl; [reflexivity|].
  rewrite mem_app. unfold mem at 2. simpl. rewrite orb_false_r.
  destruct (string_dec k x) as [<-|Hne].
  - rewrite String.eqb_refl, orb_true_r. simpl. exact IH.
  - destruct (String.eqb_spec x k) as [->|_]; [congruence|].
    rewrite orb_false_r. simpl. now rewrite IH.
Qed.

Section KeyOrder.
Variables (P R : Type).
Variable key : P -> string.
Variable body : state R -> P -> completion error (state R).
Variable Inv : state R -> Prop.
Variable Q : P -> Prop.

(** A loop whose body writes the record under the key of each element
    creates the keys in the order of their first occurrence. *)
Lemma forEach_key_order :
  (forall s p, Inv s -> Q p ->
     exists r, body s p = Normal (fst s, set_own (snd s) (key p) r)
               /\ Inv (fst s, set_own (snd s) (key p) r)) ->
  forall ps s, Inv s -> Forall Q ps ->
    exists s', forEach body ps s = Normal s'
      /\ map fst (snd s')
         = map fst (snd s)
           ++ filter (fun k => negb (mem k (map fst (snd s))))
                     (distinct string_dec (map key ps)).
Proof.
  intros Hbody. induction ps as [|p ps IH]; intros s Hs HQ.
  - exists s. split; [reflexivity|]. simpl. now rewrite app_nil_r.
  - inversion HQ as [|? ? Hp HQ']; subst.
    destruct (Hbody s p Hs Hp) as (r & Hstep & Hs1).
    destruct (IH _ Hs1 HQ') as (s' & Hrun & Hkeys).
    exists s'. cbn [forEach]. rewrite Hstep. cbn [bind].
    split; [exact Hrun|]. rewrite Hkeys. cbn [snd map distinct filter].
    rewrite keys_set_own.
    destruct (get_own (snd s) (key p)) as [r0|] eqn:E.
    + assert (Hin : mem (key p) (map fst (snd s)) = true).
      { apply mem_In.
        destruct (in_dec string_dec (key p) (map fst (snd s))) as [H|H];
          [assumption|].
        apply get_own_None in H. congruence. }
      rewrite Hin. cbn [negb]. now rewrite filter_new_remove_seen.
    + assert (Hnin : mem (key p) (map fst (snd s)) = false).
      { apply not_true_is_false. intros H. apply mem_In in H.
        now apply get_own_None in E. }
      rewrite Hnin. cbn [negb].
      rewrite <- app_assoc. cbn [app]. now rewrite filter_new_remove_fresh.
Qed.
End KeyOrder.

(** ** Companies named after members of [Object.prototype] *)

Lemma inherited_method (R : Type) (pr : prototype) (k : string) :
  mem k Object_prototype_methods = true -> @inherited R pr k = Method.
Proof.
  intros Hk. unfold inherited.
  destruct (String.eqb_spec k "__proto__") as [->|_]; [discriminate Hk|].
  now rewrite Hk.
Qed.

Lemma ensure_method (R : Type) (s : state R) (k : string) (fresh : R) :
  mem k Object_prototype_methods = true -> get_own (snd s) k = None ->
  ensure s k fresh = s.
Proof.
  intros Hk Hown. unfold ensure, get.
  now rewrite Hown, (inherited_method _ _ _ Hk).
Qed.

Lemma assign_method (R : Type) (s : state R) (k : string)
    (f : R -> R) (g : prototype -> prototype) :
  mem k Object_prototype_methods = true -> get_own (snd s) k = None ->
  assign s k f g = Normal s.
Proof.
  intros Hk Hown. unfold assign, get.
  now rewrite Hown, (inherited_method _ _ _ Hk).
Qed.

Section Methods.
Variable toLocaleString : Date -> string.

(** On an offer named after a method, every statement of the body
    finds the method under the key: no record is made, and the writes go
    to the method. *)
Lemma companyStats_body_method (s : state CompanyStat.t) (p : Offer.t) :
  is_method p = true -> get_own (snd s) (comp p) = None ->
  companyStats_body toLocaleString s p = Normal s.
Proof.
  intros Hm Hown. unfold companyStats_body.
  rewrite ensure_method by (exact Hm || exact Hown).
  rewrite assign_method by (exact Hm || exact Hown). cbn [bind].
  rewrite assign_method by (exact Hm || exact Hown). cbn [bind].
  apply assign_method; [exact Hm|exact Hown].
Qed.

Lemma companyStats_body_no_method_key (s s' : state CompanyStat.t)
    (p : Offer.t) :
  no_method_key s -> companyStats_body toLocaleString s p = Normal s' ->
  no_method_key s'.
Proof.
  intros Hs Hrun k Hk.
  destruct (is_method p) eqn:Hm.
  - rewrite (companyStats_body_method s p Hm (Hs _ Hm)) in Hrun.
    injection Hrun as <-. now apply Hs.
  - rewrite (@companyStats_body_other toLocaleString s s' p k Hrun).
    + now apply Hs.
    + intros Heq. unfold is_method in Hm. congruence.
Qed.

Lemma forEach_without_methods (ps : list Offer.t) :
  forall s, no_method_key s ->
    forEach (companyStats_body toLocaleString) ps s
    = forEach (companyStats_body toLocaleString)
              (filter (fun p => negb (is_method p)) ps) s.
Proof.
  induction ps as [|p ps IH]; intros s Hs; [reflexivity|].
  cbn [forEach filter]. destruct (is_method p) eqn:Hm; cbn [negb].
  - rewrite (companyStats_body_method s p Hm (Hs _ Hm)). cbn [bind].
    now apply IH.
  - cbn [forEach].
    destruct (companyStats_body toLocaleString s p) as [s1|e] eqn:Hstep;
      [|reflexivity].
    cbn [bind]. apply IH.
    eapply companyStats_body_no_method_key; eassumption.
Qed.
End Methods.

(** X7.  An offer whose company is the name of a method of
    [Object.prototype] ("constructor", "toString", "valueOf", ...)
    leaves no trace in [companyStats]: in every state of
    [Object.prototype] the result, records or exception, is the one for
    the offers without those, and no record returned carries such a
    name. *)
Theorem companyStats_ignores_method_names (toLocaleString : Date -> string)
    (pr : prototype) (placements : list Offer.t) :
  companyStats toLocaleString pr placements
  = companyStats toLocaleString pr
      (filter (fun p => negb (is_method p)) placements)
  /\ forall l, companyStats toLocaleString pr placements = Normal l ->
       forall r, In r l ->
         mem (CompanyStat.company r) Object_prototype_methods = false.
Proof.
  assert (H0 : no_method_key (pr, @nil (string * CompanyStat.t)))
    by (intros k _; reflexivity).
  split.
  - unfold companyStats, companyStats_scan.
    now rewrite forEach_without_methods.
  - intros l Hrun r Hr. unfold companyStats in Hrun.
    apply bind_Normal in Hrun as (s & Hscan & [= <-]).
    pose proof (companyStats_scan_keyed _ _ _ Hscan) as Hk.
    assert (Hs : no_method_key s).
    { unfold companyStats_scan in Hscan.
      apply (forEach_invariant (companyStats_body toLocaleString)
               no_method_key) with (3 := Hscan); [|exact H0].
      intros s0 p s1. apply companyStats_body_no_method_key. }
    apply In_values in Hr as [k Hin].
    pose proof (proj2 Hk k r Hin) as Hname.
    apply In_get_own in Hin; [|exact (proj1 Hk)].
    destruct (mem (CompanyStat.company r) Object_prototype_methods) eqn:Hm;
      [|reflexivity].
    rewrite Hname in Hm. rewrite (Hs k Hm) in Hin. discriminate.
Qed.

(** ** Every offer is counted once *)

Lemma offers_without_methods_usable (ps : list Offer.t) :
  (forall p, In p ps -> comp p <> "__proto__") ->
  forall p, In p (filter (fun p => negb (is_method p)) ps) ->
    ~ In (comp p) Object_prototype_names.
Proof.
  intros Hps p Hp. apply filter_In in Hp as [Hp Hm].
  intros [Heq|Hin].
  - now apply (Hps p Hp).
  - apply mem_In in Hin. unfold is_method in Hm. now rewrite Hin in Hm.
Qed.

Lemma company_totals_sum (toLocaleString : Date -> string)
    (ps : list Offer.t) (s : state CompanyStat.t) :
  well_keyed CompanyStat.company (snd s) ->
  (forall k, get_own (snd s) k = summary toLocaleString k ps) ->
  list_sum (map CompanyStat.total (values (snd s))) = List.length ps.
Proof.
  intros Hk Hget.
  rewrite (list_sum_Permutation
             (Permutation_map CompanyStat.total (values_Permutation (snd s)))).
  assert (Htot : map CompanyStat.total (map snd (snd s))
                 = map (fun k => List.length
                                   (filter (fun p => comp p =? k) ps))
                       (map fst (snd s))).
  { rewrite !map_map. apply map_ext_in. intros [k r] Hin. cbn [fst snd].
    apply In_get_own in Hin; [|exact (proj1 Hk)].
    rewrite Hget in Hin. unfold summary in Hin.
    destruct (first_offer k ps); [|discriminate].
    destruct (last_offer k ps); [|discriminate].
    injection Hin as <-. reflexivity. }
  rewrite Htot. apply groups_sizes; [exact (proj1 Hk)|].
  intros p Hp.
  destruct (in_dec string_dec (comp p) (map fst (snd s))) as [H|H];
    [assumption|].
  exfalso. apply get_own_None in H. rewrite Hget in H.
  apply (summary_Some_iff toLocaleString (comp p) ps); [|exact H].
  now apply in_map.
Qed.

(** X8.  On a fresh page, when no offer is named "__proto__",
    [companyStats] returns, and the [total]s of its records add up to
    the number of the offers that are not named after a method of
    [Object.prototype]: every such offer is counted in exactly one
    record.  Without offers named after a method the [total]s add up to
    the number of offers. *)
Theorem companyStats_totals_add_up (toLocaleString : Date -> string)
    (placements : list Offer.t) :
  (forall p, In p placements -> comp p <> "__proto__") ->
  exists l,
    companyStats toLocaleString pristine placements = Normal l
    /\ list_sum (map CompanyStat.total l)
       = List.length (filter (fun p => negb (is_method p)) placements)
    /\ ((forall p, In p placements -> is_method p = false) ->
        list_sum (map CompanyStat.total l) = List.length placements).
Proof.
  intros Hps.
  set (ps := filter (fun p => negb (is_method p)) placements).
  destruct (companyStats_scan_pristine toLocaleString ps
              (offers_without_methods_usable placements Hps))
    as (s & Hrun & Hget).
  pose proof (companyStats_scan_keyed _ _ _ Hrun) as Hk.
  exists (values (snd s)).
  assert (Hsum : list_sum (map CompanyStat.total (values (snd s)))
                 = List.length ps)
    by now apply (company_totals_sum toLocaleString).
  split; [|split].
  - unfold companyStats, companyStats_scan.
    rewrite forEach_without_methods by (intros k _; reflexivity).
    fold ps. unfold companyStats_scan in Hrun. now rewrite Hrun.
  - exact Hsum.
  - intros Hnone. rewrite Hsum. subst ps. f_equal.
    rewrite <- (filter_ext_in (fun _ => true)).
    + clear. induction placements as [|x l IH]; simpl; congruence.
    + intros p Hp. now rewrite (Hnone p Hp).
Qed.

Lemma companyStats_totals_add_up_witness :
  exists l,
    companyStats Examples.en_US pristine mixed_offers = Normal l
    /\ list_sum (map CompanyStat.total l)
       = List.length (filter (fun p => negb (is_method p)) mixed_offers)
    /\ ((forall p, In p mixed_offers -> is_method p = false) ->
        list_sum (map CompanyStat.total l) = List.length mixed_offers).
Proof.
  apply (companyStats_totals_add_up Examples.en_US mixed_offers).
  intros p Hp. repeat (destruct Hp as [<-|Hp]; [discriminate|]). destruct Hp.
Defined.

(** ** The offers behind a company card *)

Lemma comp_eqb_split (p : Offer.t) (k : string) :
  k <> "" ->
  (comp p =? k)
  = strict_equal (Offer.company p) k
    || ((k =? "Unknown") && missing_company p).
Proof.
  intros Hk. unfold comp, missing_company, strict_equal.
  destruct (Offer.company p) as [[|c s]|]; cbn [truthy_string negb].
  - destruct (String.eqb_spec "" k) as [<-|_]; [congruence|].
    rewrite andb_true_r. cbn [orb]. apply String.eqb_sym.
  - now rewrite andb_false_r, orb_false_r.
  - rewrite andb_true_r. cbn [orb]. apply String.eqb_sym.
Qed.

Lemma length_filter_either {A : Type} (f g : A -> bool) (l : list A) :
  (forall x, f x = true -> g x = true -> False) ->
  List.length (filter (fun x => f x || g x) l)
  = List.length (filter f l) + List.length (filter g l).
Proof.
  intros Hex. induction l as [|x l IH]; simpl; [reflexivity|].
  destruct (f x) eqn:Hf, (g x) eqn:Hg; simpl; try lia.
  destruct (Hex x Hf Hg).
Qed.

(** X9.  A company card shows [total] and, under it, the branches of
    the offers [placements.filter((p) => p.company === c.company)].  On
    a fresh page without offers named after members of
    [Object.prototype], the two agree for every company but "Unknown":
    there [total] also counts the offers that have no company or an
    empty one, which the filter of the card does not find. *)
Theorem company_card_offers (toLocaleString : Date -> string)
    (placements : list Offer.t) :
  (forall p, In p placements -> ~ In (comp p) Object_prototype_names) ->
  exists l,
    companyStats toLocaleString pristine placements = Normal l
    /\ forall r, In r l ->
         CompanyStat.total r
         = List.length (companyPlacements placements r)
           + (if CompanyStat.company r =? "Unknown"
              then List.length (filter missing_company placements)
              else 0).
Proof.
  intros Hps.
  destruct (companyStats_scan_pristine toLocaleString placements Hps)
    as (s & Hrun & Hget).
  pose proof (companyStats_scan_keyed _ _ _ Hrun) as Hk.
  exists (values (snd s)). unfold companyStats. rewrite Hrun.
  split; [reflexivity|].
  intros r Hr. apply In_values in Hr as [k Hin].
  pose proof (proj2 Hk k r Hin) as Hname.
  apply In_get_own in Hin; [|exact (proj1 Hk)].
  rewrite Hget in Hin.
  assert (Hne : k <> "").
  { intros ->. apply (f_equal (fun x => match x with Some _ => true
                                        | None => false end)) in Hin.
    assert (Hsome : summary toLocaleString "" placements <> None)
      by (intros H; now rewrite H in Hin).
    apply summary_Some_iff in Hsome. apply in_map_iff in Hsome as (p & Hp & _).
    unfold comp in Hp. destruct (Offer.company p) as [[|c s0]|]; discriminate. }
  unfold summary in Hin.
  destruct (first_offer k placements); [|discriminate].
  destruct (last_offer k placements); [|discriminate].
  injection Hin as <-. cbn [CompanyStat.total CompanyStat.company].
  unfold count, offers_of, companyPlacements. cbn [CompanyStat.company].
  rewrite (filter_ext _ _ (fun p => comp_eqb_split p Hne)).
  rewrite length_filter_either.
  - f_equal. destruct (k =? "Unknown"); cbn [andb].
    + reflexivity.
    + clear. induction placements as [|x l IH]; simpl; congruence.
  - intros p Hs Hm. apply andb_true_iff in Hm as [_ Hm].
    unfold strict_equal, missing_company in *.
    destruct (Offer.company p) as [x|]; [|discriminate].
    apply String.eqb_eq in Hs. subst x.
    destruct k; [congruence|discriminate].
Qed.

Lemma company_card_offers_witness :
  exists l,
    companyStats Examples.en_US pristine named_offers = Normal l
    /\ forall r, In r l ->
         CompanyStat.total r
         = List.length (companyPlacements named_offers r)
           + (if CompanyStat.company r =? "Unknown"
              then List.length (filter missing_company named_offers)
              else 0).
Proof.
  apply (company_card_offers Examples.en_US named_offers).
  intros p Hp.
  repeat (destruct Hp as [<-|Hp]; [vm_compute; intuition discriminate|]).
  destruct Hp.
Defined.

(** ** A company named "__proto__" *)

Lemma getCtcRange_truthy (n : number) : truthy_string (getCtcRange n) = true.
Proof.
  unfold getCtcRange.
  repeat match goal with
         | |- context [if ?b then _ else _] => destruct b
         end; reflexivity.
Qed.

Section Proto.
Variable toLocaleString : Date -> string.

(** Offers with unreserved names are grouped whatever [Object.prototype]
    holds, and leave it and the reserved keys as they are. *)
Lemma forEach_unreserved (ps : list Offer.t) :
  (forall o, In o ps -> ~ In (comp o) reserved) ->
  forall s, exists s',
    forEach (companyStats_body toLocaleString) ps s = Normal s'
    /\ fst s' = fst s
    /\ forall k, In k reserved -> get_own (snd s') k = get_own (snd s) k.
Proof.
  induction ps as [|o ps IH]; intros Hps s.
  - exists s. now repeat split.
  - assert (Ho : ~ In (comp o) reserved) by (apply Hps; now left).
    assert (Hu : usable s (comp o)).
    { right. now rewrite inherited_Undefined. }
    destruct (IH (fun x Hx => Hps x (or_intror Hx))
                 (fst s, set_own (snd s) (comp o)
                    (upd_company o (or_fresh (get_own (snd s) (comp o))
                                     (fresh_company toLocaleString o)))))
      as (s' & Hrun & Hpr & Hkeep).
    exists s'. cbn [forEach].
    rewrite (companyStats_body_usable toLocaleString o Hu). cbn [bind].
    split; [exact Hrun|]. split; [exact Hpr|].
    intros k Hk. rewrite (Hkeep k Hk). cbn [snd].
    apply get_own_set_own_other. intros Heq. now subst.
Qed.

Lemma assign_proto (R : Type) (s : state R) (on_record : R -> R)
    (on_prototype : prototype -> prototype) :
  get_own (snd s) "__proto__" = None ->
  assign s "__proto__" on_record on_prototype
  = Normal (on_prototype (fst s), snd s).
Proof. intros Hown. unfold assign, get. now rewrite Hown. Qed.

Lemma ensure_proto (R : Type) (s : state R) (fresh : R) :
  ensure s "__proto__" fresh = s.
Proof.
  unfold ensure, get. now destruct (get_own (snd s) "__proto__").
Qed.

(** The offer named "__proto__" writes its bucket onto
    [Object.prototype]. *)
Lemma companyStats_body_proto (s : state CompanyStat.t) (p : Offer.t) :
  comp p = "__proto__" -> get_own (snd s) "__proto__" = None ->
  exists pr',
    companyStats_body toLocaleString s p = Normal (pr', snd s)
    /\ proto_ctcRange pr' = Some (getCtcRange (or_zero (Offer.ctc p))).
Proof.
  intros Hp Hown. unfold companyStats_body. rewrite Hp.
  rewrite ensure_proto, assign_proto by exact Hown. cbn [bind].
  rewrite assign_proto by exact Hown. cbn [bind].
  rewrite assign_proto by exact Hown.
  eexists. split; reflexivity.
Qed.

(** With a bucket on [Object.prototype], a company first seen under the
    name "ctcRange" finds that string instead of a record. *)
Lemma companyStats_body_ctcRange (s : state CompanyStat.t) (q : Offer.t)
    (range : string) :
  comp q = "ctcRange" -> get_own (snd s) "ctcRange" = None ->
  proto_ctcRange (fst s) = Some range -> truthy_string range = true ->
  companyStats_body toLocaleString s q = Throw TypeError.
Proof.
  intros Hq Hown Hpr Hrange. unfold companyStats_body. rewrite Hq.
  assert (Hget : get s "ctcRange" = @String_ _ range).
  { unfold get, inherited. rewrite Hown, Hpr. reflexivity. }
  unfold ensure. rewrite Hget. cbn [truthy]. rewrite Hrange.
  unfold assign. rewrite Hget. reflexivity.
Qed.
End Proto.

(** X10.  An offer of a company named "__proto__" makes the body write
    [total], [ctc] and [ctcRange] onto [Object.prototype].  A company
    named "ctcRange" that is first met after it then finds the bucket
    string where it looks for its record, and incrementing [total] on a
    string throws: [companyStats] ends with a [TypeError], whatever the
    other offers are (as long as those before the second one have
    unreserved names). *)
Theorem companyStats_throws_after_proto (toLocaleString : Date -> string)
    (pr : prototype) (before between rest : list Offer.t) (p q : Offer.t) :
  comp p = "__proto__" -> comp q = "ctcRange" ->
  (forall o, In o (before ++ between) -> ~ In (comp o) reserved) ->
  companyStats toLocaleString pr (before ++ p :: between ++ q :: rest)
  = Throw TypeError.
Proof.
  intros Hp Hq Hothers. unfold companyStats, companyStats_scan.
  rewrite forEach_app.
  destruct (forEach_unreserved toLocaleString before
              (fun o Ho => Hothers o (in_or_app _ _ _ (or_introl Ho)))
              (pr, @nil (string * CompanyStat.t)))
    as (s1 & -> & _ & Hkeep1).
  cbn [bind forEach].
  assert (Hres : forall k, In k ["__proto__"; "ctcRange"] -> In k reserved).
  { intros k Hk. vm_compute. simpl in Hk. intuition. }
  destruct (companyStats_body_proto toLocaleString s1 p Hp)
    as (pr' & -> & Hrange).
  { rewrite Hkeep1; [reflexivity|]. apply Hres. simpl. auto. }
  cbn [bind]. rewrite forEach_app.
  destruct (forEach_unreserved toLocaleString between
              (fun o Ho => Hothers o (in_or_app _ _ _ (or_intror Ho)))
              (pr', snd s1))
    as (s2 & -> & Hpr2 & Hkeep2).
  cbn [bind forEach].
  rewrite (companyStats_body_ctcRange toLocaleString s2 q
             (range := getCtcRange (or_zero (Offer.ctc p)))); trivial.
  - rewrite Hkeep2 by (apply Hres; simpl; auto). cbn [snd].
    rewrite Hkeep1 by (apply Hres; simpl; auto). reflexivity.
  - now rewrite Hpr2.
  - apply getCtcRange_truthy.
Qed.

Lemma companyStats_throws_after_proto_witness :
  companyStats Examples.en_US pristine
    ([offer_of (Some "Acme") None 12 InvalidDate]
     ++ offer_of (Some "__proto__") None 7 InvalidDate
     :: [offer_of None None 3 InvalidDate]
     ++ offer_of (Some "ctcRange") None 9 InvalidDate
     :: [offer_of (Some "Acme") None 1 InvalidDate])
  = Throw TypeError.
Proof.
  apply companyStats_throws_after_proto; [reflexivity|reflexivity|].
  intros o Ho.
  repeat (destruct Ho as [<-|Ho]; [vm_compute; intuition discriminate|]).
  destruct Ho.
Defined.

(** ** [branchStats], record by record *)

Lemma fold_upd_branch (g : list Offer.t) (r : BranchAcc.t) :
  fold_left (fun r p => upd_branch p r) g r
  = {| BranchAcc.branch := BranchAcc.branch r;
       BranchAcc.total := BranchAcc.total r + List.length g;
       BranchAcc.ctcValues := BranchAcc.ctcValues r ++ overall_values g |}.
Proof.
  revert r. induction g as [|p g IH]; intros r; simpl.
  - destruct r. simpl. rewrite app_nil_r. f_equal. lia.
  - rewrite IH. simpl. rewrite <- app_assoc. f_equal. lia.
Qed.

(** What the dictionary holds under a branch code after the loop. *)
Lemma group_fold_branch (k : string) (ps : list Offer.t) :
  group_fold branch_of fresh_branch upd_branch k ps None
  = match offers_in k ps with
    | [] => None
    | _ :: _ =>
        Some {| BranchAcc.branch := k;
                BranchAcc.total := List.length (offers_in k ps);
                BranchAcc.ctcValues := overall_values (offers_in k ps) |}
    end.
Proof.
  rewrite group_fold_None. unfold offers_in.
  destruct (filter (fun p => branch_of p =? k) ps) as [|p0 g] eqn:E;
    [reflexivity|].
  rewrite fold_upd_branch. cbn.
  assert (Hk : branch_of p0 = k).
  { assert (Hin : In p0 (filter (fun p => branch_of p =? k) ps))
      by (rewrite E; now left).
    apply filter_In in Hin as [_ Hin]. now apply String.eqb_eq. }
  unfold branch_of in Hk. now rewrite Hk.
Qed.

Lemma branch_usable (s : state BranchAcc.t) (p : Offer.t) :
  fst s = pristine -> usable s (branch_of p).
Proof.
  intros Hs. right. rewrite Hs, inherited_pristine; [reflexivity|].
  intros Hin. apply prototype_names_long in Hin.
  pose proof (getBranch_short (Offer.reg_no p)). unfold branch_of in Hin. lia.
Qed.

Lemma branchStats_scan_spec (ps : list Offer.t) :
  exists s, branchStats_scan pristine ps = Normal s
    /\ well_keyed BranchAcc.branch (snd s)
    /\ forall k, get_own (snd s) k
         = group_fold branch_of fresh_branch upd_branch k ps None.
Proof.
  destruct (branchStats_scan_total ps) as [s Hrun].
  exists s. split; [exact Hrun|].
  split; [exact (branchStats_scan_keyed _ _ Hrun)|]. intros k.
  apply (@forEach_tracks _ _ branch_of fresh_branch upd_branch
           branchStats_body (fun s => fst s = pristine) (fun _ => True) k)
    with (ps := ps) (s := (pristine, @nil (string * BranchAcc.t)));
    auto.
  - intros s0 p s1 Hs0 _ Hstep.
    rewrite (branchStats_body_usable _ (@branch_usable s0 p Hs0)) in Hstep.
    injection Hstep as <-. split; [exact Hs0|].
    cbn [snd]. unfold group_step, touch. fold (branch_of p).
    rewrite get_own_set_own.
    destruct (String.eqb_spec (branch_of p) k) as [<-|Hne]; reflexivity.
  - apply Forall_forall. intros; exact I.
Qed.

(** X11.  On a fresh page [branchStats] returns, and each of its
    records holds the compensations of the offers that the branch card
    lists under it ([placements.filter((p) => getBranch(p.reg_no) ===
    b.branch)]), in the order of the offers; [total] is their number,
    which is at least one; no value is [NaN]; and the [total]s add up
    to the number of offers. *)
Theorem branchStats_collects_each_branch {B : Binary64}
    (placements : list Offer.t) :
  exists l,
    branchStats pristine placements = Normal l
    /\ (forall b, In b l ->
          BranchStat.ctcValues b
          = overall_values (branchPlacements placements b)
          /\ BranchStat.total b
             = List.length (branchPlacements placements b)
          /\ 0 < BranchStat.total b
          /\ Forall (fun v => v <> NaN) (BranchStat.ctcValues b))
    /\ list_sum (map BranchStat.total l) = List.length placements.
Proof.
  destruct (branchStats_scan_spec placements) as (s & Hrun & Hk & Hget).
  exists (map with_stats (values (snd s))).
  unfold branchStats. rewrite Hrun. split; [reflexivity|]. split.
  - intros b Hb. apply in_map_iff in Hb as (acc & <- & Hacc).
    apply In_values in Hacc as [k Hin].
    apply In_get_own in Hin; [|exact (proj1 Hk)].
    rewrite Hget, group_fold_branch in Hin.
    destruct (offers_in k placements) as [|p0 g] eqn:E; [discriminate|].
    injection Hin as <-.
    unfold branchPlacements.
    cbn [with_stats BranchStat.ctcValues BranchStat.total BranchStat.branch
         BranchAcc.ctcValues BranchAcc.total BranchAcc.branch].
    change (filter (fun p => getBranch (Offer.reg_no p) =? k) placements)
      with (offers_in k placements).
    rewrite E. repeat split.
    + simpl. lia.
    + apply Forall_forall. intros v Hv.
      change (In v (map (fun p => or_zero (Offer.ctc p)) (p0 :: g))) in Hv.
      apply in_map_iff in Hv as (p & <- & _).
      apply FilterFacts.or_zero_number.
  - rewrite map_map.
    rewrite (list_sum_Permutation
               (Permutation_map (fun x => BranchStat.total (with_stats x))
                                (values_Permutation (snd s)))).
    assert (Htot : map (fun x => BranchStat.total (with_stats x))
                       (map snd (snd s))
                   = map (fun k => List.length
                                     (filter (fun p => branch_of p =? k)
                                             placements))
                         (map fst (snd s))).
    { rewrite !map_map. apply map_ext_in. intros [k r] Hin. cbn [fst snd].
      apply In_get_own in Hin; [|exact (proj1 Hk)].
      rewrite Hget, group_fold_branch in Hin. unfold offers_in in Hin.
      destruct (filter (fun p => branch_of p =? k) placements);
        [discriminate|].
      injection Hin as <-. reflexivity. }
    rewrite Htot. apply groups_sizes; [exact (proj1 Hk)|].
    intros p Hp.
    destruct (in_dec string_dec (branch_of p) (map fst (snd s))) as [H|H];
      [assumption|].
    exfalso. apply get_own_None in H.
    rewrite Hget, group_fold_branch in H.
    assert (Hin : In p (offers_in (branch_of p) placements)).
    { apply filter_In. split; [assumption|apply String.eqb_refl]. }
    destruct (offers_in (branch_of p) placements); [destruct Hin|discriminate].
Qed.

(** ** [monthlyTrends], in order *)

Lemma In_distinct {A : Type} (eq_dec : forall x y : A, {x = y} + {x <> y})
    (l : list A) (x : A) :
  In x (distinct eq_dec l) <-> In x l.
Proof.
  induction l as [|a l IH]; simpl; [tauto|].
  split.
  - intros [->|Hin]; [now left|].
    apply in_remove in Hin as [Hin _]. right. now apply IH.
  - intros [->|Hin]; [now left|].
    destruct (eq_dec a x) as [->|Hne]; [now left|].
    right. apply in_in_remove; [congruence|now apply IH].
Qed.

Section DistinctMap.
Variables (A C : Type).
Variable decA : forall x y : A, {x = y} + {x <> y}.
Variable decC : forall x y : C, {x = y} + {x <> y}.
Variable f : A -> C.
Hypothesis f_inj : forall x y, f x = f y -> x = y.

Lemma remove_map_inj (a : A) (l : list A) :
  remove decC (f a) (map f l) = map f (remove decA a l).
Proof.
  induction l as [|x l IH]; simpl; [reflexivity|].
  destruct (decC (f a) (f x)) as [Heq|Hne], (decA a x) as [Heq'|Hne'].
  - exact IH.
  - apply f_inj in Heq. contradiction.
  - subst. contradiction.
  - simpl. now rewrite IH.
Qed.

Lemma distinct_map_inj (l : list A) :
  distinct decC (map f l) = map f (distinct decA l).
Proof.
  induction l as [|x l IH]; simpl; [reflexivity|].
  now rewrite IH, remove_map_inj.
Qed.
End DistinctMap.

Lemma first_dated_key (ps : list Offer.t) (d : Date) :
  In d (map Offer.created_at ps) -> first_dated ps (month_key d) = d.
Proof.
  intros Hin. apply in_map_iff in Hin as (p & <- & Hp).
  unfold first_dated.
  destruct (find (fun p0 => key_of p0 =? month_key (Offer.created_at p)) ps)
    as [p0|] eqn:E.
  - apply find_some in E as [_ Hk]. apply String.eqb_eq in Hk.
    now apply KeyFacts.month_key_inj.
  - apply (find_none _ _ E) in Hp. unfold key_of in Hp.
    now rewrite String.eqb_refl in Hp.
Qed.

(** X12.  Whatever [Object.prototype] holds, [monthlyTrends] returns
    one entry for each year and month that an offer is dated in, in the
    order in which these first occur among the offers (the page sorts
    by nothing here, and no month key is an array index), and the
    [total]s of the entries add up to the number of offers. *)
Theorem monthlyTrends_in_order_of_first_offer
    (toLocaleString : Date -> string) (pr : prototype)
    (placements : list Offer.t) :
  monthlyTrends toLocaleString pr placements
  = Normal (map (trend toLocaleString placements)
                (distinct Date_eq_dec (map Offer.created_at placements)))
  /\ list_sum
       (map (fun d => count_date d placements)
            (distinct Date_eq_dec (map Offer.created_at placements)))
     = List.length placements.
Proof.
  destruct (monthlyTrends_scan_spec toLocaleString pr placements)
    as (s & Hrun & Hnd & Hget).
  destruct (@forEach_key_order _ _ key_of
              (monthlyTrends_body toLocaleString)
              (fun _ => True) (fun _ => True))
    with (ps := placements) (s := (pr, @nil (string * MonthlyTrend.t)))
    as (s' & Hrun' & Hkeys); auto.
  { intros s0 p _ _. rewrite monthlyTrends_body_usable. eauto. }
  { apply Forall_forall. intros; exact I. }
  unfold monthlyTrends_scan in Hrun. rewrite Hrun in Hrun'.
  injection Hrun' as <-. cbn [snd map app mem existsb negb] in Hkeys.
  assert (Hall : forall (l : list string), filter (fun _ => true) l = l).
  { induction l as [|x l IH]; simpl; congruence. }
  rewrite Hall in Hkeys.
  assert (Hds : map fst (snd s)
                = map month_key
                    (distinct Date_eq_dec (map Offer.created_at placements))).
  { rewrite Hkeys.
    rewrite <- (distinct_map_inj Date_eq_dec string_dec month_key
                  KeyFacts.month_key_inj).
    now rewrite map_map. }
  assert (Hrec : forall k r, In (k, r) (snd s) ->
            r = trend toLocaleString placements (first_dated placements k)
            /\ exists d, In d (map Offer.created_at placements)
                         /\ k = month_key d).
  { intros k r Hin.
    assert (Hk : In k (map fst (snd s))) by (apply (in_map fst _ _ Hin)).
    rewrite Hds in Hk. apply in_map_iff in Hk as (d & <- & Hd).
    apply In_distinct in Hd.
    apply In_get_own in Hin; [|exact Hnd].
    rewrite Hget, group_fold_month in Hin.
    unfold first_dated.
    destruct (find (fun p => key_of p =? month_key d) placements);
      [|discriminate].
    injection Hin as <-. split; [reflexivity|]. now exists d. }
  assert (Hvals : values (snd s)
                  = map (trend toLocaleString placements)
                        (distinct Date_eq_dec
                                  (map Offer.created_at placements))).
  { rewrite values_named_only.
    2:{ intros k Hin. rewrite Hds in Hin.
        apply in_map_iff in Hin as (d & <- & _).
        apply KeyFacts.has_dash_not_index, KeyFacts.month_key_has_dash. }
    transitivity (map (fun k => trend toLocaleString placements
                                  (first_dated placements k))
                      (map fst (snd s))).
    - rewrite map_map. apply map_ext_in. intros [k r] Hin. cbn [fst snd].
      now destruct (Hrec k r Hin) as [-> _].
    - rewrite Hds, map_map. apply map_ext_in. intros d Hd.
      apply In_distinct in Hd. now rewrite first_dated_key. }
  split.
  - unfold monthlyTrends, monthlyTrends_scan. rewrite Hrun. cbn [bind].
    now rewrite Hvals.
  - transitivity
      (list_sum (map (fun k => List.length
                                 (filter (fun p => key_of p =? k) placements))
                     (map fst (snd s)))).
    + rewrite Hds, map_map. f_equal. apply map_ext. intros d.
      apply count_date_key.
    + apply groups_sizes; [exact Hnd|].
      intros p Hp. rewrite Hds. unfold key_of. apply in_map.
      apply In_distinct. now apply in_map.
Qed.

End GroupingExtras.

(* ================================================================== *)
(** * The helpers and the views, further *)
(* ================================================================== *)

Module ViewExtras.
Import Js JsFacts Aggregator Reference Home Measures.

(** ** [getCtcRange] on every number *)

Ltac rung a k :=
  let E := fresh "E" in
  destruct (Qltb a k) eqn:E;
  [apply Qltb_true in E | apply Qltb_false in E].

(** X13.  [getCtcRange] is monotone on all numbers, the infinities
    included: a compensation that is at least another one never lands
    in a lower bucket.  And it is total: every value gets one of the six
    labels, [NaN], which no comparison holds of, the last one. *)
Theorem getCtcRange_monotone (a b : number) :
  (ge b a = true ->
   bucket_rank (getCtcRange a) <= bucket_rank (getCtcRange b))
  /\ In (getCtcRange a) ["<5"; "5-10"; "10-15"; "15-20"; "20+"; "30+"]
  /\ getCtcRange NaN = "30+"
  /\ getCtcRange PosInf = "30+"
  /\ getCtcRange NegInf = "<5".
Proof.
  split; [|split; [|repeat split]].
  - intros Hge.
    destruct a as [| | |a], b as [| | |b]; try discriminate Hge;
      try (vm_compute; lia).
    + rewrite HelpersFacts.getCtcRange_Fin.
      change (getCtcRange PosInf) with "30+".
      repeat match goal with
             | |- context [Qltb ?x ?k] => rung x k
             end; vm_compute; lia.
    + simpl in Hge. rewrite negb_true_iff in Hge. apply Qltb_false in Hge.
      rewrite !HelpersFacts.getCtcRange_Fin.
      repeat match goal with
             | |- context [Qltb ?x ?k] => rung x k
             end; try (vm_compute; lia); exfalso; lra.
  - unfold getCtcRange.
    repeat match goal with
           | |- context [if ?c then _ else _] => destruct c
           end; simpl; auto 10.
Qed.

Lemma getCtcRange_monotone_witness :
  bucket_rank (getCtcRange (Fin 7)) <= bucket_rank (getCtcRange PosInf)
  /\ In (getCtcRange NaN) ["<5"; "5-10"; "10-15"; "15-20"; "20+"; "30+"].
Proof.
  split.
  - apply (proj1 (getCtcRange_monotone (Fin 7) PosInf)). reflexivity.
  - apply (proj1 (proj2 (getCtcRange_monotone NaN NaN))).
Defined.

(** ** The median of [calcStats] *)

Lemma ge_refl (a : number) : a <> NaN -> ge a a = true.
Proof.
  destruct a as [| | |a]; try reflexivity; [congruence|].
  intros _. simpl. rewrite negb_true_iff. apply Qltb_false. lra.
Qed.

Lemma ge_not_lt (a b : number) : ge a b = true -> lt a b = false.
Proof.
  destruct a, b; simpl; try discriminate; try reflexivity;
    now rewrite negb_true_iff.
Qed.

Lemma after_ascending (a b : number) :
  after (fun a b => sub a b) a b = lt b a.
Proof. unfold after. apply lt_zero_sub. Qed.

Lemma insert_ascending (x : number) (l : list number) :
  x <> NaN -> Forall (fun v => v <> NaN) l ->
  StronglySorted (fun a b => ge b a = true) l ->
  StronglySorted (fun a b => ge b a = true) (insert (fun a b => sub a b) x l).
Proof.
  intros Hx Hl Hs. induction Hs as [|y l Hs IH Hy]; simpl.
  - repeat constructor.
  - inversion Hl as [|? ? Hyn Hl']; subst.
    rewrite after_ascending. destruct (lt y x) eqn:E.
    + constructor; [now apply IH|].
      apply (Permutation_Forall
               (Permutation_sym (insert_Permutation _ x l))).
      constructor; [|exact Hy]. now apply lt_ge.
    + assert (Hyx : ge y x = true) by (apply not_lt_ge; auto).
      constructor; [now constructor|].
      constructor; [exact Hyx|].
      eapply Forall_impl; [|exact Hy].
      intros z Hz. now apply (ge_trans _ y).
Qed.

Lemma sort_ascending (l : list number) :
  Forall (fun v => v <> NaN) l ->
  StronglySorted (fun a b => ge b a = true) (sort (fun a b => sub a b) l).
Proof.
  induction 1 as [|x l Hx Hl IH]; simpl.
  - constructor.
  - apply insert_ascending; [exact Hx| |exact IH].
    apply (Permutation_Forall (Permutation_sym (sort_Permutation _ l))), Hl.
Qed.

(** In an ascending list, what stands before a position is at most the
    value there, and what stands after is at least that. *)
Lemma sorted_nth_split (s : list number) :
  StronglySorted (fun a b => ge b a = true) s ->
  forall i, i < List.length s ->
    exists l1 l2,
      s = l1 ++ nth i s NaN :: l2 /\ List.length l1 = i
      /\ Forall (fun v => ge (nth i s NaN) v = true) l1
      /\ Forall (fun v => ge v (nth i s NaN) = true) l2.
Proof.
  induction 1 as [|y s Hs IH Hy]; intros i Hi; simpl in Hi; [lia|].
  destruct i as [|i].
  - exists [], s. repeat split; auto.
  - destruct (IH i ltac:(lia)) as (l1 & l2 & Heq & Hlen & H1 & H2).
    exists (y :: l1), l2. cbn [nth]. repeat split.
    + change (y :: s = y :: (l1 ++ nth i s NaN :: l2)). now rewrite <- Heq.
    + simpl. now rewrite Hlen.
    + constructor; [|exact H1].
      apply (proj1 (Forall_forall _ _) Hy). apply nth_In. lia.
    + exact H2.
Qed.

Lemma length_filter_all {A : Type} (f : A -> bool) (l : list A) :
  Forall (fun a => f a = true) l -> List.length (filter f l) = List.length l.
Proof.
  induction 1 as [|a l Ha _ IH]; simpl; [reflexivity|].
  rewrite Ha. simpl. now rewrite IH.
Qed.

Lemma length_filter_Permutation {A : Type} (f : A -> bool) (l l' : list A) :
  Permutation l l' -> List.length (filter f l) = List.length (filter f l').
Proof.
  induction 1 as [|x l l' _ IH|x y l|l l' l'' _ IH1 _ IH2]; simpl.
  - reflexivity.
  - destruct (f x); simpl; now rewrite IH.
  - destruct (f x), (f y); reflexivity.
  - now rewrite IH1.
Qed.

Lemma sorted_counts (s : list number) (i : nat) :
  StronglySorted (fun a b => ge b a = true) s ->
  Forall (fun v => v <> NaN) s -> i < List.length s ->
  i + 1 <= count_le (nth i s NaN) s
  /\ List.length s - i <= count_ge (nth i s NaN) s.
Proof.
  intros Hs Hn Hi.
  destruct (sorted_nth_split Hs Hi) as (l1 & l2 & Heq & Hlen & H1 & H2).
  assert (Hm : ge (nth i s NaN) (nth i s NaN) = true).
  { apply ge_refl. apply (proj1 (Forall_forall _ _) Hn). now apply nth_In. }
  remember (nth i s NaN) as m eqn:Em. clear Em.
  unfold count_le, count_ge. subst s.
  rewrite !filter_app, !length_app. cbn [filter]. rewrite Hm.
  cbn [List.length].
  rewrite (length_filter_all (fun v => ge m v) H1).
  rewrite (length_filter_all (fun v => ge v m) H2).
  rewrite length_app in Hi. cbn [List.length] in Hi. lia.
Qed.

(** The middle of the values in ascending order: the value at the
    position [length / 2], and the one before it when the length is
    even. *)
Lemma middle_of_sorted (values : list number) :
  values <> [] -> Forall (fun v => v <> NaN) values ->
  exists lo hi,
    In lo values /\ In hi values /\ ge hi lo = true
    /\ List.length values <= 2 * count_le lo values
    /\ List.length values <= 2 * count_ge hi values
    /\ hi = nth (List.length values / 2) (sort (fun a b => sub a b) values) NaN
    /\ lo = nth (List.length values / 2
                 - (if (List.length values mod 2 =? 0)%nat then 1 else 0))
                (sort (fun a b => sub a b) values) NaN.
Proof.
  intros Hne Hn.
  set (sorted := sort (fun a b => sub a b) values).
  assert (Hperm : Permutation sorted values) by apply sort_Permutation.
  assert (Hlen : List.length sorted = List.length values)
    by now apply Permutation_length.
  assert (Hs : StronglySorted (fun a b => ge b a = true) sorted)
    by now apply sort_ascending.
  assert (Hsn : Forall (fun v => v <> NaN) sorted)
    by (apply (Permutation_Forall (Permutation_sym Hperm)), Hn).
  assert (Hpos : 0 < List.length values)
    by (destruct values; [congruence|simpl; lia]).
  pose proof (Nat.div_mod_eq (List.length values) 2) as Hdm.
  pose proof (Nat.mod_upper_bound (List.length values) 2 ltac:(lia)) as Hub.
  set (n := List.length values) in *.
  set (mid := n / 2) in *.
  assert (Hto : forall x, count_le x sorted = count_le x values
                          /\ count_ge x sorted = count_ge x values).
  { intros x. split; apply length_filter_Permutation, Hperm. }
  assert (Hin : forall i, i < n -> In (nth i sorted NaN) values).
  { intros i Hi. apply (Permutation_in _ Hperm). apply nth_In. lia. }
  destruct (n mod 2 =? 0)%nat eqn:Heven.
  - apply Nat.eqb_eq in Heven.
    assert (Hmid : 0 < mid) by lia.
    destruct (@sorted_counts sorted (mid - 1) Hs Hsn ltac:(lia)) as [Hlo _].
    destruct (@sorted_counts sorted mid Hs Hsn ltac:(lia)) as [_ Hhi].
    destruct (sorted_nth_split Hs (i := mid) ltac:(lia))
      as (l1 & l2 & Heq & Hl1 & H1 & _).
    exists (nth (mid - 1) sorted NaN), (nth mid sorted NaN).
    rewrite (proj1 (Hto _)) in Hlo.
    rewrite (proj2 (Hto _)) in Hhi.
    repeat split; try (apply Hin; lia); try lia.
    assert (Hnth : nth (mid - 1) sorted NaN = nth (mid - 1) l1 NaN).
    { rewrite Heq at 1. apply app_nth1. lia. }
    rewrite Hnth. apply (proj1 (Forall_forall _ _) H1). apply nth_In. lia.
  - apply Nat.eqb_neq in Heven.
    destruct (@sorted_counts sorted mid Hs Hsn ltac:(lia)) as [Hlo Hhi].
    exists (nth mid sorted NaN), (nth mid sorted NaN).
    rewrite (proj1 (Hto _)) in Hlo.
    rewrite (proj2 (Hto _)) in Hhi.
    repeat split; try (apply Hin; lia); try lia.
    + apply ge_refl. apply (proj1 (Forall_forall _ _) Hsn). apply nth_In. lia.
    + now rewrite Nat.sub_0_r.
Qed.

(** The median of [calcStats], by positions in the sorted values. *)
Lemma calcStats_median {B : Binary64} (values : list number) :
  values <> [] ->
  median (calcStats (Some values))
  = toFixed2
      (if (List.length values mod 2 =? 0)%nat
       then div (add (nth (List.length values / 2 - 1)
                          (sort (fun a b => sub a b) values) NaN)
                     (nth (List.length values / 2)
                          (sort (fun a b => sub a b) values) NaN))
                (Fin 2)
       else nth (List.length values / 2)
                (sort (fun a b => sub a b) values) NaN).
Proof.
  intros Hne.
  rewrite <- (Permutation_length
                (sort_Permutation (fun a b => sub a b) values)).
  destruct values as [|v values]; [congruence|].
  cbn [calcStats median].
  now destruct (List.length (sort (fun a b => sub a b) (v :: values)) mod 2
                =? 0)%nat.
Qed.

(** The median of [calcStats] is [toFixed(2)] of the middle value of
    the sorted values. *)
Lemma calcStats_median_middle_value {B : Binary64} (values : list number) :
  values <> [] ->
  median (calcStats (Some values))
  = toFixed2 (middle_value (sort (fun a b => sub a b) values)).
Proof.
  intros Hne. rewrite (calcStats_median Hne). unfold middle_value.
  now rewrite (Permutation_length
                 (sort_Permutation (fun a b => sub a b) values)).
Qed.

Lemma overall_values_number (placements : list Offer.t) :
  Forall (fun v => v <> NaN) (overall_values placements).
Proof.
  apply Forall_forall. intros v Hv. unfold overall_values in Hv.
  apply in_map_iff in Hv as (p & <- & _). apply FilterFacts.or_zero_number.
Qed.

(** X14.  The median of [calcStats] on values without [NaN] (the page
    passes [Number(p.ctc) || 0], which never is) is the statistical
    median up to the rounding of the arithmetic: for the values put in
    ascending order, it is [toFixed(2)] of the element at the middle
    position when their number is odd, and of the mean of the elements
    at the two middle positions when it is even.  At least half of the
    values are at most the lower middle element and at least half are
    at least the upper one. *)
Theorem calcStats_median_in_the_middle {B : Binary64} (values : list number) :
  values <> [] -> Forall (fun v => v <> NaN) values ->
  exists sorted,
    Permutation sorted values
    /\ StronglySorted (fun a b => ge b a = true) sorted
    /\ median (calcStats (Some values)) = toFixed2 (middle_value sorted)
    /\ ge (nth (List.length values / 2) sorted NaN)
          (nth (List.length values / 2
                - (if (List.length values mod 2 =? 0)%nat then 1 else 0))
               sorted NaN) = true
    /\ List.length values
       <= 2 * count_le
              (nth (List.length values / 2
                    - (if (List.length values mod 2 =? 0)%nat then 1 else 0))
                   sorted NaN) values
    /\ List.length values
       <= 2 * count_ge (nth (List.length values / 2) sorted NaN) values.
Proof.
  intros Hne Hn.
  destruct (middle_of_sorted Hne Hn)
    as (lo & hi & _ & _ & Hge & Hle & Hgt & Ehi & Elo).
  exists (sort (fun a b => sub a b) values).
  split; [apply sort_Permutation|].
  split; [now apply sort_ascending|].
  split; [now apply calcStats_median_middle_value|].
  rewrite <- Ehi, <- Elo. now repeat split.
Qed.

Lemma calcStats_median_in_the_middle_witness :
  exists sorted,
    Permutation sorted [Fin 4; Fin 1; Fin 3; Fin 2]
    /\ StronglySorted (fun a b => ge b a = true) sorted
    /\ median (@calcStats Ieee754.ieee754 (Some [Fin 4; Fin 1; Fin 3; Fin 2]))
       = @toFixed2 Ieee754.ieee754 (@middle_value Ieee754.ieee754 sorted)
    /\ ge (nth (List.length [Fin 4; Fin 1; Fin 3; Fin 2] / 2) sorted NaN)
          (nth (List.length [Fin 4; Fin 1; Fin 3; Fin 2] / 2
                - (if (List.length [Fin 4; Fin 1; Fin 3; Fin 2] mod 2 =? 0)%nat
                   then 1 else 0))
               sorted NaN) = true
    /\ List.length [Fin 4; Fin 1; Fin 3; Fin 2]
       <= 2 * count_le
              (nth (List.length [Fin 4; Fin 1; Fin 3; Fin 2] / 2
                    - (if (List.length [Fin 4; Fin 1; Fin 3; Fin 2] mod 2
                           =? 0)%nat then 1 else 0))
                   sorted NaN) [Fin 4; Fin 1; Fin 3; Fin 2]
    /\ List.length [Fin 4; Fin 1; Fin 3; Fin 2]
       <= 2 * count_ge
              (nth (List.length [Fin 4; Fin 1; Fin 3; Fin 2] / 2) sorted NaN)
              [Fin 4; Fin 1; Fin 3; Fin 2].
Proof.
  apply (@calcStats_median_in_the_middle Ieee754.ieee754
           [Fin 4; Fin 1; Fin 3; Fin 2]).
  - discriminate.
  - repeat constructor; discriminate.
Defined.

(** X15.  The overall view computes its statistics from
    [Number(p.ctc) || 0], so no [NaN] reaches [calcStats]: without
    offers both statistics are 0, and with offers the median is
    [toFixed(2)] of the middle one of the compensations in ascending
    order, or of the mean of the two middle ones when their number is
    even, an unreadable compensation counting as 0. *)
Theorem overall_median_in_the_middle {B : Binary64}
    (placements : list Offer.t) :
  overall_stats [] = {| avg := Fin 0; median := Fin 0 |}
  /\ (placements <> [] ->
      exists sorted,
        Permutation sorted (overall_values placements)
        /\ StronglySorted (fun a b => ge b a = true) sorted
        /\ Forall (fun v => v <> NaN) sorted
        /\ median (overall_stats placements) = toFixed2 (middle_value sorted)
        /\ List.length placements
           <= 2 * count_le
                  (nth (List.length placements / 2
                        - (if (List.length placements mod 2 =? 0)%nat
                           then 1 else 0))
                       sorted NaN) (overall_values placements)
        /\ List.length placements
           <= 2 * count_ge (nth (List.length placements / 2) sorted NaN)
                           (overall_values placements)).
Proof.
  split; [reflexivity|]. intros Hne.
  assert (Hne' : overall_values placements <> [])
    by (destruct placements; [congruence|discriminate]).
  pose proof (overall_values_number placements) as Hn.
  assert (Hlen : List.length (overall_values placements)
                 = List.length placements) by apply length_map.
  destruct (middle_of_sorted Hne' Hn)
    as (lo & hi & _ & _ & _ & Hle & Hgt & Ehi & Elo).
  rewrite Hlen in Hle, Hgt, Ehi, Elo.
  exists (sort (fun a b => sub a b) (overall_values placements)).
  split; [apply sort_Permutation|].
  split; [now apply sort_ascending|].
  split.
  { apply (Permutation_Forall
             (Permutation_sym (sort_Permutation _ (overall_values placements)))),
          Hn. }
  split; [now apply calcStats_median_middle_value|].
  rewrite <- Ehi, <- Elo. now split.
Qed.

(** ** [filterAndSort], further *)

Lemma filter_id {A : Type} (f : A -> bool) (l : list A) :
  (forall a, In a l -> f a = true) -> filter f l = l.
Proof.
  induction l as [|a l IH]; intros H; simpl; [reflexivity|].
  rewrite (H a) by now left. f_equal. apply IH. intros; apply H; now right.
Qed.

Lemma filter_throwing_throws {A : Type} (pred : A -> completion error bool)
    (l : list A) (a : A) :
  In a l -> pred a = Throw TypeError ->
  filter_throwing pred l = Throw TypeError.
Proof.
  induction l as [|x l IH]; intros Hin Ha; [destruct Hin|].
  cbn [filter_throwing]. destruct Hin as [->|Hin].
  - now rewrite Ha.
  - destruct (pred x) as [keep|[]]; [|reflexivity]. cbn [bind].
    now rewrite (IH Hin Ha).
Qed.

Section Stable.
Variable A : Type.
Variable key : A -> number.

Lemma filter_tied_insert (x y : A) (l : list A) :
  filter (tied key x) (insert (fun a b => sub (key b) (key a)) y l)
  = filter (tied key x) (y :: l).
Proof.
  induction l as [|z l IH]; [reflexivity|].
  cbn [insert]. rewrite after_descending.
  destruct (lt (key y) (key z)) eqn:E; [|reflexivity].
  cbn [filter] in *. rewrite IH.
  destruct (tied key x y) eqn:Ty, (tied key x z) eqn:Tz; try reflexivity.
  exfalso. unfold tied in Ty, Tz.
  apply andb_true_iff in Ty as [Hyx _]. apply andb_true_iff in Tz as [_ Hxz].
  pose proof (@ge_not_lt _ _ (ge_trans _ _ _ Hyx Hxz)). congruence.
Qed.

Lemma filter_tied_sort (x : A) (l : list A) :
  filter (tied key x) (sort (fun a b => sub (key b) (key a)) l)
  = filter (tied key x) l.
Proof.
  induction l as [|y l IH]; [reflexivity|].
  cbn [sort fold_right]. fold (sort (fun a b => sub (key b) (key a)) l).
  rewrite filter_tied_insert. cbn [filter]. now rewrite IH.
Qed.

(** Sorting a list that is in descending order leaves it as it is. *)
Lemma sort_sorted (l : list A) :
  StronglySorted (fun a b => ge (key a) (key b) = true) l ->
  sort (fun a b => sub (key b) (key a)) l = l.
Proof.
  induction 1 as [|x l Hl IH Hx]; [reflexivity|].
  cbn [sort fold_right]. fold (sort (fun a b => sub (key b) (key a)) l).
  rewrite IH. destruct l as [|y l]; [reflexivity|].
  cbn [insert]. rewrite after_descending.
  inversion Hx as [|? ? Hxy _]; subst. now rewrite (@ge_not_lt _ _ Hxy).
Qed.
End Stable.

Section Views.
Context {A : Type} {Agg : Aggregate A}.
Variable toLowerCase : string -> string.
Variable view : View.

Lemma ordered_stable (x : A) (l : list A) :
  filter (tied (sort_key view) x) (ordered view l)
  = filter (tied (sort_key view) x) l.
Proof.
  unfold ordered, sort_key.
  destruct (sortBy view =? "students");
    [apply (filter_tied_sort (fun d => of_nat (member_total d)))|].
  destruct (sortBy view =? "avg");
    [apply (filter_tied_sort (fun d => member_or_zero (member_avg d)))|].
  destruct (sortBy view =? "median");
    [apply (filter_tied_sort (fun d => member_or_zero (member_median d)))|].
  reflexivity.
Qed.

Lemma ordered_ordered (l : list A) :
  ordered view (ordered view l) = ordered view l.
Proof.
  unfold ordered.
  destruct (sortBy view =? "students").
  { apply (sort_sorted (fun d => of_nat (member_total d))).
    apply sort_descending. intros a. discriminate. }
  destruct (sortBy view =? "avg").
  { apply (sort_sorted (fun d => member_or_zero (member_avg d))).
    apply sort_descending. intros a. apply FilterFacts.member_or_zero_number. }
  destruct (sortBy view =? "median").
  { apply (sort_sorted (fun d => member_or_zero (member_median d))).
    apply sort_descending. intros a. apply FilterFacts.member_or_zero_number. }
  reflexivity.
Qed.

(** Without a search term no member is looked up. *)
Lemma filterAndSort_without_search (data : list A) (type : string) :
  truthy_string (search view) = false ->
  filterAndSort toLowerCase view data type
  = Normal (ordered view (filter (kept toLowerCase view type) data)).
Proof.
  intros Hs. unfold filterAndSort. rewrite Hs. cbn [bind].
  assert (Hrange :
    (if (type =? "company") && negb (selectedRange view =? "all")
     then filter (fun d => strict_equal (member_ctcRange d)
                                        (selectedRange view)) data
     else data)
    = filter (kept toLowerCase view type) data).
  { unfold kept, range_ok, search_ok. rewrite Hs. cbn [negb orb andb].
    destruct ((type =? "company") && negb (selectedRange view =? "all")).
    - reflexivity.
    - symmetry. apply filter_id. reflexivity. }
  rewrite Hrange. unfold ordered.
  destruct (sortBy view =? "students"); [reflexivity|].
  destruct (sortBy view =? "avg"); [reflexivity|].
  destruct (sortBy view =? "median"); reflexivity.
Qed.

Lemma filterAndSort_returns (data : list A) (type : string) :
  (truthy_string (search view) = true ->
   forall d, In d data -> grouping_key type d <> None) ->
  filterAndSort toLowerCase view data type
  = Normal (ordered view (filter (kept toLowerCase view type) data)).
Proof.
  intros Hkey. destruct (truthy_string (search view)) eqn:Hs.
  - apply FilterFacts.filterAndSort_kept. now apply Hkey.
  - now apply filterAndSort_without_search.
Qed.

Lemma filterAndSort_missing_member (data : list A) (type : string) (d : A) :
  truthy_string (search view) = true ->
  In d data -> grouping_key type d = None ->
  filterAndSort toLowerCase view data type = Throw TypeError.
Proof.
  intros Hs Hd Hkey. unfold filterAndSort. rewrite Hs.
  rewrite (@filter_throwing_throws _ _ data d Hd); [reflexivity|].
  unfold matches_search. unfold grouping_key in Hkey. now rewrite Hkey.
Qed.

(** Either every member that the search reads is there, or one is
    missing. *)
Lemma members_present_or_not (data : list A) (type : string) :
  (forall d, In d data -> grouping_key type d <> None)
  \/ exists d, In d data /\ grouping_key type d = None.
Proof.
  induction data as [|x l [IH|(d & Hd & Hk)]].
  - left. intros d [].
  - destruct (grouping_key type x) eqn:E.
    + left. intros d [<-|Hd]; [congruence|now apply IH].
    + right. exists x. split; [now left|assumption].
  - right. exists d. split; [now right|assumption].
Qed.

Lemma filterAndSort_Normal (data : list A) (type : string) (l : list A) :
  filterAndSort toLowerCase view data type = Normal l ->
  l = ordered view (filter (kept toLowerCase view type) data)
  /\ (truthy_string (search view) = true ->
      forall d, In d data -> grouping_key type d <> None).
Proof.
  intros Hrun.
  assert (Hkey : truthy_string (search view) = true ->
                 forall d, In d data -> grouping_key type d <> None).
  { intros Hs d Hd Hk.
    rewrite (filterAndSort_missing_member data type d Hs Hd Hk) in Hrun.
    discriminate. }
  split; [|exact Hkey].
  rewrite (filterAndSort_returns data type Hkey) in Hrun. congruence.
Qed.
End Views.

(** X16.  [filterAndSort] throws exactly when there is a search term
    and a record of [data] lacks the member the term is searched in
    ([company] for the type "company", [branch] otherwise):
    [toLowerCase] is then called on [undefined].  In every other case
    it returns. *)
Theorem filterAndSort_throws_iff {A : Type} {Agg : Aggregate A}
    (toLowerCase : string -> string) (view : View) (data : list A)
    (type : string) :
  (filterAndSort toLowerCase view data type = Throw TypeError
   <-> search view <> ""
       /\ exists d, In d data /\ grouping_key type d = None)
  /\ ((search view = ""
       \/ forall d, In d data -> grouping_key type d <> None) ->
      filterAndSort toLowerCase view data type
      = Normal (ordered view (filter (kept toLowerCase view type) data))).
Proof.
  assert (Hret : (search view = ""
       \/ forall d, In d data -> grouping_key type d <> None) ->
      filterAndSort toLowerCase view data type
      = Normal (ordered view (filter (kept toLowerCase view type) data))).
  { intros [Hs|Hk]; apply filterAndSort_returns.
    - rewrite Hs. discriminate.
    - intros _. exact Hk. }
  split; [|exact Hret]. split.
  - intros Hrun. split.
    + intros Hs. rewrite Hret in Hrun by now left. discriminate.
    + destruct (members_present_or_not data type) as [Hk|Hex];
        [|exact Hex].
      rewrite Hret in Hrun by now right. discriminate.
  - intros (Hs & d & Hd & Hk).
    apply (filterAndSort_missing_member toLowerCase view data type d);
      try assumption.
    destruct (search view); [congruence|reflexivity].
Qed.

(** X17.  The sort of [filterAndSort] is stable: whenever it returns,
    the records that have the same sort key as a given one stand in the
    result in the order they have in [data]. *)
Theorem filterAndSort_keeps_ties_in_order {A : Type} {Agg : Aggregate A}
    (toLowerCase : string -> string) (view : View) (data : list A)
    (type : string) (l : list A) :
  filterAndSort toLowerCase view data type = Normal l ->
  forall x,
    filter (tied (sort_key view) x) l
    = filter (tied (sort_key view) x)
             (filter (kept toLowerCase view type) data).
Proof.
  intros Hrun x.
  apply filterAndSort_Normal in Hrun as [-> _]. apply ordered_stable.
Qed.

Import Examples.

Lemma filterAndSort_keeps_ties_in_order_witness :
  filter (tied (sort_key (Examples.searching "")) Examples.ENG)
         [Examples.SCI; Examples.ENG;
          {| Examples.branch := "MEC"; Examples.total := 5 |}]
  = filter (tied (sort_key (Examples.searching "")) Examples.ENG)
           (filter (kept Examples.ascii_toLowerCase (Examples.searching "")
                         "branch")
                   three_branches).
Proof.
  apply (@filterAndSort_keeps_ties_in_order _ _ Examples.ascii_toLowerCase
           (Examples.searching "") three_branches "branch").
  reflexivity.
Defined.

(** X18.  [filterAndSort] changes nothing on a list it has returned:
    run again on its result, with the same view and type, it returns
    the same list. *)
Theorem filterAndSort_idempotent {A : Type} {Agg : Aggregate A}
    (toLowerCase : string -> string) (view : View) (data : list A)
    (type : string) (l : list A) :
  filterAndSort toLowerCase view data type = Normal l ->
  filterAndSort toLowerCase view l type = Normal l.
Proof.
  intros Hrun. apply filterAndSort_Normal in Hrun as [Hl Hkey].
  assert (Hin : forall d, In d l ->
            In d data /\ kept toLowerCase view type d = true).
  { intros d Hd. rewrite Hl in Hd.
    apply (Permutation_in _ (FilterFacts.ordered_Permutation view _)) in Hd.
    now apply filter_In in Hd. }
  rewrite filterAndSort_returns.
  - f_equal. rewrite filter_id by (intros d Hd; now apply Hin).
    rewrite Hl. apply ordered_ordered.
  - intros Hs d Hd. apply (Hkey Hs). now apply Hin.
Qed.

Lemma filterAndSort_idempotent_witness :
  filterAndSort Examples.ascii_toLowerCase (Examples.searching "")
    [Examples.SCI; Examples.ENG;
     {| Examples.branch := "MEC"; Examples.total := 5 |}] "branch"
  = Normal [Examples.SCI; Examples.ENG;
            {| Examples.branch := "MEC"; Examples.total := 5 |}].
Proof.
  apply (@filterAndSort_idempotent _ _ Examples.ascii_toLowerCase
           (Examples.searching "") three_branches "branch").
  reflexivity.
Defined.

(** ** The tick labels of the company chart *)

Lemma length_append (a b : string) :
  String.length (a ++ b) = String.length a + String.length b.
Proof. induction a as [|c a IH]; simpl; [reflexivity|now rewrite IH]. Qed.

Lemma substring_append (a b : string) :
  String.substring 0 (String.length a) (a ++ b) = a.
Proof. induction a as [|c a IH]; simpl; [now destruct b|now rewrite IH]. Qed.

Lemma length_slice_0_10 (value : string) :
  10 < String.length value -> String.length (slice_0_10 value) = 10.
Proof.
  intros H. unfold slice_0_10. rewrite HelpersFacts.length_substring. lia.
Qed.

(** X19.  A tick label has at most eleven code units: a company name
    of up to ten is shown as it is, a longer one as its first ten code
    units and the ellipsis.  Formatting a label again changes
    nothing. *)
Theorem tickFormatter_bounded (ellipsis : ascii) (value : string) :
  String.length (tickFormatter ellipsis value) <= 11
  /\ (String.length value <= 10 -> tickFormatter ellipsis value = value)
  /\ (10 < String.length value ->
      tickFormatter ellipsis value
      = (String.substring 0 10 value ++ String ellipsis EmptyString)%string)
  /\ tickFormatter ellipsis (tickFormatter ellipsis value)
     = tickFormatter ellipsis value.
Proof.
  unfold tickFormatter.
  destruct (10 <? String.length value)%nat eqn:E.
  - apply Nat.ltb_lt in E.
    pose proof (length_slice_0_10 value E) as Hlen.
    assert (Hlong : String.length
                      (slice_0_10 value ++ String ellipsis EmptyString) = 11).
    { rewrite length_append, Hlen. reflexivity. }
    repeat split.
    + lia.
    + lia.
    + intros _. unfold slice_0_10. now rewrite Nat.min_l by lia.
    + rewrite Hlong. cbn [Nat.ltb Nat.leb]. f_equal.
      unfold slice_0_10 at 1. rewrite Hlong. cbn [Nat.min].
      rewrite <- Hlen at 1. apply substring_append.
  - pose proof E as E'. apply Nat.ltb_ge in E. rewrite E'.
    repeat split; try lia; try reflexivity.
Qed.

End ViewExtras.

(* ================================================================== *)
(** * [calcStats] in binary64 *)
(* ================================================================== *)

Module StatsFacts.
Import Js JsFacts Aggregator Reference Home Measures Ieee754 ViewExtras.

(** [toFixed(2)] picks a nearest hundredth. *)
Lemma hundredths_nearest (q : Q) :
  (Qabs.Qabs (q * 100 - inject_Z (hundredths q)) <= 1 # 2)%Q.
Proof.
  unfold hundredths.
  set (x := (Qabs.Qabs q * 100 + (1 # 2))%Q).
  pose proof (Qround.Qfloor_le x) as Hlo.
  pose proof (Qround.Qlt_floor x) as Hhi.
  rewrite inject_Z_plus in Hhi. subst x.
  apply Qabs.Qabs_Qle_condition.
  destruct (Qle_bool 0 q) eqn:Hq.
  - apply Qle_bool_iff in Hq.
    pose proof (Qabs.Qabs_pos q Hq) as Habs.
    set (a := Qabs.Qabs q) in *.
    set (n := inject_Z (Qround.Qfloor (a * 100 + (1 # 2)))) in *.
    change (inject_Z 1) with 1%Q in Hhi. clearbody n. clearbody a.
    split; lra.
  - assert (Hneg : (q <= 0)%Q).
    { apply Qnot_lt_le. intros H. apply Qlt_le_weak, Qle_bool_iff in H.
      congruence. }
    pose proof (Qabs.Qabs_neg q Hneg) as Habs.
    rewrite inject_Z_opp.
    set (a := Qabs.Qabs q) in *.
    set (n := inject_Z (Qround.Qfloor (a * 100 + (1 # 2)))) in *.
    change (inject_Z 1) with 1%Q in Hhi. clearbody n. clearbody a.
    split; lra.
Qed.

(** C4, as the code has it.  Without values, absent or empty,
    [calcStats] returns 0 for both statistics: nothing is divided.
    Otherwise [avg] is [Number(a.toFixed(2))] for the quotient [a] of
    the sum of the values, added from the left, by their number, and,
    on values without [NaN], [median] is [Number(m.toFixed(2))] for the
    middle value [m] of the values in ascending order: the middle
    element, or the half of the sum of the two middle elements when
    their number is even.  Sum, quotient and half are binary64
    operations and round; [toFixed(2)] then picks the hundredth nearest
    to the binary64 number it is given.  So the statistics are the
    arithmetic mean and the statistical median up to that rounding: 5
    and 5 on 3, 7; 2.5 and 2.5 on 4, 1, 3, 2; and 0.01 for both on
    0.01, 0.02. *)
Theorem calcStats_rounds_in_binary64 :
  (forall B : Binary64,
     @calcStats B None = {| avg := Fin 0; median := Fin 0 |}
     /\ @calcStats B (Some []) = {| avg := Fin 0; median := Fin 0 |})
  /\ (forall (B : Binary64) (values : list number),
        values <> [] ->
        avg (calcStats (Some values))
        = toFixed2 (div (fold_left add values (Fin 0))
                        (of_nat (List.length values)))
        /\ (Forall (fun v => v <> NaN) values ->
            exists sorted,
              Permutation sorted values
              /\ StronglySorted (fun a b => ge b a = true) sorted
              /\ median (calcStats (Some values))
                 = toFixed2 (middle_value sorted)))
  /\ (forall q : Q,
        (Qabs.Qabs q < inject_Z (10 ^ 21))%Q ->
        exists n : Z,
          @toFixed2 ieee754 (Fin q) = literal (n # 100)
          /\ (Qabs.Qabs (q * 100 - inject_Z n) <= 1 # 2)%Q)
  /\ (forall (values : list number) (a : Q),
        values <> [] ->
        @div ieee754 (fold_left (@add ieee754) values (Fin 0))
                     (of_nat (List.length values)) = Fin a ->
        (Qabs.Qabs a < inject_Z (10 ^ 21))%Q ->
        exists n : Z,
          avg (@calcStats ieee754 (Some values)) = literal (n # 100)
          /\ (Qabs.Qabs (a * 100 - inject_Z n) <= 1 # 2)%Q)
  /\ @calcStats ieee754 (Some [Fin 3; Fin 7])
     = {| avg := literal 5; median := literal 5 |}
  /\ @calcStats ieee754 (Some [Fin 4; Fin 1; Fin 3; Fin 2])
     = {| avg := literal (5 # 2); median := literal (5 # 2) |}
  /\ literal (1 # 100) = Fin q001
  /\ literal (2 # 100) = Fin q002
  /\ @calcStats ieee754 (Some [Fin q001; Fin q002])
     = {| avg := literal (1 # 100); median := literal (1 # 100) |}.
Proof.
  split; [intros B; split; reflexivity|].
  split.
  { intros B values Hne. split.
    - destruct values; [congruence|reflexivity].
    - intros Hn. exists (sort (fun a b => sub a b) values).
      split; [apply sort_Permutation|].
      split; [now apply sort_ascending|].
      now apply calcStats_median_middle_value. }
  assert (Hfix : forall q : Q,
            (Qabs.Qabs q < inject_Z (10 ^ 21))%Q ->
            exists n : Z,
              @toFixed2 ieee754 (Fin q) = literal (n # 100)
              /\ (Qabs.Qabs (q * 100 - inject_Z n) <= 1 # 2)%Q).
  { intros q Hq. exists (hundredths q). split; [|apply hundredths_nearest].
    cbn [toFixed2 ieee754 toFixed2_binary64].
    destruct (Qle_bool (inject_Z (10 ^ 21)) (Qabs.Qabs q)) eqn:E;
      [|reflexivity].
    apply Qle_bool_iff in E. exfalso. apply (Qlt_not_le _ _ Hq E). }
  split; [exact Hfix|].
  split.
  { intros values a Hne Ha Hlt. destruct (Hfix a Hlt) as (n & Hn & Hnear).
    exists n. split; [|exact Hnear]. rewrite <- Hn, <- Ha.
    destruct values; [congruence|reflexivity]. }
  repeat split; vm_compute; reflexivity.
Qed.

(** The claim C4 has [avg] be the arithmetic mean rounded to two
    decimal digits, and [median] the statistical median so rounded.  On
    the numbers 0.01 and 0.02 the mean, which is also the median, lies
    strictly between 0.015 and 0.025 and rounds to 0.02, while
    [calcStats] returns 0.01 for both: the binary64 sum of the two is
    the number 0.03, whose half lies below 0.015. *)
Lemma calcStats_mean_counterexample :
  literal (1 # 100) = Fin q001
  /\ literal (2 # 100) = Fin q002
  /\ avg (@calcStats ieee754 (Some [Fin q001; Fin q002])) = literal (1 # 100)
  /\ median (@calcStats ieee754 (Some [Fin q001; Fin q002]))
     = literal (1 # 100)
  /\ to_2_digits (exact_mean [q001; q002]) = (2 # 100)%Q
  /\ Qltb (15 # 1000) (exact_mean [q001; q002]) = true
  /\ Qltb (exact_mean [q001; q002]) (25 # 1000) = true
  /\ lt (literal (1 # 100)) (literal (2 # 100)) = true.
Proof. repeat split; vm_compute; reflexivity. Qed.

End StatsFacts.
